(** * Mastermind solvers: feedback oracle, candidate filtering, guess selection

    A shallow embedding of the Python modules [constraint.py],
    [logicalinterface.py], [maxmin.py] and [depthsirch.py], and the
    properties of the feedback function, of the three solver loops, of the
    tree search and of the input check of the scripts.

    Python values are modelled as follows.
    - a colour is a [string], a code (a tuple of colours) a [list string];
    - Python integers are [Z]; a feedback is the pair [(black, white)];
    - a [dict] keyed by feedback is a [gmap (Z * Z) Z];
    - an uncaught exception ends the run: fallible functions return
      [py_result];
    - [print] appends an [event] to the output of the run;
    - the generator behind [random.choice] is process-global state that is
      threaded through the solvers explicitly. *)

From Stdlib Require Import ZArith Lia Ascii String DecimalString.
From Stdlib Require DecimalNat.
From stdpp Require Import base decidable list strings gmap.

Local Open Scope Z_scope.

(** ** Python values *)

Abbreviation Code := (list string).
Abbreviation Feedback := (Z * Z)%type.

(** [sum(...)] over a sequence of integers. *)
Fixpoint py_sum (l : list Z) : Z :=
  match l with
  | [] => 0
  | x :: l' => x + py_sum l'
  end.

(** [tuple.count(c)]. *)
Fixpoint count (l : Code) (c : string) : Z :=
  match l with
  | [] => 0
  | x :: l' => (if decide (x = c) then 1 else 0) + count l' c
  end.

(** [set(guess)]: the distinct colours of a tuple. The order in which a
    Python set is iterated is unspecified; it is only ever summed over. *)
Definition py_set (l : Code) : list string := remove_dups l.

(** [len(t)] as a Python integer. *)
Definition len {A} (l : list A) : Z := Z.of_nat (length l).

(** ** The feedback oracle *)

(** [sum(1 for s, g in zip(secret, guess) if s == g)] *)
Definition black_pegs (secret guess : Code) : Z :=
  py_sum ((λ _, 1) <$> filter (λ p, p.1 = p.2) (zip secret guess)).

(** [sum(min(secret.count(c), guess.count(c)) for c in set(guess))] *)
Definition colour_overlap (secret guess : Code) : Z :=
  py_sum ((λ c, Z.min (count secret c) (count guess c)) <$> py_set guess).

(** [get_feedback] is defined identically in the three solver modules
    ([logicalinterface.py] sums the booleans [s == g], which are the
    integers 0 and 1). *)
Definition get_feedback (secret guess : Code) : Feedback :=
  let black := black_pegs secret guess in
  let white := colour_overlap secret guess - black in
  (black, white).

(** *** The feedback as the specification words it *)

(** Number of positions [i < P] at which the two codes carry the same
    colour. *)
Definition matching_positions (P : nat) (secret guess : Code) : Z :=
  len (filter (λ i, secret !! i = guess !! i) (seq 0 P)).

(** Sum, over a list [syms] of distinct colours, of the smaller of the two
    occurrence counts. *)
Definition multiset_overlap (syms : list string) (secret guess : Code) : Z :=
  py_sum ((λ c, Z.min (count secret c) (count guess c)) <$> syms).


(** ** Configuration, exceptions, output and the code space *)

(** [COLORS] and [PEGS], defined alike at the top of the three modules. *)
Definition COLORS : list string :=
  ["red"; "yellow"; "green"; "blue"; "pink"; "brown"]%string.
Definition PEGS : nat := 5.

Inductive exn := IndexError | ValueError | TypeError.

Inductive py_result (A : Type) :=
| Ok (a : A)
| Raise (e : exn).
Arguments Ok {A} a.
Arguments Raise {A} e.

(** What a solver prints: the three lines of a turn, the success line, the
    "No candidates remain" line and the minimax solver's "No progress"
    line. *)
Inductive event :=
| PrintTurn (turn : nat) (guess : Code) (fb : Feedback)
| PrintFound (turn : nat)
| PrintNoCandidates
| PrintNoProgress.

Global Instance exn_eq_dec : EqDecision exn.
Proof. solve_decision. Defined.
Global Instance event_eq_dec : EqDecision event.
Proof. solve_decision. Defined.

(** [itertools.product(colors_list, repeat=pegs)], first position varying
    slowest. *)
Fixpoint product (colors_list : list string) (pegs : nat) : list Code :=
  match pegs with
  | O => [[]]
  | S n => c ← colors_list; (λ code, c :: code) <$> product colors_list n
  end.

(** [t[i]] for a Python integer [i], negative indices counting from the
    end; [None] stands for [IndexError]. *)
Definition py_index {A} (t : list A) (i : Z) : option A :=
  if decide (0 ≤ i) then t !! Z.to_nat i
  else if decide (- len t ≤ i) then t !! Z.to_nat (len t + i)
  else None.

(** ** The process-global random generator

    No solver takes a seed or a generator argument: [random.choice] reads
    and advances the module-level generator in place. Its state is
    modelled by what it holds for the calls still to come: [tape g k] is
    the value served to the [k]-th call of [_randbelow] counted from the
    start of the tape, and [cursor g] is the number of calls served so far.
    A call with bound [n] returns its value brought below [n].

    CPython's [_randbelow(n)] takes [n.bit_length()] bits from the Mersenne
    Twister again and again until the value is below [n]; how many words
    of the twister a call uses up is not modelled. The cursor therefore
    counts calls of [random.choice], not words. The values that the
    successive calls return in a run of the program, taken as a tape, make
    the model repeat that run (a value below [n] is left as it is), so
    that what is proved for every tape holds of every run, and two runs
    whose calls return the same values, call by call, are two runs of the
    model on tapes that agree. *)
Record rng := { tape : nat → nat; cursor : nat }.

Definition randbelow (n : nat) (g : rng) : nat * rng :=
  ((tape g (cursor g) mod n)%nat, {| tape := tape g; cursor := S (cursor g) |}).

(** The generator state once [k] more calls have been served. *)
Definition after_calls (k : nat) (g : rng) : rng :=
  {| tape := tape g; cursor := cursor g + k |}.

(** [random.choice(seq)]: [IndexError] on an empty sequence. *)
Definition random_choice {A} (seq : list A) (g : rng) : py_result A * rng :=
  match seq with
  | [] => (Raise IndexError, g)
  | _ =>
      let '(k, g') := randbelow (length seq) g in
      (match seq !! k with Some x => Ok x | None => Raise IndexError end, g')
  end.

(** ** [constraint.py]: scored inference *)

Module Inference.

Record state := {
  remaining : list Code;
  premises : list (Code * Feedback);
  guess_history : list Code;
  turn : nat;
  gen : rng;
  output : list event;
  (** [Some r] once the function has returned or raised *)
  halted : option (py_result (list Code))
}.

(** The inner loop over [premises] that accumulates [score]. *)
Definition score (premises : list (Code * Feedback)) (candidate : Code) : Z :=
  foldl (λ score '(prev_guess, prev_fb),
           let candidate_fb := get_feedback candidate prev_guess in
           score + (Z.abs (candidate_fb.1 - prev_fb.1)
                    + Z.abs (candidate_fb.2 - prev_fb.2)))
        0 premises.

(** [score < best_score], where [best_score] starts as [float('inf')]
    ([None]). *)
Definition below (score : Z) (best_score : option Z) : Prop :=
  match best_score with
  | None => True
  | Some b => score < b
  end.

Global Instance below_dec score best_score : Decision (below score best_score).
Proof. destruct best_score; simpl; apply _. Defined.

(** The loop [for candidate in remaining] that keeps the best candidate
    seen so far. *)
Fixpoint select_best (premises : list (Code * Feedback)) (candidates : list Code)
    (best_score : option Z) (best_guess : option Code) : option Code :=
  match candidates with
  | [] => best_guess
  | candidate :: rest =>
      let score := score premises candidate in
      if decide (below score best_score)
      then select_best premises rest (Some score) (Some candidate)
      else select_best premises rest best_score best_guess
  end.

Section run.
Variables (secret : Code) (pegs : nat) (colors_list : list string)
          (num_initial_guesses : nat).

Definition init (g : rng) : state :=
  {| remaining := product colors_list pegs; premises := [];
     guess_history := []; turn := 0; gen := g; output := [];
     halted := None |}.

(** The part of a turn that both phases share once the guess is known:
    record it, query the oracle, print, add the premise, filter. Phase 1
    filters by the new premise, phase 2 by all premises. *)
Definition observe (all_premises : bool) (st : state) (g' : rng) (guess : Code)
    : state :=
  let turn' := S (turn st) in
  let fb := get_feedback secret guess in
  let premises' := premises st ++ [(guess, fb)] in
  let remaining' :=
    if all_premises
    then filter (λ code, Forall (λ p, get_feedback code p.1 = p.2) premises')
                (remaining st)
    else filter (λ code, get_feedback code guess = fb) (remaining st) in
  let out := output st ++ [PrintTurn turn' guess fb] in
  let history := guess_history st ++ [guess] in
  if decide (fb = (Z.of_nat pegs, 0)) then
    {| remaining := remaining'; premises := premises';
       guess_history := history; turn := turn'; gen := g';
       output := out ++ [PrintFound turn'];
       halted := Some (Ok history) |}
  else if all_premises && bool_decide (remaining' = []) then
    {| remaining := remaining'; premises := premises';
       guess_history := history; turn := turn'; gen := g';
       output := out ++ [PrintNoCandidates];
       halted := Some (Ok history) |}
  else
    {| remaining := remaining'; premises := premises';
       guess_history := history; turn := turn'; gen := g';
       output := out; halted := None |}.

Definition crash (st : state) (g' : rng) (e : exn) : state :=
  {| remaining := remaining st; premises := premises st;
     guess_history := guess_history st; turn := S (turn st); gen := g';
     output := output st; halted := Some (Raise e) |}.

(** Body of [for _ in range(num_initial_guesses)]. *)
Definition explore_turn (st : state) : state :=
  match random_choice (remaining st) (gen st) with
  | (Ok guess, g') => observe false st g' guess
  | (Raise e, g') => crash st g' e
  end.

(** Body of [while remaining]. *)
Definition infer_turn (st : state) : state :=
  match select_best (premises st) (remaining st) None None with
  | Some best_guess => observe true st (gen st) best_guess
  | None =>
      match random_choice (remaining st) (gen st) with
      | (Ok guess, g') => observe true st g' guess
      | (Raise e, g') => crash st g' e
      end
  end.

(** One turn. [turn] counts the iterations made so far, so the [for]
    loop is still running exactly when [turn < num_initial_guesses];
    after it the [while] loop runs until [remaining] is empty. *)
Definition step (st : state) : state :=
  match halted st with
  | Some _ => st
  | None =>
      if decide (turn st < num_initial_guesses)%nat then explore_turn st
      else match remaining st with
           | [] =>
               {| remaining := remaining st; premises := premises st;
                  guess_history := guess_history st; turn := turn st;
                  gen := gen st; output := output st;
                  halted := Some (Ok (guess_history st)) |}
           | _ => infer_turn st
           end
  end.

(** The state after [n] steps of a run started with generator [g]. *)
Definition run (g : rng) (n : nat) : state := Nat.iter n step (init g).

(** Every turn of phase 1 is one step; phase 2 removes its guess from
    [remaining], so it takes at most one step per code, and one more to
    leave the loop. *)
Definition fuel : nat := num_initial_guesses + length (product colors_list pegs) + 1.

(** What the caller sees: the returned list (or the exception), and what
    was printed; and the generator state left behind. [None] if the run
    were still going after [fuel] steps. *)
Definition logical_inference_solver (g : rng)
    : option (py_result (list Code)) * list event * rng :=
  let st := run g fuel in (halted st, output st, gen st).
End run.
End Inference.

(** ** [logicalinterface.py]: string literals and the clause filter *)

Definition bind_result {A B} (m : py_result A) (k : A → py_result B) : py_result B :=
  match m with
  | Ok a => k a
  | Raise e => Raise e
  end.

Module CNF.

(** *** Python string operations, on the characters of the string *)

(** Characters removed by [str.strip()], among the ASCII ones; the
    whitespace beyond ASCII, which Python strips too, is not modelled. *)
Definition is_space (a : ascii) : bool :=
  let n := nat_of_ascii a in
  ((9 <=? n) && (n <=? 13) || (28 <=? n) && (n <=? 32))%nat.

Definition is_quote (a : ascii) : bool := bool_decide (a = "'"%char).

Fixpoint lstrip (drop : ascii → bool) (s : list ascii) : list ascii :=
  match s with
  | [] => []
  | a :: s' => if drop a then lstrip drop s' else s
  end.

(** [s.strip()] and [s.strip("'")] *)
Definition strip (drop : ascii → bool) (s : list ascii) : list ascii :=
  rev (lstrip drop (rev (lstrip drop s))).

(** [s.split(",")] *)
Fixpoint split_comma (s : list ascii) : list (list ascii) :=
  match s with
  | [] => [[]]
  | a :: s' =>
      if bool_decide (a = ","%char) then [] :: split_comma s'
      else match split_comma s' with
           | piece :: pieces => (a :: piece) :: pieces
           | [] => [[a]]
           end
  end.

Definition digit (a : ascii) : option Z :=
  let n := nat_of_ascii a in
  if ((48 <=? n) && (n <=? 57))%nat then Some (Z.of_nat n - 48) else None.

(** Decimal digits, single underscores allowed between two digits. *)
Fixpoint digits (acc : Z) (after_digit : bool) (s : list ascii) : option Z :=
  match s with
  | [] => if after_digit then Some acc else None
  | a :: s' =>
      if bool_decide (a = "_"%char)
      then (if after_digit then digits acc false s' else None)
      else match digit a with
           | Some d => digits (10 * acc + d) true s'
           | None => None
           end
  end.

(** [int(s)] in base 10 on ASCII text; [None] stands for [ValueError].
    On text of ASCII characters with at most 4300 digits this is Python's
    [int]. Python reads the other Unicode decimal digits as well, and
    refuses more than 4300 digits ([sys.int_max_str_digits]); neither is
    modelled, see [ascii_text]. *)
Definition py_int (s : list ascii) : option Z :=
  match strip is_space s with
  | "-"%char :: s' => Z.opp <$> digits 0 false s'
  | "+"%char :: s' => digits 0 false s'
  | s' => digits 0 false s'
  end.

(** The body of either [try] block: slice [s[len("Color("):-1]], split at
    the comma into exactly two pieces, read the position and the colour.
    [None] when any of it raises, which the bare [except] catches. *)
Definition parse_atom (s : string) : option (Z * string) :=
  let chars := list_ascii_of_string s in
  let inside := drop 6 (take (length chars - 1) chars) in
  match split_comma inside with
  | [i_str; col_str] =>
      i ← py_int (strip is_space i_str);
      Some (i, string_of_list_ascii (strip is_quote (strip is_space col_str)))
  | _ => None
  end.

(** [literal.startswith("~")], together with [literal[1:]] when it
    holds. *)
Definition after_tilde (literal : string) : option string :=
  match literal with
  | String "~" pos_literal => Some pos_literal
  | _ => None
  end.

(** One round of [for literal in clause]: [Ok None] when the literal was
    skipped by [continue], [Ok (Some b)] when it was evaluated to [b];
    [code[i-1]] sits outside the [try], so its [IndexError] escapes. *)
Definition eval_literal (code : Code) (literal : string) : py_result (option bool) :=
  match after_tilde literal with
  | Some pos_literal =>
      match parse_atom pos_literal with
      | None => Ok None
      | Some (i, c) =>
          match py_index code (i - 1) with
          | Some x => Ok (Some (bool_decide (x ≠ c)))
          | None => Raise IndexError
          end
      end
  | None =>
      match parse_atom literal with
      | None => Ok None
      | Some (i, c) =>
          match py_index code (i - 1) with
          | Some x => Ok (Some (bool_decide (x = c)))
          | None => Raise IndexError
          end
      end
  end.

(** The literals on which neither [try] block raises. *)
Definition parses (literal : string) : Prop :=
  match after_tilde literal with
  | Some pos_literal => is_Some (parse_atom pos_literal)
  | None => is_Some (parse_atom literal)
  end.

Global Instance parses_dec literal : Decision (parses literal).
Proof. unfold parses. destruct (after_tilde literal); apply _. Defined.

(** A clause is a Python set of literal strings; the list is the order in
    which the set hands them out. *)
Abbreviation clause := (list string).

(** [clause_sat] after the inner loop. *)
Fixpoint clause_satisfied (code : Code) (c : clause) : py_result bool :=
  match c with
  | [] => Ok false
  | literal :: rest =>
      bind_result (eval_literal code literal) (λ r,
        match r with
        | Some true => Ok true
        | _ => clause_satisfied code rest
        end)
  end.

Fixpoint code_satisfies_cnf (code : Code) (cnf : list clause) : py_result bool :=
  match cnf with
  | [] => Ok true
  | c :: rest =>
      bind_result (clause_satisfied code c) (λ clause_sat,
        if clause_sat then code_satisfies_cnf code rest else Ok false)
  end.

(** [str(n)] *)
Definition str_of_nat (n : nat) : string := NilEmpty.string_of_uint (Nat.to_uint n).

(** The f-string [f"~Color({i+1}, '{guess[i]}')"] *)
Definition negative_literal (i : nat) (c : string) : string :=
  ("~Color(" ++ str_of_nat (i + 1) ++ ", '" ++ c ++ "')")%string.

(** The loop [for i in range(PEGS)] of [derive_simple_cnf_constraints]. *)
Fixpoint position_clauses (guess : Code) (positions : list nat)
    : py_result (list clause) :=
  match positions with
  | [] => Ok []
  | i :: rest =>
      match guess !! i with
      | Some c =>
          bind_result (position_clauses guess rest) (λ clauses,
            Ok ([negative_literal i c] :: clauses))
      | None => Raise IndexError
      end
  end.

Definition derive_simple_cnf_constraints (guess : Code) (fb : Feedback)
    : py_result (list clause) :=
  let '(black, white) := fb in
  if decide (black = 0) then position_clauses guess (seq 0 PEGS) else Ok [].

(** [[code for code in remaining if code_satisfies_cnf(code, cnf)]] *)
Fixpoint filter_cnf (cnf : list clause) (codes : list Code) : py_result (list Code) :=
  match codes with
  | [] => Ok []
  | code :: rest =>
      bind_result (code_satisfies_cnf code cnf) (λ keep,
        bind_result (filter_cnf cnf rest) (λ rest',
          Ok (if keep then code :: rest' else rest')))
  end.

(** *** The solver *)

Record state := {
  remaining : list Code;
  premises : list (Code * Feedback);
  cnf_premises : list clause;
  guess_history : list Code;
  turn : nat;
  gen : rng;
  output : list event;
  halted : option (py_result (list Code))
}.

Section run.
Variables (secret : Code) (num_initial_guesses : nat).

Definition init (g : rng) : state :=
  {| remaining := product COLORS PEGS; premises := []; cnf_premises := [];
     guess_history := []; turn := 0; gen := g; output := [];
     halted := None |}.

Definition finish (st : state) (out : list event) (r : py_result (list Code))
    : state :=
  {| remaining := remaining st; premises := premises st;
     cnf_premises := cnf_premises st; guess_history := guess_history st;
     turn := turn st; gen := gen st; output := output st ++ out;
     halted := Some r |}.

(** A turn of either loop from [turn += 1] on; [last_phase] tells
    whether the closing [if not remaining] of phase 2 is present. *)
Definition play (last_phase : bool) (st : state) : state :=
  let turn' := S (turn st) in
  match random_choice (remaining st) (gen st) with
  | (Raise e, g') =>
      {| remaining := remaining st; premises := premises st;
         cnf_premises := cnf_premises st; guess_history := guess_history st;
         turn := turn'; gen := g'; output := output st;
         halted := Some (Raise e) |}
  | (Ok guess, g') =>
      let history := guess_history st ++ [guess] in
      let fb := get_feedback secret guess in
      let out := output st ++ [PrintTurn turn' guess fb] in
      if decide (fb = (Z.of_nat PEGS, 0)) then
        {| remaining := remaining st; premises := premises st;
           cnf_premises := cnf_premises st; guess_history := history;
           turn := turn'; gen := g'; output := out ++ [PrintFound turn'];
           halted := Some (Ok history) |}
      else
        let premises' := premises st ++ [(guess, fb)] in
        match derive_simple_cnf_constraints guess fb with
        | Raise e =>
            {| remaining := remaining st; premises := premises';
               cnf_premises := cnf_premises st; guess_history := history;
               turn := turn'; gen := g'; output := out;
               halted := Some (Raise e) |}
        | Ok new_clauses =>
            let cnf' := cnf_premises st ++ new_clauses in
            let by_premises :=
              filter (λ code, Forall (λ p, get_feedback code p.1 = p.2) premises')
                     (remaining st) in
            match filter_cnf cnf' by_premises with
            | Raise e =>
                {| remaining := by_premises; premises := premises';
                   cnf_premises := cnf'; guess_history := history;
                   turn := turn'; gen := g'; output := out;
                   halted := Some (Raise e) |}
            | Ok remaining' =>
                if last_phase && bool_decide (remaining' = []) then
                  {| remaining := remaining'; premises := premises';
                     cnf_premises := cnf'; guess_history := history;
                     turn := turn'; gen := g';
                     output := out ++ [PrintNoCandidates];
                     halted := Some (Ok history) |}
                else
                  {| remaining := remaining'; premises := premises';
                     cnf_premises := cnf'; guess_history := history;
                     turn := turn'; gen := g'; output := out;
                     halted := None |}
            end
        end
  end.

(** One turn; as in [Inference.step], the [for] loop is running exactly
    when [turn < num_initial_guesses]. Its body starts with the
    [if not remaining] exit. *)
Definition step (st : state) : state :=
  match halted st with
  | Some _ => st
  | None =>
      if decide (turn st < num_initial_guesses)%nat then
        match remaining st with
        | [] => finish st [PrintNoCandidates] (Ok (guess_history st))
        | _ => play false st
        end
      else
        match remaining st with
        | [] => finish st [] (Ok (guess_history st))
        | _ => play true st
        end
  end.

Definition run (g : rng) (n : nat) : state := Nat.iter n step (init g).

Definition fuel : nat := length (product COLORS PEGS) + 1.

Definition logical_inference_solver_CNF (g : rng)
    : option (py_result (list Code)) * list event * rng :=
  let st := run g fuel in (halted st, output st, gen st).
End run.
End CNF.

(** The literals on which the string operations above are Python's own:
    ASCII characters only, and short enough for [int] to accept whatever
    digits there are. *)
Definition ascii_text (literal : string) : Prop :=
  Forall (λ a, (nat_of_ascii a < 128)%nat) (list_ascii_of_string literal) ∧
  (String.length literal ≤ 4300)%nat.

(** ** [maxmin.py]: minimax selection *)

Module Minimax.

(** The dictionary [partition_sizes] after the loop over [remaining]:
    [partition_sizes[fb] = partition_sizes.get(fb, 0) + 1]. *)
Definition partition_sizes (remaining : list Code) (guess : Code) : gmap (Z * Z) Z :=
  foldl (λ (sizes : gmap (Z * Z) Z) possible_secret,
           let fb := get_feedback possible_secret guess in
           <[fb := default 0 (sizes !! fb) + 1]> sizes)
        ∅ remaining.

(** [max(values)]: [ValueError] on an empty sequence. *)
Definition py_max (values : list Z) : py_result Z :=
  match values with
  | [] => Raise ValueError
  | v :: vs => Ok (foldl Z.max v vs)
  end.

Definition worst_partition (remaining : list Code) (guess : Code) : py_result Z :=
  py_max ((map_to_list (partition_sizes remaining guess)).*2).

(** [worst_partition < best_score] with [best_score] initially
    [float('inf')] ([None]). *)
Definition below (worst : Z) (best_score : option Z) : Prop :=
  match best_score with
  | None => True
  | Some b => worst < b
  end.

Global Instance below_dec worst best_score : Decision (below worst best_score).
Proof. destruct best_score; simpl; apply _. Defined.

(** First pass over [all_codes]. *)
Fixpoint first_pass (remaining codes : list Code)
    (best_score : option Z) (best_guess : option Code)
    : py_result (option Z * option Code) :=
  match codes with
  | [] => Ok (best_score, best_guess)
  | guess :: rest =>
      bind_result (worst_partition remaining guess) (λ worst,
        if decide (below worst best_score)
        then first_pass remaining rest (Some worst) (Some guess)
        else first_pass remaining rest best_score best_guess)
  end.

(** Second pass, leaving at the first guess of [all_codes] that reaches
    [best_score] and is in [remaining]. *)
Fixpoint second_pass (remaining codes : list Code)
    (best_score : option Z) (best_guess : option Code)
    : py_result (option Code) :=
  match codes with
  | [] => Ok best_guess
  | guess :: rest =>
      bind_result (worst_partition remaining guess) (λ worst,
        if decide (Some worst = best_score ∧ guess ∈ remaining)
        then Ok (Some guess)
        else second_pass remaining rest best_score best_guess)
  end.

(** The result is Python's [None] when [all_codes] is empty. *)
Definition minimax_guess (remaining all_codes : list Code)
    : py_result (option Code) :=
  bind_result (first_pass remaining all_codes None None) (λ '(best_score, best_guess),
    second_pass remaining all_codes best_score best_guess).

(** *** Worst-case partition size as the specification words it: the
    size of the largest group of [remaining] when grouped by the feedback
    each member gives against [guess]. *)
Definition group_size (remaining : list Code) (guess : Code) (fb : Feedback) : Z :=
  len (filter (λ code, get_feedback code guess = fb) remaining).

Definition largest_group (remaining : list Code) (guess : Code) : Z :=
  foldr Z.max 0
    ((λ code, group_size remaining guess (get_feedback code guess)) <$> remaining).

(** *** The solver *)

Definition initial_guess : Code := ["red"; "red"; "yellow"; "green"; "blue"]%string.

(** [list.remove(x)]: drops the first occurrence. *)
Fixpoint remove_first (x : Code) (l : list Code) : list Code :=
  match l with
  | [] => []
  | y :: l' => if decide (y = x) then l' else y :: remove_first x l'
  end.

Record state := {
  remaining : list Code;
  guess_history : list Code;
  turn : nat;
  output : list event;
  halted : option (py_result (list Code))
}.

Section run.
Variables (secret : Code) (pegs : nat) (colors_list : list string).

Definition all_codes : list Code := product colors_list pegs.

(** Before the loop, [guess] is set to [initial_guess] if it is in
    [all_codes] and to [all_codes[0]] otherwise; the latter raises
    [IndexError] when [all_codes] is empty. The value itself is never
    read: the loop assigns [guess] afresh on every turn. *)
Definition init : state :=
  {| remaining := all_codes; guess_history := []; turn := 0; output := [];
     halted :=
       if decide (initial_guess ∈ all_codes) then None
       else match all_codes with
            | [] => Some (Raise IndexError)
            | _ => None
            end |}.

Definition finish (st : state) (history : list Code) (turn' : nat)
    (out : list event) (r : py_result (list Code)) : state :=
  {| remaining := remaining st; guess_history := history; turn := turn';
     output := output st ++ out; halted := Some r |}.

(** The guess of turn [turn']. A [None] from [minimax_guess] would make
    [get_feedback] raise [TypeError] when it zips it. *)
Definition choose (st : state) (turn' : nat) : py_result Code :=
  if decide (turn' = 1%nat) then Ok initial_guess
  else bind_result (minimax_guess (remaining st) all_codes) (λ guess,
         match guess with
         | Some g => Ok g
         | None => Raise TypeError
         end).

(** Body of [while remaining]. *)
Definition play (st : state) : state :=
  let turn' := S (turn st) in
  match choose st turn' with
  | Raise e => finish st (guess_history st) turn' [] (Raise e)
  | Ok guess =>
      let history := guess_history st ++ [guess] in
      let feedback := get_feedback secret guess in
      let shown := PrintTurn turn' guess feedback in
      if decide (feedback = (Z.of_nat pegs, 0)) then
        finish st history turn' [shown; PrintFound turn'] (Ok history)
      else
        let new_remaining :=
          filter (λ code, get_feedback code guess = feedback) (remaining st) in
        let stalled := bool_decide (length new_remaining = length (remaining st)) in
        let remaining' :=
          if stalled
          then (if decide (guess ∈ remaining st)
                then remove_first guess (remaining st) else remaining st)
          else new_remaining in
        let out := output st ++ shown :: (if stalled then [PrintNoProgress] else []) in
        if bool_decide (remaining' = []) then
          {| remaining := remaining'; guess_history := history; turn := turn';
             output := out ++ [PrintNoCandidates]; halted := Some (Ok history) |}
        else
          {| remaining := remaining'; guess_history := history; turn := turn';
             output := out; halted := None |}
  end.

Definition step (st : state) : state :=
  match halted st with
  | Some _ => st
  | None =>
      match remaining st with
      | [] => finish st (guess_history st) (turn st) [] (Ok (guess_history st))
      | _ => play st
      end
  end.

Definition run (n : nat) : state := Nat.iter n step init.

(** From turn 2 on every turn shrinks [remaining]; turn 1 may not. *)
Definition fuel : nat := length all_codes + 2.

Definition mastermind_minimax_solver : option (py_result (list Code)) * list event :=
  let st := run fuel in (halted st, output st).
End run.
End Minimax.

(** ** The score as the specification words it *)

(** Sum over the premises [(g, f)] of
    [|get_feedback(c, g).black - f.black| + |get_feedback(c, g).white - f.white|]. *)
Definition score_sum (premises : list (Code * Feedback)) (c : Code) : Z :=
  py_sum ((λ p, Z.abs ((get_feedback c p.1).1 - p.2.1)
                + Z.abs ((get_feedback c p.1).2 - p.2.2)) <$> premises).

(** ** Concrete inputs for the examples *)

(** A state of the scored phase after the guess [(a, a)] scored one black. *)
Definition scored_state : Inference.state :=
  {| Inference.remaining := [["a"; "b"]; ["b"; "a"]; ["b"; "b"]];
     Inference.premises := [(["a"; "a"], (1, 0))];
     Inference.guess_history := [["a"; "a"]];
     Inference.turn := 1;
     Inference.gen := {| tape := λ _, 0%nat; cursor := 0 |};
     Inference.output := [PrintTurn 1 ["a"; "a"] (1, 0)];
     Inference.halted := None |}.


(** ** Invariants of the runs *)

(** What holds of every state of a run of [logical_inference_solver] on a
    secret of the code space, [N] being the size of that space: the secret
    is still a candidate, every premise is true of it, nothing was printed
    about running out of candidates, and the function has either not
    returned, with [turn + len(remaining) <= N], or returned a history that
    ends with the secret. *)
Definition inference_inv (secret : Code) (pegs N : nat) (st : Inference.state) : Prop :=
  secret ∈ Inference.remaining st ∧
  (∀ c, c ∈ Inference.remaining st → length c = pegs) ∧
  Forall (λ p, get_feedback secret p.1 = p.2) (Inference.premises st) ∧
  (PrintNoCandidates ∉ Inference.output st) ∧
  length (Inference.guess_history st) = Inference.turn st ∧
  match Inference.halted st with
  | None => (Inference.turn st + length (Inference.remaining st) ≤ N)%nat
  | Some r =>
      r = Ok (Inference.guess_history st) ∧
      last (Inference.guess_history st) = Some secret ∧
      last (Inference.premises st) = Some (secret, (Z.of_nat pegs, 0)) ∧
      last (Inference.output st) = Some (PrintFound (Inference.turn st)) ∧
      (Inference.turn st ≤ N)%nat
  end.

(** A clause of the shape [derive_simple_cnf_constraints] emits, which the
    secret satisfies: the single literal "position [i + 1] is not [col]",
    where the secret carries another colour at index [i]. *)
Definition derived_clause (secret : Code) (c : CNF.clause) : Prop :=
  ∃ i col, c = [CNF.negative_literal i col] ∧ (i < PEGS)%nat ∧
           col ∈ COLORS ∧ secret !! i ≠ Some col.

Definition cnf_inv (secret : Code) (st : CNF.state) : Prop :=
  secret ∈ CNF.remaining st ∧
  (∀ c, c ∈ CNF.remaining st → c ∈ product COLORS PEGS) ∧
  Forall (λ p, get_feedback secret p.1 = p.2) (CNF.premises st) ∧
  Forall (derived_clause secret) (CNF.cnf_premises st) ∧
  (PrintNoCandidates ∉ CNF.output st) ∧
  (∀ e, CNF.halted st ≠ Some (Raise e)).

Definition minimax_inv (secret : Code) (pegs : nat) (colors_list : list string)
    (st : Minimax.state) : Prop :=
  secret ∈ Minimax.remaining st ∧
  Minimax.remaining st ⊆ Minimax.all_codes pegs colors_list ∧
  (PrintNoCandidates ∉ Minimax.output st) ∧
  (∀ e, Minimax.halted st ≠ Some (Raise e)).

(** A generator state for the examples: it serves 1, then 0 forever. *)
Definition one_then_zero : rng :=
  {| tape := λ i, match i with O => 1%nat | S _ => 0%nat end; cursor := 0 |}.

(** What the caller can rely on about the history at any point of a run:
    unless the run has raised, the history has one entry per turn, and a
    returned value is that history. *)
Definition history_ok (guess_history : list Code) (turn : nat)
    (halted : option (py_result (list Code))) : Prop :=
  match halted with
  | Some (Raise _) => True
  | Some (Ok returned) => returned = guess_history ∧ length returned = turn
  | None => length guess_history = turn
  end.

(** ** Runs compared by what [random.choice] returns to them *)

(** The next [m] calls of [random.choice] are served the same values by
    the two generator states, so that they pick alike from equal lists. *)
Definition same_picks (m : nat) (g1 g2 : rng) : Prop :=
  ∀ i, (i < m)%nat → tape g1 (cursor g1 + i) = tape g2 (cursor g2 + i).

(** Everything in a solver state but the generator. *)
Definition inference_view (st : Inference.state) :=
  (Inference.remaining st, Inference.premises st, Inference.guess_history st,
   Inference.turn st, Inference.output st, Inference.halted st).

Definition cnf_view (st : CNF.state) :=
  (CNF.remaining st, CNF.premises st, CNF.cnf_premises st, CNF.guess_history st,
   CNF.turn st, CNF.output st, CNF.halted st).

(** The generator of [one_then_zero] seen three calls further down a tape
    that starts with three other values. *)
Definition shifted_one_then_zero : rng :=
  {| tape := λ i, tape one_then_zero (i - 3); cursor := 3 |}.

(** What holds of every state of a run of [mastermind_minimax_solver] when
    both the secret and the fixed opening guess are codes of the code
    space, [N] being its size. *)
Definition minimax_solving_inv (secret : Code) (pegs : nat) (colors_list : list string)
    (N : nat) (st : Minimax.state) : Prop :=
  secret ∈ Minimax.remaining st ∧
  Minimax.remaining st ⊆ Minimax.all_codes pegs colors_list ∧
  (Minimax.turn st = 0%nat → Minimax.remaining st = Minimax.all_codes pegs colors_list) ∧
  length (Minimax.guess_history st) = Minimax.turn st ∧
  match Minimax.halted st with
  | None => (Minimax.turn st + length (Minimax.remaining st) ≤ N)%nat
  | Some r =>
      r = Ok (Minimax.guess_history st) ∧
      last (Minimax.guess_history st) = Some secret ∧
      last (Minimax.output st) = Some (PrintFound (Minimax.turn st)) ∧
      (Minimax.turn st ≤ N)%nat
  end.

(** ** Further invariants *)

(** What holds of every state of a run of [logical_inference_solver],
    whatever the secret: the premises are the guesses made with the
    feedback the secret gives them, the candidates are the codes of the
    code space that agree with every premise, no guess was made twice, and
    while the run goes on no past guess is a candidate. *)
Definition inference_trace_inv (secret : Code) (pegs : nat) (colors_list : list string)
    (st : Inference.state) : Prop :=
  Inference.premises st
    = (λ g, (g, get_feedback secret g)) <$> Inference.guess_history st ∧
  Inference.remaining st
    = filter (λ code, Forall (λ p, get_feedback code p.1 = p.2) (Inference.premises st))
        (product colors_list pegs) ∧
  NoDup (Inference.guess_history st) ∧
  (Inference.halted st = None →
   ∀ h, h ∈ Inference.guess_history st → h ∉ Inference.remaining st).

(** A clause written for a premise with no black peg: the single literal
    "position [i + 1] is not the colour the guess has there". *)
Definition clause_of_premise (p : Code * Feedback) (c : CNF.clause) : Prop :=
  ∃ i col, p.2.1 = 0 ∧ (i < PEGS)%nat ∧ p.1 !! i = Some col ∧
           c = [CNF.negative_literal i col].

(** What holds of every state of a run of [logical_inference_solver_CNF],
    whatever the secret. *)
Definition cnf_trace_inv (st : CNF.state) : Prop :=
  CNF.remaining st
    = filter (λ code, Forall (λ p, get_feedback code p.1 = p.2) (CNF.premises st))
        (product COLORS PEGS) ∧
  Forall (λ p, p.1 ∈ product COLORS PEGS) (CNF.premises st) ∧
  Forall (λ c, ∃ p, p ∈ CNF.premises st ∧ clause_of_premise p c) (CNF.cnf_premises st) ∧
  (∀ e, CNF.halted st ≠ Some (Raise e)).

(** What holds of every state of a run of [logical_inference_solver_CNF]
    on a secret of the code space, [N] being the size of that space. *)
Definition cnf_solving_inv (secret : Code) (N : nat) (st : CNF.state) : Prop :=
  length (CNF.guess_history st) = CNF.turn st ∧
  match CNF.halted st with
  | None => (CNF.turn st + length (CNF.remaining st) ≤ N)%nat
  | Some r =>
      r = Ok (CNF.guess_history st) ∧
      last (CNF.guess_history st) = Some secret ∧
      last (CNF.output st) = Some (PrintFound (CNF.turn st)) ∧
      (CNF.turn st ≤ N)%nat
  end.

(** ** [depthsirch.py]: the colour tree and its depth-first search *)

Module DFS.

(** The global [colors] of [depthsirch.py]. *)
Definition colors : list string :=
  ["red"; "yellow"; "green"; "blue"; "pink"; "brown"]%string.

(** [class Node]: a colour, [None] at the root, and the list of children.
    [build_tree_bottom_up] hands the same list object to every node of a
    level; nothing writes to a children list after the tree is built, so
    the sharing is not observable and a node is modelled as a value. *)
#[warnings="-register-all"]
Inductive Node := mkNode (color : option string) (children : list Node).

Definition color (node : Node) : option string :=
  match node with mkNode c _ => c end.
Definition children (node : Node) : list Node :=
  match node with mkNode _ ch => ch end.

(** [[Node(color) with children = below for color in colors]] *)
Definition level (colors : list string) (below : list Node) : list Node :=
  (λ c, mkNode (Some c) below) <$> colors.

(** [build_tree_bottom_up(max_level)], [colors] being the global list;
    [range(max_level - 1)] is empty for [max_level] 1 and 0. *)
Definition build_tree_bottom_up (colors : list string) (max_level : nat) : Node :=
  mkNode None (Nat.iter (max_level - 1) (level colors) (level colors [])).

(** The two outcomes printed at the bottom of the tree. *)
Inductive dfs_event :=
| PrintMatch (path : list string)
| PrintNoMatch (path : list string) (fb : Feedback).

(** [if node.color:] holds for a non-empty string. *)
Definition truthy (c : string) : bool := negb (bool_decide (c = EmptyString)).

(** The state of the path after [if node.color: path.append(node.color)]. *)
Definition extend (path : list string) (c : option string) : list string :=
  match c with
  | Some s => if truthy s then path ++ [s] else path
  | None => path
  end.

(** At [level == max_level]: count the attempt, compare, print. *)
Definition attempt (path target_sequence : list string) (attemp : nat)
    : bool * nat * list dfs_event :=
  if decide (path = target_sequence)
  then (true, S attemp, [PrintMatch path])
  else (false, S attemp, [PrintNoMatch path (get_feedback target_sequence path)]).

(** [dfs_check_sequence(node, path, target_sequence, level, max_level)].
    The global counter [attemp] goes in and comes out; the result is the
    returned boolean, the counter and the lines printed. Every child is
    called on [path.copy()], so the caller's path is what it was. *)
Fixpoint dfs_check_sequence (node : Node) (path target_sequence : list string)
    (level max_level : nat) (attemp : nat) {struct node}
    : bool * nat * list dfs_event :=
  match node with
  | mkNode c node_children =>
      let path := extend path c in
      if decide (level = max_level) then attempt path target_sequence attemp
      else
        (fix loop (rest : list Node) (attemp : nat) : bool * nat * list dfs_event :=
           match rest with
           | [] => (false, attemp, [])
           | child :: rest' =>
               let '(found, attemp', out) :=
                 dfs_check_sequence child path target_sequence (S level) max_level
                   attemp in
               if found then (true, attemp', out)
               else let '(found', attemp'', out') := loop rest' attemp' in
                    (found', attemp'', out ++ out')
           end) node_children attemp
  end.

(** The loop [for child in node.children] on its own. *)
Fixpoint dfs_children (rest : list Node) (path target_sequence : list string)
    (level max_level : nat) (attemp : nat) : bool * nat * list dfs_event :=
  match rest with
  | [] => (false, attemp, [])
  | child :: rest' =>
      let '(found, attemp', out) :=
        dfs_check_sequence child path target_sequence (S level) max_level attemp in
      if found then (true, attemp', out)
      else let '(found', attemp'', out') :=
             dfs_children rest' path target_sequence level max_level attemp' in
           (found', attemp'', out ++ out')
  end.

(** *** Trying the codes of a list one after the other, stopping at the
    target: what the search is compared with. *)
Fixpoint scan (codes : list Code) (target_sequence : list string) (attemp : nat)
    : bool * nat * list dfs_event :=
  match codes with
  | [] => (false, attemp, [])
  | path :: rest =>
      let '(found, attemp', out) := attempt path target_sequence attemp in
      if found then (true, attemp', out)
      else let '(found', attemp'', out') := scan rest target_sequence attemp' in
           (found', attemp'', out ++ out')
  end.
End DFS.

(** ** The [__main__] blocks: checking the entered sequence *)

(** The two exceptions the [try] block raises and catches; the message is
    printed and the script exits. *)
Inductive input_error :=
| InvalidColors (invalid_colors : list string)
| WrongLength (entered : nat).

(** The [try] block of the four scripts, from the split input on, as to
    which exception it raises: first the colours that are not in [COLORS],
    then the number of colours. [depthsirch.py] checks against a list and a
    number of its own, see [dfs_check_input]. *)
Definition check_input (user_sequence : list string) : option input_error :=
  let invalid_colors := filter (λ c, c ∉ COLORS) user_sequence in
  match invalid_colors with
  | _ :: _ => Some (InvalidColors invalid_colors)
  | [] =>
      if decide (length user_sequence ≠ PEGS)
      then Some (WrongLength (length user_sequence))
      else None
  end.

(** [sep.join(items)] *)
Fixpoint join (sep : string) (items : list string) : string :=
  match items with
  | [] => EmptyString
  | [item] => item
  | item :: rest => (item ++ sep ++ join sep rest)%string
  end.

(** The message of the exception, as the f-strings of [constraint.py],
    [logicalinterface.py] and [maxmin.py] write it: the [except] clause
    prints it and the script exits. *)
Definition report (e : input_error) : string :=
  match e with
  | InvalidColors invalid_colors =>
      ("❌ Hatalı renkler bulundu: " ++ join ", " invalid_colors)%string
  | WrongLength entered =>
      ("Toplam renk sayısı " ++ CNF.str_of_nat PEGS
       ++ " olmalıdır, girilen sayı: " ++ CNF.str_of_nat entered)%string
  end.

(** The [try] block of [depthsirch.py], which checks against its own
    [colors] and the number 5, and words the second message in its own
    way: the line printed before the script exits, if any. *)
Definition dfs_check_input (user_sequence : list string) : option string :=
  let invalid_colors := filter (λ color, color ∉ DFS.colors) user_sequence in
  match invalid_colors with
  | _ :: _ => Some ("❌ Hatalı renkler bulundu: " ++ join ", " invalid_colors)%string
  | [] =>
      if decide (length user_sequence ≠ 5%nat)
      then Some ("Toplam renk sayısı 5 olmalıdır, sizin girdiniz: "
                 ++ CNF.str_of_nat (length user_sequence))%string
      else None
  end.

(** What a script does after reading the sequence: on a bad input it
    prints the message and exits, else it runs its solver on
    [tuple(user_sequence)]. *)
Inductive script_run (A : Type) :=
| Exited (printed : string)
| Ran (result : A).
Arguments Exited {A} printed.
Arguments Ran {A} result.

(** [constraint.py] *)
Definition main_inference (user_sequence : list string) (g : rng) :=
  match check_input user_sequence with
  | Some e => Exited (report e)
  | None => Ran (Inference.logical_inference_solver user_sequence PEGS COLORS 3 g)
  end.

(** [logicalinterface.py] *)
Definition main_cnf (user_sequence : list string) (g : rng) :=
  match check_input user_sequence with
  | Some e => Exited (report e)
  | None => Ran (CNF.logical_inference_solver_CNF user_sequence 3 g)
  end.

(** [maxmin.py] *)
Definition main_minimax (user_sequence : list string) :=
  match check_input user_sequence with
  | Some e => Exited (report e)
  | None => Ran (Minimax.mastermind_minimax_solver user_sequence PEGS COLORS)
  end.

(** [depthsirch.py]: the tree is built before the input is read; the search
    starts from the root with an empty path and the counter at 0. *)
Definition main_dfs (user_sequence : list string) :=
  let tree_root := DFS.build_tree_bottom_up DFS.colors 5 in
  match dfs_check_input user_sequence with
  | Some printed => Exited printed
  | None => Ran (DFS.dfs_check_sequence tree_root [] user_sequence 0 5 0)
  end.
(** ** Sums and counts *)

Ltac sum_cons := rewrite ?fmap_cons; cbn [py_sum].

Section sums.
Context {A : Type}.
Implicit Types (f g : A → Z) (l : list A).

Lemma py_sum_app (l1 l2 : list Z) : py_sum (l1 ++ l2) = py_sum l1 + py_sum l2.
Proof. induction l1 as [|x l1 IH]; simpl; lia. Qed.

Lemma py_sum_perm (l1 l2 : list Z) : l1 ≡ₚ l2 → py_sum l1 = py_sum l2.
Proof. induction 1; simpl; lia. Qed.

Lemma py_sum_ones l : py_sum ((λ _, 1) <$> l) = len l.
Proof.
  unfold len. induction l as [|x l IH]; [done|].
  sum_cons. cbn [length]. lia.
Qed.

Lemma py_sum_zeros l : py_sum ((λ _, 0) <$> l) = 0.
Proof. induction l as [|x l IH]; [done|]. sum_cons. lia. Qed.

Lemma py_sum_le f g l :
  (∀ x, x ∈ l → f x ≤ g x) → py_sum (f <$> l) ≤ py_sum (g <$> l).
Proof.
  induction l as [|x l IH]; intros H; [done|]. sum_cons.
  pose proof (H x ltac:(left)).
  assert (py_sum (f <$> l) ≤ py_sum (g <$> l)) by (apply IH; intros; apply H; by right).
  lia.
Qed.

Lemma py_sum_ext f g l :
  (∀ x, x ∈ l → f x = g x) → py_sum (f <$> l) = py_sum (g <$> l).
Proof.
  intros H. apply Z.le_antisymm; apply py_sum_le; intros x Hx; rewrite (H x Hx); lia.
Qed.

Lemma py_sum_plus f g l :
  py_sum ((λ x, f x + g x) <$> l) = py_sum (f <$> l) + py_sum (g <$> l).
Proof. induction l as [|x l IH]; [done|]. sum_cons. lia. Qed.

Lemma py_sum_nonneg f l : (∀ x, x ∈ l → 0 ≤ f x) → 0 ≤ py_sum (f <$> l).
Proof.
  intros H. rewrite <- (py_sum_zeros l). by apply py_sum_le.
Qed.

(** Entries on which [f] vanishes do not contribute to a sum. *)
Lemma py_sum_filter f (P : A → Prop) `{∀ x, Decision (P x)} l :
  (∀ x, x ∈ l → ¬ P x → f x = 0) →
  py_sum (f <$> l) = py_sum (f <$> filter P l).
Proof.
  induction l as [|x l IH]; intros Hz; [done|].
  rewrite filter_cons.
  assert (IH' : py_sum (f <$> l) = py_sum (f <$> filter P l))
    by (apply IH; intros; apply Hz; [by right|done]).
  destruct (decide (P x)) as [HP|HP]; sum_cons; [lia|].
  rewrite (Hz x); [lia|by left|done].
Qed.
End sums.

Lemma count_nonneg (l : Code) c : 0 ≤ count l c.
Proof. induction l as [|x l IH]; simpl; [lia|]. destruct (decide (x = c)); lia. Qed.

Lemma count_not_in (l : Code) c : c ∉ l → count l c = 0.
Proof.
  induction l as [|x l IH]; intros Hc; simpl; [done|].
  rewrite not_elem_of_cons in Hc. destruct Hc as [Hne Hc].
  rewrite decide_False by congruence. rewrite IH by done. lia.
Qed.

(** In a duplicate-free list a colour is hit exactly once. *)
Lemma py_sum_indicator (syms : list string) (x : string) :
  NoDup syms → x ∈ syms →
  py_sum ((λ c, if decide (x = c) then 1 else 0) <$> syms) = 1.
Proof.
  induction 1 as [|y syms Hy Hnd IH]; intros Hx; [by destruct (not_elem_of_nil x)|].
  sum_cons. destruct (decide (x = y)) as [->|Hne].
  - rewrite (py_sum_ext _ (λ _, 0)).
    + rewrite py_sum_zeros. lia.
    + intros c Hc. rewrite decide_False; [done|]. intros Heq. apply Hy. by rewrite Heq.
  - rewrite IH; [lia|]. apply elem_of_cons in Hx. destruct Hx; [congruence|done].
Qed.

Lemma py_sum_count (syms : list string) (l : Code) :
  NoDup syms → (∀ c, c ∈ l → c ∈ syms) →
  py_sum (count l <$> syms) = len l.
Proof.
  intros Hnd. unfold len. induction l as [|x l IH]; intros Hin.
  - change (count []) with (λ _ : string, 0). by rewrite py_sum_zeros.
  - cbn [count]. rewrite py_sum_plus, py_sum_indicator, IH; cbn [length]; try done.
    + lia.
    + intros c Hc. apply Hin. by right.
    + apply Hin. by left.
Qed.

(** The sum over [set(guess)] is the sum over any duplicate-free list of
    colours that covers the guess. *)
Lemma colour_overlap_syms (syms : list string) (secret guess : Code) :
  NoDup syms → (∀ c, c ∈ guess → c ∈ syms) →
  colour_overlap secret guess = multiset_overlap syms secret guess.
Proof.
  intros Hnd Hin. unfold colour_overlap, multiset_overlap, py_set.
  rewrite (py_sum_filter _ (λ c, c ∈ guess) syms).
  - apply py_sum_perm, fmap_Permutation, NoDup_Permutation.
    + apply NoDup_remove_dups.
    + by apply NoDup_filter.
    + intros c. rewrite elem_of_remove_dups, list_elem_of_filter. split; [auto|tauto].
  - intros c _ Hc. rewrite (count_not_in guess c Hc).
    pose proof (count_nonneg secret c). lia.
Qed.

(** ** Properties of the feedback *)

Lemma black_pegs_nil_l guess : black_pegs [] guess = 0.
Proof. done. Qed.

Lemma black_pegs_cons x y secret guess :
  black_pegs (x :: secret) (y :: guess) =
  (if decide (x = y) then 1 else 0) + black_pegs secret guess.
Proof.
  unfold black_pegs. cbn [zip_with]. rewrite filter_cons. cbn [fst snd].
  destruct (decide (x = y)); sum_cons; lia.
Qed.

Lemma black_pegs_bounds secret guess :
  0 ≤ black_pegs secret guess ≤ Z.min (len secret) (len guess).
Proof.
  unfold len. revert guess. induction secret as [|x secret IH]; intros [|y guess];
    try (cbn; lia).
  rewrite black_pegs_cons. specialize (IH guess). cbn [length].
  destruct (decide (x = y)); lia.
Qed.

Lemma black_pegs_comm a b : black_pegs a b = black_pegs b a.
Proof.
  revert b. induction a as [|x a IH]; intros [|y b]; try done.
  rewrite !black_pegs_cons, IH.
  destruct (decide (x = y)), (decide (y = x)); congruence.
Qed.

Lemma filter_seq_shift (P Q : nat → Prop)
    `{∀ i, Decision (P i)} `{∀ i, Decision (Q i)} k n :
  (∀ i, P (S i) ↔ Q i) →
  length (filter P (seq (S k) n)) = length (filter Q (seq k n)).
Proof.
  intros HPQ. revert k. induction n as [|n IH]; intros k; [done|].
  cbn [seq]. rewrite !filter_cons.
  destruct (decide (P (S k))) as [HP|HP], (decide (Q k)) as [HQ|HQ];
    cbn [length]; rewrite ?IH; try done; apply HPQ in HP || apply HPQ in HQ; done.
Qed.

(** The zip-based count is the number of agreeing positions. *)
Lemma black_pegs_positions (P : nat) secret guess :
  length secret = P → length guess = P →
  black_pegs secret guess = matching_positions P secret guess.
Proof.
  unfold matching_positions, len.
  revert P guess. induction secret as [|x secret IH]; intros P [|y guess] <-; try done.
  intros [= Hlen]. rewrite black_pegs_cons, (IH (length secret) guess) by done.
  cbn [length seq]. rewrite filter_cons. cbn [lookup list_lookup].
  assert (Hshift : ∀ (n m : nat), m = n → 1 + Z.of_nat n = Z.of_nat (S m)) by lia.
  assert (Hsame : ∀ (n m : nat), m = n → 0 + Z.of_nat n = Z.of_nat m) by lia.
  destruct (decide (x = y)) as [->|Hne].
  - rewrite decide_True by done. cbn [length]. apply Hshift.
    by apply filter_seq_shift.
  - rewrite decide_False by congruence. apply Hsame.
    by apply filter_seq_shift.
Qed.

Lemma colour_overlap_comm a b : colour_overlap a b = colour_overlap b a.
Proof.
  rewrite (colour_overlap_syms (remove_dups (a ++ b)) a b),
          (colour_overlap_syms (remove_dups (a ++ b)) b a).
  - unfold multiset_overlap. apply py_sum_ext. intros c _. lia.
  - apply NoDup_remove_dups.
  - intros c Hc. rewrite elem_of_remove_dups, elem_of_app. by left.
  - apply NoDup_remove_dups.
  - intros c Hc. rewrite elem_of_remove_dups, elem_of_app. by right.
Qed.

Lemma colour_overlap_le_len secret guess : colour_overlap secret guess ≤ len guess.
Proof.
  rewrite <- (py_sum_count (py_set guess) guess).
  - apply py_sum_le. intros c _. lia.
  - apply NoDup_remove_dups.
  - intros c. unfold py_set. by rewrite elem_of_remove_dups.
Qed.



Lemma multiset_overlap_nonneg syms secret guess :
  0 ≤ multiset_overlap syms secret guess.
Proof.
  apply py_sum_nonneg. intros c _.
  pose proof (count_nonneg secret c). pose proof (count_nonneg guess c). lia.
Qed.

Lemma black_pegs_nil_r secret : black_pegs secret [] = 0.
Proof. by rewrite black_pegs_comm. Qed.

(** Positional matches pair up equal colours, so they never exceed the
    colour overlap: the white count is not negative. *)
Lemma black_pegs_le_overlap (syms : list string) secret guess :
  NoDup syms → (∀ c, c ∈ guess → c ∈ syms) →
  black_pegs secret guess ≤ multiset_overlap syms secret guess.
Proof.
  intros Hnd.
  revert guess. induction secret as [|x secret IH]; intros [|y guess] Hin;
    rewrite ?black_pegs_nil_l, ?black_pegs_nil_r;
    try apply multiset_overlap_nonneg.
  rewrite black_pegs_cons.
  assert (Hin' : ∀ c, c ∈ guess → c ∈ syms) by (intros; apply Hin; by right).
  specialize (IH guess Hin'). unfold multiset_overlap in *.
  destruct (decide (x = y)) as [->|Hne].
  - etrans; [|apply (py_sum_le
        (λ c, (if decide (y = c) then 1 else 0) +
              Z.min (count secret c) (count guess c)))].
    + rewrite py_sum_plus, py_sum_indicator; [lia|done|apply Hin; by left].
    + intros c _. cbn [count]. destruct (decide (y = c)); lia.
  - etrans; [|apply (py_sum_le (λ c, Z.min (count secret c) (count guess c)))];
      [lia|].
    intros c _. cbn [count]. destruct (decide (x = c)), (decide (y = c)); lia.
Qed.

Lemma white_nonneg secret guess : 0 ≤ (get_feedback secret guess).2.
Proof.
  cbn. rewrite (colour_overlap_syms (py_set guess)).
  - pose proof (black_pegs_le_overlap (py_set guess) secret guess) as H.
    unfold py_set in *. rewrite <- Z.le_0_sub in H. apply H.
    + apply NoDup_remove_dups.
    + intros c. by rewrite elem_of_remove_dups.
  - apply NoDup_remove_dups.
  - intros c. unfold py_set. by rewrite elem_of_remove_dups.
Qed.

Lemma black_pegs_self g : black_pegs g g = len g.
Proof.
  unfold len. induction g as [|x g IH]; [done|].
  rewrite black_pegs_cons, decide_True, IH by done. cbn [length]. lia.
Qed.

Lemma colour_overlap_self g : colour_overlap g g = len g.
Proof.
  rewrite <- (py_sum_count (py_set g) g).
  - apply py_sum_ext. intros c _. lia.
  - apply NoDup_remove_dups.
  - intros c. unfold py_set. by rewrite elem_of_remove_dups.
Qed.

Lemma get_feedback_self g : get_feedback g g = (len g, 0).
Proof.
  unfold get_feedback. rewrite black_pegs_self, colour_overlap_self. f_equal. lia.
Qed.

(** Between codes of the same length only the code itself scores all
    black. *)
Lemma black_pegs_full secret guess :
  length secret = length guess →
  black_pegs secret guess = len guess → secret = guess.
Proof.
  unfold len. revert guess. induction secret as [|x secret IH]; intros [|y guess]; try done.
  intros [= Hlen]. rewrite black_pegs_cons. cbn [length].
  pose proof (black_pegs_bounds secret guess) as Hb. unfold len in Hb.
  destruct (decide (x = y)) as [->|Hne]; [|lia].
  intros Hblack. f_equal. apply IH; [done|lia].
Qed.

Lemma get_feedback_solved (pegs : nat) secret guess :
  length secret = pegs → length guess = pegs →
  get_feedback secret guess = (Z.of_nat pegs, 0) ↔ secret = guess.
Proof.
  intros Hs Hg. split.
  - intros [= Hblack _]. apply black_pegs_full; [congruence|].
    unfold len. by rewrite Hg.
  - intros ->. rewrite get_feedback_self. unfold len. by rewrite Hg.
Qed.


(** ** The feedback oracle meets its description *)

(** C1: for two codes of length [P] over the alphabet, [get_feedback]
    returns [(black, white)] with [black] the number of positions at which
    the codes agree and [white] the sum over the distinct colours of the
    smaller occurrence count, minus [black]; moreover [0 <= black <= P],
    [0 <= white] and [black + white <= P]. *)
Theorem get_feedback_spec (P : nat) (alphabet : list string) (secret guess : Code) :
  NoDup alphabet →
  length secret = P → length guess = P →
  secret ⊆ alphabet → guess ⊆ alphabet →
  ∃ black white,
    get_feedback secret guess = (black, white) ∧
    black = matching_positions P secret guess ∧
    white = multiset_overlap alphabet secret guess - black ∧
    0 ≤ black ≤ Z.of_nat P ∧ 0 ≤ white ∧ black + white ≤ Z.of_nat P.
Proof.
  intros Hnd Hs Hg _ Hin.
  exists (black_pegs secret guess), (colour_overlap secret guess - black_pegs secret guess).
  pose proof (black_pegs_bounds secret guess) as Hb.
  pose proof (colour_overlap_le_len secret guess) as Hw.
  pose proof (white_nonneg secret guess) as Hw0. cbn in Hw0.
  unfold len in *. rewrite Hs, Hg in *.
  split_and!; try done; try lia.
  - by apply black_pegs_positions.
  - by rewrite (colour_overlap_syms alphabet).
Qed.

Lemma get_feedback_spec_witness :
  ∃ black white,
    get_feedback ["A"; "A"; "B"; "C"] ["A"; "B"; "A"; "D"] = (black, white) ∧
    black = matching_positions 4 ["A"; "A"; "B"; "C"] ["A"; "B"; "A"; "D"] ∧
    white = multiset_overlap ["A"; "B"; "C"; "D"; "E"; "F"]
              ["A"; "A"; "B"; "C"] ["A"; "B"; "A"; "D"] - black ∧
    0 ≤ black ≤ 4 ∧ 0 ≤ white ∧ black + white ≤ 4.
Proof.
  apply (get_feedback_spec 4 ["A"; "B"; "C"; "D"; "E"; "F"]).
  - apply (bool_decide_unpack _). vm_compute. exact I.
  - reflexivity.
  - reflexivity.
  - apply (bool_decide_unpack _). vm_compute. exact I.
  - apply (bool_decide_unpack _). vm_compute. exact I.
Defined.

(** C5: the feedback does not depend on which of the two codes is taken
    as the secret. Codes of different lengths are covered as well: [zip]
    stops at the shorter one on either side. *)
Theorem get_feedback_symmetric (a b : Code) : get_feedback a b = get_feedback b a.
Proof.
  unfold get_feedback. by rewrite black_pegs_comm, colour_overlap_comm.
Qed.


(** ** Scored inference picks the first candidate of least score *)

Lemma score_foldl premises c acc :
  foldl (λ score '(prev_guess, prev_fb),
           let candidate_fb := get_feedback c prev_guess in
           score + (Z.abs (candidate_fb.1 - prev_fb.1)
                    + Z.abs (candidate_fb.2 - prev_fb.2)))
        acc premises
  = acc + score_sum premises c.
Proof.
  unfold score_sum. revert acc.
  induction premises as [|[g f] premises IH]; intros acc; cbn [foldl].
  - cbn. lia.
  - rewrite IH. sum_cons. cbn [fst snd]. lia.
Qed.

Lemma score_is_sum premises c : Inference.score premises c = score_sum premises c.
Proof. unfold Inference.score. by rewrite score_foldl. Qed.

(** With a best candidate [g] in hand, the rest of the loop either keeps
    it, because nothing later scores strictly less, or moves to the first
    later candidate of least score. *)
Lemma select_best_from premises candidates g :
  ∃ best,
    Inference.select_best premises candidates
      (Some (Inference.score premises g)) (Some g) = Some best ∧
    (∀ c, c ∈ candidates → Inference.score premises best ≤ Inference.score premises c) ∧
    ((best = g ∧
      ∀ c, c ∈ candidates → Inference.score premises g ≤ Inference.score premises c) ∨
     (∃ i, candidates !! i = Some best ∧
           Inference.score premises best < Inference.score premises g ∧
           ∀ j c, (j < i)%nat → candidates !! j = Some c →
                  Inference.score premises best < Inference.score premises c)).
Proof.
  revert g. induction candidates as [|c0 candidates IH]; intros g.
  - exists g. split_and!; [done| |left; split; [done|]]; intros c Hc; by apply elem_of_nil in Hc.
  - cbn [Inference.select_best].
    destruct (decide (Inference.below (Inference.score premises c0)
                        (Some (Inference.score premises g)))) as [Hlt|Hge];
      cbn [Inference.below] in *.
    + destruct (IH c0) as (best & Hsel & Hmin & Hcase).
      exists best. split; [done|].
      assert (Hle0 : Inference.score premises best ≤ Inference.score premises c0).
      { destruct Hcase as [[-> _]|(i & _ & Hi & _)]; lia. }
      split.
      * intros c [->|Hc]%elem_of_cons; [done|by apply Hmin].
      * right. destruct Hcase as [[-> Hall]|(i & Hi & Hlti & Hbefore)].
        -- exists 0%nat. split_and!; [done|done|]. intros j c Hj. lia.
        -- exists (S i). split_and!; [done|lia|].
           intros [|j] c Hj; cbn [lookup list_lookup].
           ++ intros [= <-]. done.
           ++ apply Hbefore. lia.
    + destruct (IH g) as (best & Hsel & Hmin & Hcase).
      exists best. split; [done|].
      assert (Hleg : Inference.score premises best ≤ Inference.score premises g).
      { destruct Hcase as [[-> _]|(i & _ & Hi & _)]; lia. }
      split.
      * intros c [->|Hc]%elem_of_cons; [lia|by apply Hmin].
      * destruct Hcase as [[-> Hall]|(i & Hi & Hlti & Hbefore)].
        -- left. split; [done|]. intros c [->|Hc]%elem_of_cons; [lia|by apply Hall].
        -- right. exists (S i). split_and!; [done|done|].
           intros [|j] c Hj; cbn [lookup list_lookup].
           ++ intros [= <-]. lia.
           ++ apply Hbefore. lia.
Qed.

Lemma select_best_first_min premises candidates :
  candidates ≠ [] →
  ∃ i best,
    Inference.select_best premises candidates None None = Some best ∧
    candidates !! i = Some best ∧
    (∀ c, c ∈ candidates → score_sum premises best ≤ score_sum premises c) ∧
    (∀ j c, (j < i)%nat → candidates !! j = Some c →
            score_sum premises best < score_sum premises c).
Proof.
  destruct candidates as [|c0 candidates]; [done|intros _].
  cbn [Inference.select_best]. rewrite decide_True by done.
  destruct (select_best_from premises candidates c0) as (best & Hsel & Hmin & Hcase).
  setoid_rewrite <- score_is_sum.
  destruct Hcase as [[-> Hall]|(i & Hi & Hlti & Hbefore)].
  - exists 0%nat, c0. split_and!; [done|done| |].
    + intros c [->|Hc]%elem_of_cons; [done|by apply Hall].
    + intros j c Hj. lia.
  - exists (S i), best. split_and!; [done|done| |].
    + intros c [->|Hc]%elem_of_cons; [lia|by apply Hmin].
    + intros [|j] c Hj; cbn [lookup list_lookup].
      * intros [= <-]. done.
      * apply Hbefore. lia.
Qed.


Lemma observe_history secret pegs all_premises st g' guess :
  Inference.guess_history (Inference.observe secret pegs all_premises st g' guess)
  = Inference.guess_history st ++ [guess].
Proof.
  unfold Inference.observe.
  destruct (decide _); [done|]. by destruct (_ && _).
Qed.

Lemma observe_gen secret pegs all_premises st g' guess :
  Inference.gen (Inference.observe secret pegs all_premises st g' guess) = g'.
Proof.
  unfold Inference.observe.
  destruct (decide _); [done|]. by destruct (_ && _).
Qed.

(** C6: in a turn of the scored phase the score of each candidate is the
    sum over the premises of the absolute differences of the black and of
    the white counts, and the guess played is the first candidate of
    [remaining], in list order, whose score is least; no random draw is
    made. *)
Theorem scored_inference_first_minimum secret pegs (st : Inference.state) :
  Inference.remaining st ≠ [] →
  ∃ (i : nat) (best : Code),
    Inference.remaining st !! i = Some best ∧
    (∀ c, Inference.score (Inference.premises st) c
          = score_sum (Inference.premises st) c) ∧
    (∀ c, c ∈ Inference.remaining st →
          score_sum (Inference.premises st) best ≤ score_sum (Inference.premises st) c) ∧
    (∀ j c, (j < i)%nat → Inference.remaining st !! j = Some c →
            score_sum (Inference.premises st) best < score_sum (Inference.premises st) c) ∧
    Inference.guess_history (Inference.infer_turn secret pegs st)
      = Inference.guess_history st ++ [best] ∧
    Inference.gen (Inference.infer_turn secret pegs st) = Inference.gen st.
Proof.
  intros Hne.
  destruct (select_best_first_min (Inference.premises st) (Inference.remaining st) Hne)
    as (i & best & Hsel & Hi & Hmin & Hfirst).
  exists i, best. split_and!; try done.
  - apply score_is_sum.
  - unfold Inference.infer_turn. rewrite Hsel. apply observe_history.
  - unfold Inference.infer_turn. rewrite Hsel. apply observe_gen.
Qed.

Lemma scored_inference_first_minimum_witness :
  ∃ (i : nat) (best : Code),
    Inference.remaining scored_state !! i = Some best ∧
    (∀ c, Inference.score (Inference.premises scored_state) c
          = score_sum (Inference.premises scored_state) c) ∧
    (∀ c, c ∈ Inference.remaining scored_state →
          score_sum (Inference.premises scored_state) best
          ≤ score_sum (Inference.premises scored_state) c) ∧
    (∀ j c, (j < i)%nat → Inference.remaining scored_state !! j = Some c →
            score_sum (Inference.premises scored_state) best
            < score_sum (Inference.premises scored_state) c) ∧
    Inference.guess_history (Inference.infer_turn ["b"; "a"] 2 scored_state)
      = Inference.guess_history scored_state ++ [best] ∧
    Inference.gen (Inference.infer_turn ["b"; "a"] 2 scored_state)
      = Inference.gen scored_state.
Proof.
  apply (scored_inference_first_minimum ["b"; "a"] 2 scored_state).
  discriminate.
Defined.


(** ** Minimax selection *)

Lemma group_size_cons remaining guess fb code :
  Minimax.group_size (code :: remaining) guess fb
  = (if decide (get_feedback code guess = fb) then 1 else 0)
    + Minimax.group_size remaining guess fb.
Proof.
  unfold Minimax.group_size, len. rewrite filter_cons.
  destruct (decide _); cbn [length]; lia.
Qed.

Lemma group_size_nonneg remaining guess fb : 0 ≤ Minimax.group_size remaining guess fb.
Proof. unfold Minimax.group_size, len. lia. Qed.

Lemma group_size_pos remaining guess code :
  code ∈ remaining → 0 < Minimax.group_size remaining guess (get_feedback code guess).
Proof.
  intros Hin. unfold Minimax.group_size, len.
  assert (Hf : code ∈ filter (λ c, get_feedback c guess = get_feedback code guess) remaining)
    by (by apply list_elem_of_filter).
  destruct (filter _ remaining); [by apply elem_of_nil in Hf|]. cbn [length]. lia.
Qed.

Lemma group_size_pos_inv remaining guess fb :
  Minimax.group_size remaining guess fb ≠ 0 →
  ∃ code, code ∈ remaining ∧ get_feedback code guess = fb.
Proof.
  unfold Minimax.group_size, len. intros Hne.
  destruct (filter _ remaining) as [|code l] eqn:Hf; [done|].
  assert (Hin : code ∈ filter (λ c, get_feedback c guess = fb) remaining)
    by (rewrite Hf; left).
  apply list_elem_of_filter in Hin. exists code. tauto.
Qed.

(** The dictionary built by the counting loop holds, for each feedback
    that occurs, the size of its group, on top of what it held before. *)
Lemma partition_sizes_foldl (remaining : list Code) (guess : Code)
    (sizes : gmap (Z * Z) Z) (fb : Z * Z) :
  (foldl (λ (sizes : gmap (Z * Z) Z) possible_secret,
           let fb := get_feedback possible_secret guess in
           <[fb := default 0 (sizes !! fb) + 1]> sizes)
        sizes remaining) !! fb
  = if decide (Minimax.group_size remaining guess fb = 0) then sizes !! fb
    else Some (default 0 (sizes !! fb) + Minimax.group_size remaining guess fb).
Proof.
  revert sizes. induction remaining as [|code remaining IH]; intros sizes.
  - done.
  - cbn [foldl]. rewrite IH, group_size_cons.
    pose proof (group_size_nonneg remaining guess fb) as Hnn.
    destruct (decide (get_feedback code guess = fb)) as [->|Hne].
    + rewrite lookup_insert_eq. cbn [default].
      rewrite (decide_False (P := 1 + _ = 0)) by lia.
      destruct (decide (Minimax.group_size remaining guess _ = 0)) as [Hz|Hz];
        cbn [default]; f_equal.
      * rewrite Hz. by rewrite Z.add_0_r.
      * unfold id. by rewrite Z.add_assoc.
    + rewrite lookup_insert_ne by done.
      destruct (decide (Minimax.group_size remaining guess fb = 0)) as [Hz|Hz].
      * by rewrite decide_True by lia.
      * by rewrite decide_False by lia.
Qed.

Lemma partition_sizes_lookup remaining guess fb :
  Minimax.partition_sizes remaining guess !! fb
  = if decide (Minimax.group_size remaining guess fb = 0) then None
    else Some (Minimax.group_size remaining guess fb).
Proof.
  unfold Minimax.partition_sizes. rewrite partition_sizes_foldl, lookup_empty.
  destruct (decide _); [done|]. cbn [default]. by f_equal.
Qed.

Lemma foldl_max_spec (v : Z) (vs : list Z) :
  foldl Z.max v vs ∈ v :: vs ∧ ∀ x, x ∈ v :: vs → x ≤ foldl Z.max v vs.
Proof.
  revert v. induction vs as [|y vs IH]; intros v; cbn [foldl].
  - split; [left|]. intros x ->%list_elem_of_singleton. lia.
  - destruct (IH (Z.max v y)) as [Hin Hub]. split.
    + apply elem_of_cons in Hin. destruct Hin as [Heq|Hin].
      * rewrite Heq. destruct (Z.max_spec v y) as [[_ ->]|[_ ->]]; [right; left|left].
      * right; by right.
    + intros x Hx. rewrite !elem_of_cons in Hx. destruct Hx as [->|[->|Hx]].
      * etrans; [|apply Hub; left]. lia.
      * etrans; [|apply Hub; left]. lia.
      * apply Hub. by right.
Qed.

Lemma foldr_max_spec (vs : list Z) :
  (∀ x, x ∈ vs → x ≤ foldr Z.max 0 vs) ∧
  (foldr Z.max 0 vs ∈ vs ∨ foldr Z.max 0 vs = 0).
Proof.
  induction vs as [|y vs [Hub Hin]]; cbn [foldr].
  - split; [|by right]. intros x Hx. by apply elem_of_nil in Hx.
  - split.
    + intros x [->|Hx]%elem_of_cons; [lia|]. specialize (Hub x Hx). lia.
    + destruct (Z.max_spec y (foldr Z.max 0 vs)) as [[_ ->]|[_ ->]].
      * destruct Hin as [Hin|Hin]; [left; by right|by right].
      * left; left.
Qed.

(** The largest group is the group of some candidate and no group is
    larger. *)
Lemma largest_group_spec remaining guess :
  remaining ≠ [] →
  (∃ code, code ∈ remaining ∧
     Minimax.largest_group remaining guess
     = Minimax.group_size remaining guess (get_feedback code guess)) ∧
  (∀ fb, Minimax.group_size remaining guess fb ≤ Minimax.largest_group remaining guess).
Proof.
  intros Hne. unfold Minimax.largest_group.
  set (vs := (λ code, Minimax.group_size remaining guess (get_feedback code guess))
               <$> remaining).
  destruct (foldr_max_spec vs) as [Hub Hin].
  assert (Hpos : ∀ code, code ∈ remaining →
            0 < Minimax.group_size remaining guess (get_feedback code guess)
            ≤ foldr Z.max 0 vs).
  { intros code Hc. split; [by apply group_size_pos|].
    apply Hub. unfold vs. apply list_elem_of_fmap. by exists code. }
  split.
  - destruct Hin as [Hin|Hz].
    + unfold vs in Hin at 2. apply list_elem_of_fmap in Hin.
      destruct Hin as (code & Heq & Hc). by exists code.
    + destruct remaining as [|code remaining]; [done|].
      specialize (Hpos code ltac:(left)). lia.
  - intros fb. destruct (decide (Minimax.group_size remaining guess fb = 0)) as [->|Hnz].
    + destruct remaining as [|code remaining]; [done|].
      specialize (Hpos code ltac:(left)). lia.
    + destruct (group_size_pos_inv _ _ _ Hnz) as (code & Hc & <-). by apply Hpos.
Qed.

(** On a non-empty candidate list the dictionary has a value, and its
    maximum is the size of the largest group. *)
Lemma worst_partition_largest_group remaining guess :
  remaining ≠ [] →
  Minimax.worst_partition remaining guess = Ok (Minimax.largest_group remaining guess).
Proof.
  intros Hne. unfold Minimax.worst_partition.
  destruct (largest_group_spec remaining guess Hne) as [(code & Hc & Hlg) Hub].
  set (m := Minimax.partition_sizes remaining guess).
  assert (Hval : ∀ v, v ∈ (map_to_list m).*2 ↔
            ∃ fb, Minimax.group_size remaining guess fb ≠ 0 ∧
                  v = Minimax.group_size remaining guess fb).
  { intros v. rewrite list_elem_of_fmap. split.
    - intros ([fb v'] & -> & Hin). apply elem_of_map_to_list in Hin.
      unfold m in Hin. rewrite partition_sizes_lookup in Hin.
      destruct (decide _); [done|]. exists fb. cbn. split; congruence.
    - intros (fb & Hnz & ->). exists (fb, Minimax.group_size remaining guess fb).
      split; [done|]. apply elem_of_map_to_list. unfold m.
      rewrite partition_sizes_lookup. by rewrite decide_False. }
  pose proof (group_size_pos remaining guess code Hc) as Hpos.
  destruct ((map_to_list m).*2) as [|v vs] eqn:Hvs.
  - exfalso. eapply elem_of_nil, Hval. eexists; split; [|done]. lia.
  - cbn [Minimax.py_max]. f_equal.
    destruct (foldl_max_spec v vs) as [Hin Hmax].
    apply Hval in Hin. destruct Hin as (fb & _ & Hfb).
    apply Z.le_antisymm.
    + rewrite Hfb. apply Hub.
    + apply Hmax, Hval. exists (get_feedback code guess). split; [lia|done].
Qed.


(** The first pass ends with a guess of least worst case among the one it
    started with and the codes it has seen. *)
Lemma first_pass_min remaining codes g0 :
  remaining ≠ [] →
  ∃ g, Minimax.first_pass remaining codes
         (Some (Minimax.largest_group remaining g0)) (Some g0)
       = Ok (Some (Minimax.largest_group remaining g), Some g) ∧
       (g = g0 ∨ g ∈ codes) ∧
       Minimax.largest_group remaining g ≤ Minimax.largest_group remaining g0 ∧
       ∀ c, c ∈ codes →
            Minimax.largest_group remaining g ≤ Minimax.largest_group remaining c.
Proof.
  intros Hne. revert g0. induction codes as [|c0 codes IH]; intros g0.
  - exists g0. split_and!; [done|by left|lia|]. intros c Hc. by apply elem_of_nil in Hc.
  - cbn [Minimax.first_pass]. rewrite worst_partition_largest_group by done.
    cbn [bind_result].
    destruct (decide _) as [Hlt|Hge]; cbn [Minimax.below] in *.
    + destruct (IH c0) as (g & Hrun & Hin & Hle & Hmin).
      exists g. split_and!; [done| |lia|].
      * right. destruct Hin as [->|Hin]; [left|by right].
      * intros c [->|Hc]%elem_of_cons; [done|by apply Hmin].
    + destruct (IH g0) as (g & Hrun & Hin & Hle & Hmin).
      exists g. split_and!; [done| |lia|].
      * destruct Hin as [->|Hin]; [by left|right; by right].
      * intros c [->|Hc]%elem_of_cons; [lia|by apply Hmin].
Qed.

Lemma first_pass_start remaining codes :
  remaining ≠ [] → codes ≠ [] →
  ∃ g, Minimax.first_pass remaining codes None None
       = Ok (Some (Minimax.largest_group remaining g), Some g) ∧
       g ∈ codes ∧
       ∀ c, c ∈ codes →
            Minimax.largest_group remaining g ≤ Minimax.largest_group remaining c.
Proof.
  intros Hne Hcodes. destruct codes as [|c0 codes]; [done|].
  cbn [Minimax.first_pass]. rewrite worst_partition_largest_group by done.
  cbn [bind_result]. rewrite decide_True by done.
  destruct (first_pass_min remaining codes c0 Hne) as (g & -> & Hin & Hle & Hmin).
  exists g. split_and!; [done| |].
  - destruct Hin as [->|Hin]; [left|by right].
  - intros c [->|Hc]%elem_of_cons; [done|by apply Hmin].
Qed.

(** The second pass returns the first code that reaches [best_score] and
    is a candidate, and keeps [best_guess] if there is none. *)
Lemma second_pass_prefers_candidate remaining codes w g :
  remaining ≠ [] →
  ∃ g', Minimax.second_pass remaining codes (Some w) (Some g) = Ok (Some g') ∧
        ((g' = g ∧
          ∀ c, c ∈ codes → ¬ (Minimax.largest_group remaining c = w ∧ c ∈ remaining)) ∨
         (g' ∈ codes ∧ Minimax.largest_group remaining g' = w ∧ g' ∈ remaining)).
Proof.
  intros Hne. induction codes as [|c0 codes IH].
  - exists g. split; [done|]. left. split; [done|]. intros c Hc. by apply elem_of_nil in Hc.
  - cbn [Minimax.second_pass]. rewrite worst_partition_largest_group by done.
    cbn [bind_result].
    destruct (decide _) as [[[= Hw] Hin]|Hno].
    + exists c0. split; [done|]. right. split_and!; [left|done|done].
    + destruct IH as (g' & Hrun & Hcase). exists g'. split; [done|].
      destruct Hcase as [[-> Hnone]|(Hin & Hw & Hrem)].
      * left. split; [done|]. intros c [->|Hc]%elem_of_cons; [|by apply Hnone].
        intros [Hw Hin]. apply Hno. split; [by rewrite Hw|done].
      * right. split_and!; [by right|done|done].
Qed.

(** What [minimax_guess] returns on a non-empty candidate list taken from
    the code space. *)
Lemma minimax_guess_characterised (remaining all_codes : list Code) :
  remaining ≠ [] → remaining ⊆ all_codes →
  ∃ g,
    Minimax.minimax_guess remaining all_codes = Ok (Some g) ∧
    g ∈ all_codes ∧
    (∀ c, Minimax.worst_partition remaining c = Ok (Minimax.largest_group remaining c)) ∧
    (∀ c, c ∈ all_codes →
          Minimax.largest_group remaining g ≤ Minimax.largest_group remaining c) ∧
    ((∃ c, c ∈ remaining ∧
           ∀ c', c' ∈ all_codes →
                 Minimax.largest_group remaining c ≤ Minimax.largest_group remaining c') →
     g ∈ remaining).
Proof.
  intros Hne Hsub. unfold Minimax.minimax_guess.
  assert (Hcodes : all_codes ≠ []).
  { intros ->. destruct remaining as [|r ?]; [done|].
    eapply elem_of_nil, (Hsub r). left. }
  destruct (first_pass_start remaining all_codes Hne Hcodes) as (g & -> & Hg & Hopt).
  cbn [bind_result].
  destruct (second_pass_prefers_candidate remaining all_codes
              (Minimax.largest_group remaining g) g Hne) as (g' & -> & Hcase).
  exists g'. split; [done|].
  destruct Hcase as [[-> Hnone]|(Hin' & Hw & Hrem)].
  - split_and!; [done| |done|].
    + intros c. by apply worst_partition_largest_group.
    + intros (c & Hc & Hcmin). exfalso. apply (Hnone c (Hsub c Hc)).
      split; [|done]. apply Z.le_antisymm; [by apply Hcmin|by apply Hopt, Hsub].
  - split_and!; [done| | |done].
    + intros c. by apply worst_partition_largest_group.
    + intros c Hc. rewrite Hw. by apply Hopt.
Qed.

(** C3: on a non-empty candidate list taken from the code space,
    [minimax_guess] returns a code of the code space whose worst-case
    partition size (the size of the largest group of [remaining] under the
    feedback against it, which is what [worst_partition] computes) is at
    most that of every code of the code space; and if some candidate
    reaches that least worst case, the returned guess is a candidate. *)
Theorem minimax_guess_optimal (remaining all_codes : list Code) :
  remaining ≠ [] → remaining ⊆ all_codes →
  ∃ g,
    Minimax.minimax_guess remaining all_codes = Ok (Some g) ∧
    g ∈ all_codes ∧
    (∀ c, Minimax.worst_partition remaining c = Ok (Minimax.largest_group remaining c)) ∧
    (∀ c, c ∈ all_codes →
          Minimax.largest_group remaining g ≤ Minimax.largest_group remaining c) ∧
    ((∃ c, c ∈ remaining ∧
           ∀ c', c' ∈ all_codes →
                 Minimax.largest_group remaining c ≤ Minimax.largest_group remaining c') →
     g ∈ remaining).
Proof. apply minimax_guess_characterised. Qed.

Lemma minimax_guess_optimal_witness :
  ∃ g,
    Minimax.minimax_guess [["a"; "b"]; ["b"; "a"]; ["b"; "b"]] (product ["a"; "b"] 2)
      = Ok (Some g) ∧
    g ∈ product ["a"; "b"] 2 ∧
    (∀ c, Minimax.worst_partition [["a"; "b"]; ["b"; "a"]; ["b"; "b"]] c
          = Ok (Minimax.largest_group [["a"; "b"]; ["b"; "a"]; ["b"; "b"]] c)) ∧
    (∀ c, c ∈ product ["a"; "b"] 2 →
          Minimax.largest_group [["a"; "b"]; ["b"; "a"]; ["b"; "b"]] g
          ≤ Minimax.largest_group [["a"; "b"]; ["b"; "a"]; ["b"; "b"]] c) ∧
    ((∃ c, c ∈ [["a"; "b"]; ["b"; "a"]; ["b"; "b"]] ∧
           ∀ c', c' ∈ product ["a"; "b"] 2 →
                 Minimax.largest_group [["a"; "b"]; ["b"; "a"]; ["b"; "b"]] c
                 ≤ Minimax.largest_group [["a"; "b"]; ["b"; "a"]; ["b"; "b"]] c') →
     g ∈ [["a"; "b"]; ["b"; "a"]; ["b"; "b"]]).
Proof.
  apply (minimax_guess_optimal [["a"; "b"]; ["b"; "a"]; ["b"; "b"]] (product ["a"; "b"] 2)).
  - discriminate.
  - apply (bool_decide_unpack _). vm_compute. exact I.
Defined.


(** ** The candidate list never grows *)

Lemma observe_remaining secret pegs all_premises st g' guess :
  Inference.remaining (Inference.observe secret pegs all_premises st g' guess)
  = if all_premises
    then filter (λ code, Forall (λ p, get_feedback code p.1 = p.2)
                           (Inference.premises st ++ [(guess, get_feedback secret guess)]))
                (Inference.remaining st)
    else filter (λ code, get_feedback code guess = get_feedback secret guess)
                (Inference.remaining st).
Proof.
  unfold Inference.observe.
  destruct (decide _); [done|]. by destruct (_ && _).
Qed.

Lemma inference_step_sublist secret pegs n st :
  sublist (Inference.remaining (Inference.step secret pegs n st)) (Inference.remaining st).
Proof.
  unfold Inference.step.
  destruct (Inference.halted st); [done|].
  destruct (decide _).
  - unfold Inference.explore_turn.
    destruct (random_choice _ _) as [[guess|e] g']; [|done].
    rewrite observe_remaining. apply sublist_filter.
  - destruct (Inference.remaining st) eqn:Hrem; [done|]. rewrite <- Hrem.
    unfold Inference.infer_turn.
    destruct (Inference.select_best _ _ _ _).
    + rewrite observe_remaining. apply sublist_filter.
    + destruct (random_choice _ _) as [[guess|e] g']; [|done].
      rewrite observe_remaining. apply sublist_filter.
Qed.

Lemma filter_cnf_sublist cnf codes kept :
  CNF.filter_cnf cnf codes = Ok kept → sublist kept codes.
Proof.
  revert kept. induction codes as [|code codes IH]; intros kept; cbn [CNF.filter_cnf].
  - intros [= <-]. done.
  - destruct (CNF.code_satisfies_cnf code cnf) as [keep|]; [|done]. cbn [bind_result].
    destruct (CNF.filter_cnf cnf codes) as [rest|]; [|done]. cbn [bind_result].
    intros [= <-]. destruct keep; [apply sublist_skip|apply sublist_cons]; by apply IH.
Qed.

Lemma cnf_play_sublist secret last_phase st :
  sublist (CNF.remaining (CNF.play secret last_phase st)) (CNF.remaining st).
Proof.
  unfold CNF.play.
  destruct (random_choice _ _) as [[guess|e] g']; [|done].
  destruct (decide _); [done|].
  destruct (CNF.derive_simple_cnf_constraints _ _); [|done].
  destruct (CNF.filter_cnf _ _) as [kept|] eqn:Hcnf.
  - transitivity (filter (λ code, Forall (λ p, get_feedback code p.1 = p.2)
                     (CNF.premises st ++ [(guess, get_feedback secret guess)]))
                   (CNF.remaining st)); [|apply sublist_filter].
    apply filter_cnf_sublist in Hcnf. by destruct (_ && _).
  - apply sublist_filter.
Qed.

Lemma cnf_step_sublist secret n st :
  sublist (CNF.remaining (CNF.step secret n st)) (CNF.remaining st).
Proof.
  unfold CNF.step.
  destruct (CNF.halted st); [done|].
  destruct (decide _);
    (destruct (CNF.remaining st) eqn:Hrem; [cbn; by rewrite Hrem|]);
    rewrite <- Hrem; apply cnf_play_sublist.
Qed.

Lemma remove_first_sublist x l : sublist (Minimax.remove_first x l) l.
Proof.
  induction l as [|y l IH]; cbn [Minimax.remove_first]; [done|].
  destruct (decide _); [by apply sublist_cons|by apply sublist_skip].
Qed.

Lemma minimax_play_sublist secret pegs colors_list st :
  sublist (Minimax.remaining (Minimax.play secret pegs colors_list st))
          (Minimax.remaining st).
Proof.
  unfold Minimax.play.
  destruct (Minimax.choose _ _ _ _) as [guess|e]; [|done].
  destruct (decide _); [done|].
  assert (sublist
    (if bool_decide (length (filter (λ code, get_feedback code guess
                                             = get_feedback secret guess)
                               (Minimax.remaining st)) = length (Minimax.remaining st))
     then (if decide (guess ∈ Minimax.remaining st)
           then Minimax.remove_first guess (Minimax.remaining st)
           else Minimax.remaining st)
     else filter (λ code, get_feedback code guess = get_feedback secret guess)
            (Minimax.remaining st))
    (Minimax.remaining st)) as Hsub.
  { destruct (bool_decide _); [|apply sublist_filter].
    destruct (decide _); [apply remove_first_sublist|done]. }
  by destruct (bool_decide (_ = [])).
Qed.

Lemma minimax_step_sublist secret pegs colors_list st :
  sublist (Minimax.remaining (Minimax.step secret pegs colors_list st))
          (Minimax.remaining st).
Proof.
  unfold Minimax.step.
  destruct (Minimax.halted st); [done|].
  destruct (Minimax.remaining st) eqn:Hrem; [cbn; by rewrite Hrem|].
  rewrite <- Hrem. apply minimax_play_sublist.
Qed.

(** C4: in each of the three solvers a turn leaves a candidate list that
    is a sub-list of the one before it, whichever filter it applied
    (filtering by premises, by the clauses, or the forced removal of the
    guess); so along any run the size of [remaining] never increases. *)
Theorem remaining_size_non_increasing :
  (∀ secret pegs colors_list num_initial_guesses g n,
     (length (Inference.remaining
                (Inference.run secret pegs colors_list num_initial_guesses g (S n)))
      ≤ length (Inference.remaining
                  (Inference.run secret pegs colors_list num_initial_guesses g n)))%nat) ∧
  (∀ secret num_initial_guesses g n,
     (length (CNF.remaining (CNF.run secret num_initial_guesses g (S n)))
      ≤ length (CNF.remaining (CNF.run secret num_initial_guesses g n)))%nat) ∧
  (∀ secret pegs colors_list n,
     (length (Minimax.remaining (Minimax.run secret pegs colors_list (S n)))
      ≤ length (Minimax.remaining (Minimax.run secret pegs colors_list n)))%nat) ∧
  (∀ secret pegs num_initial_guesses st,
     (length (Inference.remaining (Inference.step secret pegs num_initial_guesses st))
      ≤ length (Inference.remaining st))%nat) ∧
  (∀ secret num_initial_guesses st,
     (length (CNF.remaining (CNF.step secret num_initial_guesses st))
      ≤ length (CNF.remaining st))%nat) ∧
  (∀ secret pegs colors_list st,
     (length (Minimax.remaining (Minimax.step secret pegs colors_list st))
      ≤ length (Minimax.remaining st))%nat).
Proof.
  split_and!; intros.
  - apply sublist_length, inference_step_sublist.
  - apply sublist_length, cnf_step_sublist.
  - apply sublist_length, minimax_step_sublist.
  - apply sublist_length, inference_step_sublist.
  - apply sublist_length, cnf_step_sublist.
  - apply sublist_length, minimax_step_sublist.
Qed.


(** ** The code space and the random choice *)

Lemma product_length colors_list pegs c :
  c ∈ product colors_list pegs → length c = pegs.
Proof.
  revert c. induction pegs as [|pegs IH]; intros c; cbn [product].
  - by intros ->%list_elem_of_singleton.
  - rewrite list_elem_of_bind. intros (x & Hc & _).
    apply list_elem_of_fmap in Hc. destruct Hc as (c' & -> & Hc').
    cbn [length]. f_equal. by apply IH.
Qed.

Lemma product_size colors_list pegs :
  length (product colors_list pegs) = (length colors_list ^ pegs)%nat.
Proof.
  induction pegs as [|pegs IH]; cbn [product]; [done|].
  rewrite Nat.pow_succ_r'. 
  assert (Hbind : ∀ l : list string,
    length (c ← l; (λ code, c :: code) <$> product colors_list pegs)
    = (length l * length (product colors_list pegs))%nat).
  { induction l as [|x l IHl]; [done|].
    cbn [mbind list_bind]. rewrite length_app, length_fmap.
    cbn [mbind] in IHl. rewrite IHl. cbn [length]. rewrite Nat.mul_succ_l. apply Nat.add_comm. }
  rewrite Hbind, IH. done.
Qed.

Lemma random_choice_ok {A} (seq : list A) (g : rng) :
  seq ≠ [] →
  ∃ x, random_choice seq g = (Ok x, {| tape := tape g; cursor := S (cursor g) |}) ∧
       x ∈ seq.
Proof.
  intros Hne. unfold random_choice, randbelow.
  destruct seq as [|a seq]; [done|].
  set (l := a :: seq). set (k := (tape g (cursor g) mod length l)%nat).
  assert (Hk : (k < length l)%nat) by (apply Nat.mod_upper_bound; by cbn).
  destruct (lookup_lt_is_Some_2 l k Hk) as [x Hx].
  exists x. rewrite Hx. split; [done|]. by apply list_elem_of_lookup_2 in Hx.
Qed.

(** ** Runs of [logical_inference_solver] on a secret of the code space *)

Section inference_runs.
Variables (secret : Code) (pegs : nat) (colors_list : list string)
          (num_initial_guesses : nat).
Hypothesis secret_valid : secret ∈ product colors_list pegs.

Let N := length (product colors_list pegs).

Lemma secret_length : length secret = pegs.
Proof. by apply product_length in secret_valid. Qed.

Lemma inference_init_inv g :
  inference_inv secret pegs N (Inference.init pegs colors_list g).
Proof.
  unfold inference_inv. cbn.
  split_and!; [done|apply product_length|done|apply not_elem_of_nil|done|].
  unfold N. lia.
Qed.

Lemma observe_inv all_premises st g' guess :
  inference_inv secret pegs N st → Inference.halted st = None →
  guess ∈ Inference.remaining st →
  inference_inv secret pegs N (Inference.observe secret pegs all_premises st g' guess).
Proof.
  intros (Hsec & Hlen & Hprem & Hout & Hhist & Hrun) Hhalt Hguess.
  rewrite Hhalt in Hrun.
  pose proof secret_length as Hslen.
  pose proof (Hlen guess Hguess) as Hglen.
  set (fb := get_feedback secret guess).
  set (premises' := Inference.premises st ++ [(guess, fb)]).
  set (remaining' :=
    if all_premises
    then filter (λ code, Forall (λ p, get_feedback code p.1 = p.2) premises')
           (Inference.remaining st)
    else filter (λ code, get_feedback code guess = fb) (Inference.remaining st)).
  assert (Hprem' : Forall (λ p, get_feedback secret p.1 = p.2) premises').
  { apply Forall_app. split; [done|]. by apply Forall_singleton. }
  assert (Hsec' : secret ∈ remaining').
  { unfold remaining'. destruct all_premises; by apply list_elem_of_filter. }
  assert (Hlen' : ∀ c, c ∈ remaining' → length c = pegs).
  { intros c. unfold remaining'.
    destruct all_premises; intros [_ Hc]%list_elem_of_filter; by apply Hlen. }
  assert (Hpos : (1 ≤ length (Inference.remaining st))%nat).
  { destruct (Inference.remaining st); [by apply elem_of_nil in Hsec|cbn; lia]. }
  unfold Inference.observe. fold fb. fold premises'. fold remaining'.
  destruct (decide (fb = (Z.of_nat pegs, 0))) as [Hsolved|Hnot].
  - apply get_feedback_solved in Hsolved; [|done..]. subst guess.
    unfold inference_inv. cbn. split_and!; try done.
    + intros Hin. rewrite !elem_of_app, !list_elem_of_singleton in Hin.
      by destruct Hin as [[?|?]|?].
    + rewrite length_app, Hhist. cbn. lia.
    + by rewrite last_snoc.
    + unfold premises'. rewrite last_snoc. do 2 f_equal.
      unfold fb. rewrite get_feedback_self. unfold len. by rewrite Hslen.
    + by rewrite last_snoc.
    + lia.
  - assert (Hshrink : (length remaining' < length (Inference.remaining st))%nat).
    { unfold remaining'. destruct all_premises.
      - apply (length_filter_lt _ _ guess); [done|].
        intros Hall. unfold premises' in Hall.
        rewrite Forall_app, Forall_singleton in Hall.
        destruct Hall as [_ Hall]. cbn [fst snd] in Hall. apply Hnot. rewrite <- Hall.
        rewrite get_feedback_self. unfold len. by rewrite Hglen.
      - apply (length_filter_lt _ _ guess); [done|].
        intros Hself. apply Hnot. rewrite <- Hself.
        rewrite get_feedback_self. unfold len. by rewrite Hglen. }
    assert (Hne : bool_decide (remaining' = []) = false).
    { apply bool_decide_eq_false. intros Heq. rewrite Heq in Hsec'.
      by apply elem_of_nil in Hsec'. }
    rewrite Hne, andb_false_r.
    unfold inference_inv. cbn. split_and!; try done.
    + intros Hin. rewrite !elem_of_app, !list_elem_of_singleton in Hin.
      by destruct Hin as [?|?].
    + rewrite length_app, Hhist. cbn. lia.
    + lia.
Qed.

Lemma inference_step_inv st :
  inference_inv secret pegs N st →
  inference_inv secret pegs N (Inference.step secret pegs num_initial_guesses st).
Proof.
  intros Hinv. unfold Inference.step.
  destruct (Inference.halted st) eqn:Hhalt; [done|].
  assert (Hne : Inference.remaining st ≠ []).
  { destruct Hinv as [Hsec _]. intros Heq. rewrite Heq in Hsec.
    by apply elem_of_nil in Hsec. }
  destruct (decide _).
  - unfold Inference.explore_turn.
    destruct (random_choice_ok (Inference.remaining st) (Inference.gen st) Hne)
      as (guess & -> & Hguess).
    by apply observe_inv.
  - destruct (Inference.remaining st) eqn:Hrem; [done|]. rewrite <- Hrem in *.
    unfold Inference.infer_turn.
    destruct (select_best_first_min (Inference.premises st) (Inference.remaining st) Hne)
      as (i & best & -> & Hi & _).
    apply observe_inv; [done..|]. by apply list_elem_of_lookup_2 in Hi.
Qed.

Lemma inference_run_inv g n :
  inference_inv secret pegs N
    (Inference.run secret pegs colors_list num_initial_guesses g n).
Proof.
  induction n as [|n IH]; [apply inference_init_inv|].
  unfold Inference.run in *. cbn [Nat.iter]. by apply inference_step_inv.
Qed.
End inference_runs.


(** ** The clause filter on the literals the solver derives *)

Lemma product_colours colors_list pegs c :
  c ∈ product colors_list pegs → Forall (λ x, x ∈ colors_list) c.
Proof.
  revert c. induction pegs as [|pegs IH]; intros c; cbn [product].
  - by intros ->%list_elem_of_singleton.
  - rewrite list_elem_of_bind. intros (x & Hc & Hx).
    apply list_elem_of_fmap in Hc. destruct Hc as (c' & -> & Hc').
    constructor; [done|by apply IH].
Qed.

(** Every literal that [derive_simple_cnf_constraints] can write is read
    back as the position and colour it was written from. *)
Lemma parse_negative_literal (i : nat) (col : string) :
  (i < PEGS)%nat → col ∈ COLORS →
  ∃ pos_literal,
    CNF.after_tilde (CNF.negative_literal i col) = Some pos_literal ∧
    CNF.parse_atom pos_literal = Some (Z.of_nat i + 1, col).
Proof.
  unfold PEGS, COLORS. intros Hi Hcol.
  repeat (apply elem_of_cons in Hcol; destruct Hcol as [->|Hcol]);
    [..|by apply elem_of_nil in Hcol];
    (destruct i as [|[|[|[|[|i]]]]]; [..|lia]);
    (eexists; split; [reflexivity|vm_compute; reflexivity]).
Qed.

Lemma py_index_nat {A} (t : list A) (i : nat) :
  py_index t (Z.of_nat i + 1 - 1) = t !! i.
Proof.
  unfold py_index. rewrite decide_True by lia. f_equal. lia.
Qed.

Lemma eval_negative_literal code i col x :
  (i < PEGS)%nat → col ∈ COLORS → code !! i = Some x →
  CNF.eval_literal code (CNF.negative_literal i col) = Ok (Some (bool_decide (x ≠ col))).
Proof.
  intros Hi Hcol Hx.
  destruct (parse_negative_literal i col Hi Hcol) as (pos & Htilde & Hparse).
  unfold CNF.eval_literal. rewrite Htilde, Hparse, py_index_nat, Hx. done.
Qed.

Lemma clause_satisfied_derived secret code c :
  derived_clause secret c → length code = PEGS →
  ∃ b, CNF.clause_satisfied code c = Ok b.
Proof.
  intros (i & col & -> & Hi & Hcol & _) Hlen.
  destruct (lookup_lt_is_Some_2 code i ltac:(lia)) as [x Hx].
  cbn [CNF.clause_satisfied]. rewrite (eval_negative_literal code i col x) by done.
  cbn [bind_result]. destruct (bool_decide _); eauto.
Qed.

Lemma clause_satisfied_secret secret c :
  derived_clause secret c → length secret = PEGS →
  CNF.clause_satisfied secret c = Ok true.
Proof.
  intros (i & col & -> & Hi & Hcol & Hne) Hlen.
  destruct (lookup_lt_is_Some_2 secret i ltac:(lia)) as [x Hx].
  cbn [CNF.clause_satisfied]. rewrite (eval_negative_literal secret i col x) by done.
  cbn [bind_result]. rewrite bool_decide_eq_true_2; [done|].
  intros ->. by rewrite Hx in Hne.
Qed.

Lemma code_satisfies_cnf_derived secret code cnf :
  Forall (derived_clause secret) cnf → length code = PEGS →
  ∃ b, CNF.code_satisfies_cnf code cnf = Ok b.
Proof.
  intros Hcnf Hlen. induction Hcnf as [|c cnf Hc _ IH]; cbn [CNF.code_satisfies_cnf].
  - eauto.
  - destruct (clause_satisfied_derived secret code c Hc Hlen) as [b ->].
    cbn [bind_result]. destruct b; eauto.
Qed.

Lemma code_satisfies_cnf_secret secret cnf :
  Forall (derived_clause secret) cnf → length secret = PEGS →
  CNF.code_satisfies_cnf secret cnf = Ok true.
Proof.
  intros Hcnf Hlen. induction Hcnf as [|c cnf Hc _ IH]; cbn [CNF.code_satisfies_cnf].
  - done.
  - by rewrite (clause_satisfied_secret secret c Hc Hlen).
Qed.

(** Filtering by derived clauses raises nothing and keeps the secret. *)
Lemma filter_cnf_derived secret cnf codes :
  Forall (derived_clause secret) cnf → length secret = PEGS →
  (∀ c, c ∈ codes → length c = PEGS) →
  ∃ kept, CNF.filter_cnf cnf codes = Ok kept ∧ (secret ∈ codes → secret ∈ kept).
Proof.
  intros Hcnf Hslen. induction codes as [|code codes IH]; intros Hlen;
    cbn [CNF.filter_cnf].
  - eauto.
  - destruct IH as (kept & -> & Hkeep). { intros c Hc. apply Hlen. by right. }
    destruct (code_satisfies_cnf_derived secret code cnf Hcnf) as [b Hb].
    { apply Hlen. left. }
    rewrite Hb. cbn [bind_result]. eexists. split; [done|].
    intros [->|Hin]%elem_of_cons.
    + rewrite code_satisfies_cnf_secret in Hb by done. injection Hb as <-. left.
    + destruct b; [right|]; by apply Hkeep.
Qed.

(** With no black peg the two codes differ at every position. *)
Lemma black_pegs_zero secret guess i x y :
  black_pegs secret guess = 0 → secret !! i = Some x → guess !! i = Some y → x ≠ y.
Proof.
  revert guess i. induction secret as [|s secret IH]; intros [|g guess] i; try done.
  rewrite black_pegs_cons. pose proof (black_pegs_bounds secret guess) as Hb.
  destruct i as [|i]; cbn [lookup list_lookup].
  - intros H0 [= ->] [= ->]. destruct (decide (x = y)); [lia|done].
  - intros H0. apply IH. destruct (decide (s = g)); lia.
Qed.

Lemma position_clauses_derived secret guess positions :
  black_pegs secret guess = 0 →
  Forall (λ x, x ∈ COLORS) guess →
  (∀ i, i ∈ positions → (i < PEGS)%nat ∧ (i < length guess)%nat) →
  ∃ clauses, CNF.position_clauses guess positions = Ok clauses ∧
             Forall (derived_clause secret) clauses.
Proof.
  intros Hblack Hcols. induction positions as [|i positions IH]; intros Hpos;
    cbn [CNF.position_clauses].
  - eauto.
  - destruct (Hpos i ltac:(left)) as [Hi Hig].
    destruct (lookup_lt_is_Some_2 guess i Hig) as [col Hcol]. rewrite Hcol.
    destruct IH as (clauses & -> & Hcl). { intros j Hj. apply Hpos. by right. }
    cbn [bind_result]. eexists. split; [done|]. constructor; [|done].
    exists i, col. split_and!; [done|done| |].
    + rewrite Forall_forall in Hcols. apply Hcols. by apply list_elem_of_lookup_2 in Hcol.
    + destruct (secret !! i) as [x|] eqn:Hx; [|done].
      intros [= ->]. by eapply black_pegs_zero.
Qed.

Lemma derive_derived secret guess :
  guess ∈ product COLORS PEGS →
  ∃ clauses,
    CNF.derive_simple_cnf_constraints guess (get_feedback secret guess) = Ok clauses ∧
    Forall (derived_clause secret) clauses.
Proof.
  intros Hguess. unfold CNF.derive_simple_cnf_constraints, get_feedback.
  destruct (decide (black_pegs secret guess = 0)) as [Hz|Hnz]; [|eauto].
  apply position_clauses_derived; [done|by eapply product_colours|].
  intros i Hi. apply elem_of_seq in Hi. apply product_length in Hguess. lia.
Qed.


(** ** Runs of [logical_inference_solver_CNF] on a secret of the code space *)

Section cnf_runs.
Variables (secret : Code) (num_initial_guesses : nat).
Hypothesis secret_valid : secret ∈ product COLORS PEGS.

Lemma cnf_init_inv g : cnf_inv secret (CNF.init g).
Proof.
  unfold cnf_inv. cbn [CNF.init CNF.remaining CNF.premises CNF.cnf_premises
                       CNF.output CNF.halted].
  split_and!; [done|done|done|done|apply not_elem_of_nil|done].
Qed.

Lemma cnf_play_inv last_phase st :
  cnf_inv secret st → cnf_inv secret (CNF.play secret last_phase st).
Proof.
  intros (Hsec & Hcodes & Hprem & Hcnf & Hout & Hexn).
  pose proof (product_length _ _ _ secret_valid) as Hslen.
  assert (Hne : CNF.remaining st ≠ []).
  { intros Heq. rewrite Heq in Hsec. by apply elem_of_nil in Hsec. }
  unfold CNF.play.
  destruct (random_choice_ok (CNF.remaining st) (CNF.gen st) Hne)
    as (guess & -> & Hguess).
  assert (Hout' : ∀ ev, ev ≠ PrintNoCandidates →
            PrintNoCandidates ∉ CNF.output st ++ [ev]).
  { intros ev Hev Hin. rewrite elem_of_app, list_elem_of_singleton in Hin.
    destruct Hin; [done|congruence]. }
  destruct (decide _) as [Hsolved|Hnot].
  { unfold cnf_inv. cbn. split_and!; try done.
    intros Hin. rewrite elem_of_app, list_elem_of_singleton in Hin.
    destruct Hin as [Hin|?]; [|done]. revert Hin. by apply Hout'. }
  destruct (derive_derived secret guess (Hcodes guess Hguess))
    as (new_clauses & -> & Hnew).
  set (fb := get_feedback secret guess).
  set (premises' := CNF.premises st ++ [(guess, fb)]).
  set (by_premises := filter _ (CNF.remaining st)).
  assert (Hprem' : Forall (λ p, get_feedback secret p.1 = p.2) premises').
  { apply Forall_app. split; [done|]. by apply Forall_singleton. }
  assert (Hcnf' : Forall (derived_clause secret) (CNF.cnf_premises st ++ new_clauses)).
  { by apply Forall_app. }
  assert (Hby : secret ∈ by_premises) by (by apply list_elem_of_filter).
  destruct (filter_cnf_derived secret (CNF.cnf_premises st ++ new_clauses)
              by_premises Hcnf' Hslen) as (kept & Hfilter & Hkept).
  { intros c [_ Hc]%list_elem_of_filter. eapply product_length, Hcodes, Hc. }
  rewrite Hfilter. specialize (Hkept Hby).
  assert (Hsub : ∀ c, c ∈ kept → c ∈ product COLORS PEGS).
  { intros c Hc. apply filter_cnf_sublist in Hfilter.
    eapply elem_of_sublist in Hc; [|done].
    apply list_elem_of_filter in Hc as [_ Hc]. by apply Hcodes. }
  rewrite (bool_decide_eq_false_2 (kept = [])), andb_false_r.
  - unfold cnf_inv. cbn. split_and!; try done. by apply Hout'.
  - intros Heq. rewrite Heq in Hkept. by apply elem_of_nil in Hkept.
Qed.

Lemma cnf_step_inv st :
  cnf_inv secret st → cnf_inv secret (CNF.step secret num_initial_guesses st).
Proof.
  intros Hinv. unfold CNF.step.
  destruct (CNF.halted st) eqn:Hhalt; [done|].
  assert (Hne : CNF.remaining st ≠ []).
  { destruct Hinv as [Hsec _]. intros Heq. rewrite Heq in Hsec.
    by apply elem_of_nil in Hsec. }
  destruct (decide _); (destruct (CNF.remaining st) eqn:Hrem; [done|]);
    rewrite <- Hrem in *; by apply cnf_play_inv.
Qed.

Lemma cnf_run_inv g n : cnf_inv secret (CNF.run secret num_initial_guesses g n).
Proof.
  induction n as [|n IH]; [apply cnf_init_inv|].
  unfold CNF.run in *. cbn [Nat.iter]. by apply cnf_step_inv.
Qed.
End cnf_runs.

(** ** Runs of [mastermind_minimax_solver] on a secret of the code space *)

Lemma remove_first_other x y l : y ∈ l → y ≠ x → y ∈ Minimax.remove_first x l.
Proof.
  intros Hin Hne. induction l as [|z l IH]; cbn [Minimax.remove_first]; [done|].
  apply elem_of_cons in Hin.
  destruct (decide (z = x)) as [->|Hzx].
  - destruct Hin as [->|Hin]; done.
  - destruct Hin as [->|Hin]; [left|right; by apply IH].
Qed.

Section minimax_runs.
Variables (secret : Code) (pegs : nat) (colors_list : list string).
Hypothesis secret_valid : secret ∈ product colors_list pegs.

Lemma minimax_init_inv : minimax_inv secret pegs colors_list (Minimax.init pegs colors_list).
Proof.
  unfold minimax_inv, Minimax.init, Minimax.all_codes. cbn.
  split_and!; [done|done|apply not_elem_of_nil|].
  intros e. destruct (decide _); [done|].
  destruct (product colors_list pegs); [by apply elem_of_nil in secret_valid|done].
Qed.

Lemma minimax_choose_ok st turn' :
  minimax_inv secret pegs colors_list st →
  ∃ guess, Minimax.choose pegs colors_list st turn' = Ok guess.
Proof.
  intros (Hsec & Hsub & _). unfold Minimax.choose.
  destruct (decide _); [eauto|].
  destruct (minimax_guess_characterised (Minimax.remaining st)
              (Minimax.all_codes pegs colors_list)) as (g & -> & _); [|done|].
  - intros Heq. rewrite Heq in Hsec. by apply elem_of_nil in Hsec.
  - cbn [bind_result]. eauto.
Qed.

Lemma minimax_play_inv st :
  minimax_inv secret pegs colors_list st →
  minimax_inv secret pegs colors_list (Minimax.play secret pegs colors_list st).
Proof.
  intros Hinv. destruct (minimax_choose_ok st (S (Minimax.turn st)) Hinv) as [guess Hg].
  destruct Hinv as (Hsec & Hsub & Hout & Hexn).
  pose proof (product_length _ _ _ secret_valid) as Hslen.
  unfold Minimax.play. rewrite Hg.
  set (feedback := get_feedback secret guess).
  destruct (decide _) as [Hsolved|Hnot].
  { unfold minimax_inv, Minimax.finish. cbn. split_and!; try done.
    intros Hin. rewrite elem_of_app, !elem_of_cons in Hin.
    destruct Hin as [?|[?|[?|Hin]]]; try done. by apply elem_of_nil in Hin. }
  set (new_remaining := filter _ (Minimax.remaining st)).
  set (stalled := bool_decide (length new_remaining = length (Minimax.remaining st))).
  set (remaining' := if stalled then _ else new_remaining).
  assert (Hne : guess ≠ secret).
  { intros ->. apply Hnot. unfold feedback.
    rewrite get_feedback_self. unfold len. by rewrite Hslen. }
  assert (Hsec' : secret ∈ remaining').
  { unfold remaining'. destruct stalled.
    - destruct (decide _); [|done]. by apply remove_first_other.
    - by apply list_elem_of_filter. }
  assert (Hsub' : remaining' ⊆ Minimax.all_codes pegs colors_list).
  { intros c Hc. apply Hsub. unfold remaining' in Hc. destruct stalled.
    - destruct (decide _); [|done].
      eapply elem_of_sublist; [done|apply remove_first_sublist].
    - by apply list_elem_of_filter in Hc as [_ Hc]. }
  rewrite (bool_decide_eq_false_2 (remaining' = [])).
  - unfold minimax_inv. cbn. split_and!; try done.
    intros Hin. rewrite elem_of_app, elem_of_cons in Hin.
    destruct Hin as [?|[?|Hin]]; try done.
    destruct stalled; [|by apply elem_of_nil in Hin].
    by apply list_elem_of_singleton in Hin.
  - intros Heq. rewrite Heq in Hsec'. by apply elem_of_nil in Hsec'.
Qed.

Lemma minimax_step_inv st :
  minimax_inv secret pegs colors_list st →
  minimax_inv secret pegs colors_list (Minimax.step secret pegs colors_list st).
Proof.
  intros Hinv. unfold Minimax.step.
  destruct (Minimax.halted st) eqn:Hhalt; [done|].
  destruct (Minimax.remaining st) eqn:Hrem.
  - destruct Hinv as [Hsec _]. rewrite Hrem in Hsec. by apply elem_of_nil in Hsec.
  - by apply minimax_play_inv.
Qed.

Lemma minimax_run_inv n :
  minimax_inv secret pegs colors_list (Minimax.run secret pegs colors_list n).
Proof.
  induction n as [|n IH]; [apply minimax_init_inv|].
  unfold Minimax.run in *. cbn [Nat.iter]. by apply minimax_step_inv.
Qed.
End minimax_runs.


(** ** The secret is never filtered out *)

(** C10: when the secret is a code of the code space, then after any number
    of turns of any of the three solvers the secret is still in
    [remaining] (the premise filter, the clause filter and the forced
    removal all keep it), so [remaining] is not empty when the next guess
    is chosen, no run raises, and "No candidates remain" is never
    printed. *)
Theorem secret_stays_candidate (secret : Code) (pegs : nat) (colors_list : list string)
    (num_initial_guesses : nat) (g : rng) (k : nat) :
  secret ∈ product colors_list pegs →
  (let st := Inference.run secret pegs colors_list num_initial_guesses g k in
   secret ∈ Inference.remaining st ∧ Inference.remaining st ≠ [] ∧
   (PrintNoCandidates ∉ Inference.output st) ∧
   ∀ e, Inference.halted st ≠ Some (Raise e)) ∧
  (let st := Minimax.run secret pegs colors_list k in
   secret ∈ Minimax.remaining st ∧ Minimax.remaining st ≠ [] ∧
   (PrintNoCandidates ∉ Minimax.output st) ∧
   ∀ e, Minimax.halted st ≠ Some (Raise e)) ∧
  (pegs = PEGS → colors_list = COLORS →
   let st := CNF.run secret num_initial_guesses g k in
   secret ∈ CNF.remaining st ∧ CNF.remaining st ≠ [] ∧
   (PrintNoCandidates ∉ CNF.output st) ∧
   ∀ e, CNF.halted st ≠ Some (Raise e)).
Proof.
  intros Hvalid.
  assert (Hne : ∀ l : list Code, secret ∈ l → l ≠ []).
  { intros l Hin ->. by apply elem_of_nil in Hin. }
  split_and!.
  - destruct (inference_run_inv secret pegs colors_list num_initial_guesses Hvalid g k)
      as (Hsec & _ & _ & Hout & _ & Hhalt).
    cbn zeta. split_and!; [done|by apply Hne|done|].
    intros e He. rewrite He in Hhalt. by destruct Hhalt as [[=] _].
  - destruct (minimax_run_inv secret pegs colors_list Hvalid k)
      as (Hsec & _ & Hout & Hexn).
    cbn zeta. split_and!; [done|by apply Hne|done|done].
  - intros -> ->.
    destruct (cnf_run_inv secret num_initial_guesses Hvalid g k)
      as (Hsec & _ & _ & _ & Hout & Hexn).
    cbn zeta. split_and!; [done|by apply Hne|done|done].
Qed.

Lemma secret_stays_candidate_witness :
  (let st := Inference.run ["pink"; "red"; "blue"; "blue"; "brown"] 5 COLORS 3
               one_then_zero 4 in
   ["pink"; "red"; "blue"; "blue"; "brown"] ∈ Inference.remaining st ∧
   Inference.remaining st ≠ [] ∧
   (PrintNoCandidates ∉ Inference.output st) ∧
   ∀ e, Inference.halted st ≠ Some (Raise e)) ∧
  (let st := Minimax.run ["pink"; "red"; "blue"; "blue"; "brown"] 5 COLORS 4 in
   ["pink"; "red"; "blue"; "blue"; "brown"] ∈ Minimax.remaining st ∧
   Minimax.remaining st ≠ [] ∧
   (PrintNoCandidates ∉ Minimax.output st) ∧
   ∀ e, Minimax.halted st ≠ Some (Raise e)) ∧
  (5%nat = PEGS → COLORS = COLORS →
   let st := CNF.run ["pink"; "red"; "blue"; "blue"; "brown"] 3 one_then_zero 4 in
   ["pink"; "red"; "blue"; "blue"; "brown"] ∈ CNF.remaining st ∧
   CNF.remaining st ≠ [] ∧
   (PrintNoCandidates ∉ CNF.output st) ∧
   ∀ e, CNF.halted st ≠ Some (Raise e)).
Proof.
  apply (secret_stays_candidate ["pink"; "red"; "blue"; "blue"; "brown"] 5 COLORS 3
           one_then_zero 4).
  apply (bool_decide_unpack _). vm_compute. exact I.
Defined.


(** ** Termination of [logical_inference_solver] *)

Lemma observe_turn secret pegs all_premises st g' guess :
  Inference.turn (Inference.observe secret pegs all_premises st g' guess)
  = S (Inference.turn st).
Proof.
  unfold Inference.observe.
  destruct (decide _); [done|]. by destruct (_ && _).
Qed.

Lemma inference_step_halted secret pegs n st r :
  Inference.halted st = Some r → Inference.step secret pegs n st = st.
Proof. intros H. unfold Inference.step. by rewrite H. Qed.

(** A step that leaves the run going has played one turn. *)
Lemma inference_step_running secret pegs n st :
  Inference.halted (Inference.step secret pegs n st) = None →
  Inference.halted st = None ∧
  Inference.turn (Inference.step secret pegs n st) = S (Inference.turn st).
Proof.
  unfold Inference.step.
  destruct (Inference.halted st) eqn:Hhalt; [by rewrite Hhalt|]. intros Hrun.
  split; [done|]. revert Hrun.
  destruct (decide _).
  - unfold Inference.explore_turn.
    destruct (random_choice _ _) as [[guess|e] g']; [|done].
    by rewrite observe_turn.
  - destruct (Inference.remaining st); [done|].
    unfold Inference.infer_turn.
    destruct (Inference.select_best _ _ _ _); [by rewrite observe_turn|].
    destruct (random_choice _ _) as [[guess|e] g']; [|done].
    by rewrite observe_turn.
Qed.

Section inference_termination.
Variables (secret : Code) (pegs : nat) (colors_list : list string)
          (num_initial_guesses : nat) (g : rng).

Let run := Inference.run secret pegs colors_list num_initial_guesses g.

Lemma inference_run_S n :
  run (S n) = Inference.step secret pegs num_initial_guesses (run n).
Proof. done. Qed.

Lemma inference_run_stable n m r :
  Inference.halted (run n) = Some r → (n ≤ m)%nat → run m = run n.
Proof.
  intros Hhalt. induction 1 as [|m _ IH]; [done|].
  rewrite inference_run_S, IH. by eapply inference_step_halted.
Qed.

Lemma inference_run_turn n :
  Inference.halted (run n) = None → Inference.turn (run n) = n.
Proof.
  induction n as [|n IH]; [done|].
  rewrite inference_run_S. intros [Hprev ->]%inference_step_running.
  by rewrite IH.
Qed.

Hypothesis secret_valid : secret ∈ product colors_list pegs.

(** The run has returned after as many steps as there are codes. *)
Lemma inference_run_halts :
  ∃ r, Inference.halted (run (length (product colors_list pegs))) = Some r.
Proof.
  set (N := length (product colors_list pegs)).
  pose proof (inference_run_inv secret pegs colors_list num_initial_guesses
                secret_valid g N) as (Hsec & _ & _ & _ & _ & Hrun).
  fold run in Hsec, Hrun.
  destruct (Inference.halted (run N)) as [r|] eqn:Hhalt; [eauto|].
  apply inference_run_turn in Hhalt. fold N in Hrun. rewrite Hhalt in Hrun.
  destruct (Inference.remaining (run N)); [by apply elem_of_nil in Hsec|].
  cbn [length] in Hrun. lia.
Qed.

(** On a secret of the code space [logical_inference_solver] returns,
    whatever the generator draws; the returned history ends with the
    secret, has at most [len(colors_list) ** pegs] entries, the last
    premise recorded is the secret with feedback [(pegs, 0)], and the last
    line printed is the success line. *)
Lemma logical_inference_solver_solves :
  ∃ history out g',
    Inference.logical_inference_solver secret pegs colors_list num_initial_guesses g
      = (Some (Ok history), out, g') ∧
    last history = Some secret ∧
    (length history ≤ length colors_list ^ pegs)%nat ∧
    last out = Some (PrintFound (length history)).
Proof.
  destruct inference_run_halts as [r Hhalt].
  unfold Inference.logical_inference_solver. fold run.
  rewrite (inference_run_stable _ (Inference.fuel pegs colors_list num_initial_guesses)
             r Hhalt) by (unfold Inference.fuel; lia).
  pose proof (inference_run_inv secret pegs colors_list num_initial_guesses
                secret_valid g (length (product colors_list pegs)))
    as (_ & _ & _ & _ & Hhist & Hrun).
  fold run in Hhist, Hrun. rewrite Hhalt in *.
  destruct Hrun as (-> & Hlast & _ & Hout & Hturn).
  eexists _, _, _. split; [done|].
  rewrite Hhist, <- product_size. done.
Qed.
End inference_termination.


(** ** The opening guess of [mastermind_minimax_solver] *)

(** C2, at the inputs where the code departs from it. The opening guess is
    the fixed five-peg code even when it is not a code of the space being
    searched. With [pegs = 2] and the single colour red, the secret
    (red, red) is valid, the run stops after one turn reporting success,
    and the history ends with the five-peg opening guess, not with the
    secret. With [pegs = 1] and the single colour a, the code space has
    [1 ** 1 = 1] code and the run takes two turns. *)
Theorem minimax_opening_guess_outside_code_space :
  (["red"; "red"] ∈ product ["red"] 2 ∧
   Minimax.mastermind_minimax_solver ["red"; "red"] 2 ["red"]
   = (Some (Ok [["red"; "red"; "yellow"; "green"; "blue"]]),
      [PrintTurn 1 ["red"; "red"; "yellow"; "green"; "blue"] (2, 0); PrintFound 1]) ∧
   last [["red"; "red"; "yellow"; "green"; "blue"]] ≠ Some ["red"; "red"]) ∧
  (["a"] ∈ product ["a"] 1 ∧
   Minimax.mastermind_minimax_solver ["a"] 1 ["a"]
   = (Some (Ok [["red"; "red"; "yellow"; "green"; "blue"]; ["a"]]),
      [PrintTurn 1 ["red"; "red"; "yellow"; "green"; "blue"] (0, 0); PrintNoProgress;
       PrintTurn 2 ["a"] (1, 0); PrintFound 2]) ∧
   (length ["a"] ^ 1 < 2)%nat).
Proof.
  split_and!.
  - apply (bool_decide_unpack _). vm_compute. exact I.
  - vm_compute. reflexivity.
  - discriminate.
  - apply (bool_decide_unpack _). vm_compute. exact I.
  - vm_compute. reflexivity.
  - cbn. lia.
Qed.


(** ** What a caller learns when the candidates run out *)

(** C7 fails: the solvers return the guess history and nothing else. On
    the secret (a) and on the string (z), which is no code of the space,
    [logical_inference_solver] with one exploratory turn returns the same
    list; in the second run the candidate list has become empty and nothing
    at all is printed about it. [mastermind_minimax_solver] likewise
    returns the same list for both runs, which differ in the lines printed
    and not in the value returned. *)
Lemma exhausted_run_returns_like_solved :
  Inference.logical_inference_solver ["a"] 1 ["a"] 1 one_then_zero
  = (Some (Ok [["a"]]), [PrintTurn 1 ["a"] (1, 0); PrintFound 1],
     {| tape := tape one_then_zero; cursor := 1 |}) ∧
  Inference.logical_inference_solver ["z"] 1 ["a"] 1 one_then_zero
  = (Some (Ok [["a"]]), [PrintTurn 1 ["a"] (0, 0)],
     {| tape := tape one_then_zero; cursor := 1 |}) ∧
  Inference.remaining
    (Inference.run ["z"] 1 ["a"] 1 one_then_zero (Inference.fuel 1 ["a"] 1)) = [] ∧
  (Minimax.mastermind_minimax_solver ["a"] 1 ["a"]).1
  = (Minimax.mastermind_minimax_solver ["z"] 1 ["a"]).1 ∧
  Minimax.remaining (Minimax.run ["z"] 1 ["a"] (Minimax.fuel 1 ["a"])) = [].
Proof. split_and!; vm_compute; reflexivity. Qed.

Lemma inference_step_history_ok secret pegs n st :
  history_ok (Inference.guess_history st) (Inference.turn st) (Inference.halted st) →
  let st' := Inference.step secret pegs n st in
  history_ok (Inference.guess_history st') (Inference.turn st') (Inference.halted st').
Proof.
  intros Hok. cbn zeta. unfold Inference.step.
  destruct (Inference.halted st) eqn:Hhalt; [by rewrite Hhalt|].
  cbn [history_ok] in Hok.
  assert (Hobs : ∀ b g' guess,
    let st' := Inference.observe secret pegs b st g' guess in
    history_ok (Inference.guess_history st') (Inference.turn st') (Inference.halted st')).
  { intros b g' guess. cbn zeta. unfold Inference.observe.
    destruct (decide _); [|destruct (_ && _)]; cbn;
      rewrite ?length_app, ?Hok; cbn; (split; [done|lia]) || lia. }
  destruct (decide _).
  - unfold Inference.explore_turn.
    destruct (random_choice _ _) as [[guess|e] g']; [apply Hobs|done].
  - destruct (Inference.remaining st); [done|].
    unfold Inference.infer_turn.
    destruct (Inference.select_best _ _ _ _); [apply Hobs|].
    destruct (random_choice _ _) as [[guess|e] g']; [apply Hobs|done].
Qed.

Lemma minimax_step_history_ok secret pegs colors_list st :
  history_ok (Minimax.guess_history st) (Minimax.turn st) (Minimax.halted st) →
  let st' := Minimax.step secret pegs colors_list st in
  history_ok (Minimax.guess_history st') (Minimax.turn st') (Minimax.halted st').
Proof.
  intros Hok. cbn zeta. unfold Minimax.step.
  destruct (Minimax.halted st) eqn:Hhalt; [by rewrite Hhalt|].
  cbn [history_ok] in Hok.
  destruct (Minimax.remaining st) eqn:Hrem; [done|]. clear Hrem.
  unfold Minimax.play.
  destruct (Minimax.choose _ _ _ _) as [guess|e]; [|done].
  destruct (decide _); [|destruct (bool_decide (_ = []))]; cbn;
    rewrite ?length_app, ?Hok; cbn; (split; [done|lia]) || lia.
Qed.

(** A turn of the scored phase that empties the candidate list without
    finding the secret prints the line and returns the history. *)
Lemma inference_exhausted_turn secret pegs n st :
  Inference.halted st = None → (n ≤ Inference.turn st)%nat →
  Inference.remaining st ≠ [] →
  let st' := Inference.step secret pegs n st in
  Inference.remaining st' = [] →
  last (Inference.output st') ≠ Some (PrintFound (Inference.turn st')) →
  Inference.halted st' = Some (Ok (Inference.guess_history st')) ∧
  last (Inference.output st') = Some PrintNoCandidates.
Proof.
  intros Hhalt Hphase Hne. cbn zeta. unfold Inference.step. rewrite Hhalt.
  rewrite decide_False by lia.
  destruct (Inference.remaining st) eqn:Hrem; [done|]. rewrite <- Hrem in *. clear Hrem.
  unfold Inference.infer_turn.
  destruct (select_best_first_min (Inference.premises st) (Inference.remaining st) Hne)
    as (i & best & -> & _).
  unfold Inference.observe.
  destruct (decide _).
  - cbn. rewrite last_snoc. done.
  - cbn [andb]. destruct (bool_decide _) eqn:Hempty; cbn.
    + by rewrite last_snoc.
    + intros Hnil. apply bool_decide_eq_false in Hempty. done.
Qed.

Lemma minimax_exhausted_turn secret pegs colors_list st :
  Minimax.halted st = None → Minimax.remaining st ≠ [] →
  let st' := Minimax.step secret pegs colors_list st in
  Minimax.remaining st' = [] →
  Minimax.halted st' = Some (Ok (Minimax.guess_history st')) ∧
  last (Minimax.output st') = Some PrintNoCandidates.
Proof.
  intros Hhalt Hne. cbn zeta. unfold Minimax.step. rewrite Hhalt.
  destruct (Minimax.remaining st) eqn:Hrem; [done|]. rewrite <- Hrem in *. clear Hrem.
  unfold Minimax.play.
  destruct (Minimax.choose _ _ _ _) as [guess|e]; [|done].
  destruct (decide _); [done|].
  destruct (bool_decide (_ = [])) eqn:Hempty; cbn.
  - by rewrite last_snoc.
  - intros Hnil. apply bool_decide_eq_false in Hempty. done.
Qed.

(** C7 as the code has it: a solver returns its guess history alone, one
    entry per turn played, with no status tag. When a turn of the scored
    phase of [logical_inference_solver], or of the loop of
    [mastermind_minimax_solver], empties the candidate list without finding
    the secret, the run prints "No candidates remain", stops, and returns
    the history. *)
Theorem exhausted_run_prints_and_returns_history
    (secret : Code) (pegs num_initial_guesses : nat) (colors_list : list string)
    (g : rng) (k : nat) :
  (let st := Inference.run secret pegs colors_list num_initial_guesses g k in
   history_ok (Inference.guess_history st) (Inference.turn st) (Inference.halted st)) ∧
  (let st := Minimax.run secret pegs colors_list k in
   history_ok (Minimax.guess_history st) (Minimax.turn st) (Minimax.halted st)) ∧
  (∀ st : Inference.state,
     Inference.halted st = None → (num_initial_guesses ≤ Inference.turn st)%nat →
     Inference.remaining st ≠ [] →
     let st' := Inference.step secret pegs num_initial_guesses st in
     Inference.remaining st' = [] →
     last (Inference.output st') ≠ Some (PrintFound (Inference.turn st')) →
     Inference.halted st' = Some (Ok (Inference.guess_history st')) ∧
     last (Inference.output st') = Some PrintNoCandidates) ∧
  (∀ st : Minimax.state,
     Minimax.halted st = None → Minimax.remaining st ≠ [] →
     let st' := Minimax.step secret pegs colors_list st in
     Minimax.remaining st' = [] →
     Minimax.halted st' = Some (Ok (Minimax.guess_history st')) ∧
     last (Minimax.output st') = Some PrintNoCandidates).
Proof.
  split_and!.
  - induction k as [|k IH]; [done|].
    apply (inference_step_history_ok secret pegs num_initial_guesses) in IH. apply IH.
  - induction k as [|k IH].
    + cbn. unfold Minimax.init. cbn. destruct (decide _); [done|].
      by destruct (Minimax.all_codes pegs colors_list).
    + apply (minimax_step_history_ok secret pegs colors_list) in IH. apply IH.
  - apply inference_exhausted_turn.
  - apply minimax_exhausted_turn.
Qed.

Lemma exhausted_run_prints_and_returns_history_witness :
  (let st' := Inference.step ["z"] 1 0 (Inference.init 1 ["a"] one_then_zero) in
   Inference.halted st' = Some (Ok (Inference.guess_history st')) ∧
   last (Inference.output st') = Some PrintNoCandidates) ∧
  (let st' := Minimax.step ["z"] 1 ["a"] (Minimax.run ["z"] 1 ["a"] 1) in
   Minimax.halted st' = Some (Ok (Minimax.guess_history st')) ∧
   last (Minimax.output st') = Some PrintNoCandidates).
Proof.
  destruct (exhausted_run_prints_and_returns_history ["z"] 1 0 ["a"] one_then_zero 0)
    as (_ & _ & Hinference & Hminimax).
  split.
  - apply Hinference.
    + reflexivity.
    + vm_compute. lia.
    + vm_compute. discriminate.
    + vm_compute. reflexivity.
    + vm_compute. discriminate.
  - apply Hminimax.
    + vm_compute. reflexivity.
    + vm_compute. discriminate.
    + vm_compute. reflexivity.
Defined.


(** ** The text of a literal, written and read back *)

Lemma list_ascii_of_string_app (s t : string) :
  list_ascii_of_string (s ++ t)%string = list_ascii_of_string s ++ list_ascii_of_string t.
Proof. induction s as [|a s IH]; [done|]. simpl. by f_equal. Qed.

Lemma digit_char_facts (a : ascii) :
  is_Some (CNF.digit a) →
  a ≠ ","%char ∧ a ≠ "-"%char ∧ a ≠ "+"%char ∧ a ≠ "_"%char ∧
  CNF.is_space a = false.
Proof.
  destruct a as [[] [] [] [] [] [] [] []]; vm_compute; intros [k Hk];
    try discriminate; by split_and!.
Qed.

Lemma digits_step acc after (a : ascii) (k : Z) s :
  a ≠ "_"%char → CNF.digit a = Some k →
  CNF.digits acc after (a :: s) = CNF.digits (10 * acc + k) true s.
Proof.
  intros Hne Hk. cbn [CNF.digits]. by rewrite bool_decide_eq_false_2, Hk.
Qed.

Lemma uint_chars_digits (d : Decimal.uint) :
  Forall (λ a, is_Some (CNF.digit a))
         (list_ascii_of_string (NilEmpty.string_of_uint d)).
Proof.
  induction d; cbn [NilEmpty.string_of_uint list_ascii_of_string];
    [constructor|..]; (constructor; [by eexists|done]).
Qed.

Lemma digits_of_uint (d : Decimal.uint) (acc : nat) (after : bool) :
  after = true ∨ d ≠ Decimal.Nil →
  CNF.digits (Z.of_nat acc) after (list_ascii_of_string (NilEmpty.string_of_uint d))
  = Some (Z.of_nat (Nat.of_uint_acc d acc)).
Proof.
  revert acc after.
  induction d as [|d IH|d IH|d IH|d IH|d IH|d IH|d IH|d IH|d IH|d IH];
    intros acc after Hd;
    cbn [NilEmpty.string_of_uint list_ascii_of_string Nat.of_uint_acc].
  { destruct Hd as [->|Hd]; done. }
  all: erewrite digits_step; [|discriminate|vm_compute; reflexivity].
  all: etrans; [|apply (IH _ true); by left].
  all: f_equal; rewrite ?Nat2Z.inj_succ, Nat.tail_mul_spec; lia.
Qed.

Lemma to_uint_not_nil (n : nat) : Nat.to_uint n ≠ Decimal.Nil.
Proof.
  intros Hnil. pose proof (DecimalNat.Unsigned.of_to n) as Hn.
  rewrite Hnil in Hn. cbn in Hn. subst n. discriminate.
Qed.

Lemma lstrip_head drop (s : list ascii) :
  (∀ a, head s = Some a → drop a = false) → CNF.lstrip drop s = s.
Proof.
  destruct s as [|a s]; [done|]. intros Hhead. cbn [CNF.lstrip].
  by rewrite (Hhead a).
Qed.

Lemma head_rev {A} (s : list A) : head (rev s) = last s.
Proof.
  induction s as [|a s IH] using rev_ind; [done|].
  by rewrite rev_app_distr, last_snoc.
Qed.

(** [strip] leaves alone a string that neither begins nor ends with a
    character to drop. *)
Lemma strip_ends drop (s : list ascii) :
  (∀ a, head s = Some a → drop a = false) →
  (∀ a, last s = Some a → drop a = false) →
  CNF.strip drop s = s.
Proof.
  intros Hhead Hlast. unfold CNF.strip.
  rewrite (lstrip_head drop s) by done.
  rewrite lstrip_head; [apply rev_involutive|].
  intros a. rewrite head_rev. apply Hlast.
Qed.

Lemma py_int_unsigned (s : list ascii) :
  CNF.strip CNF.is_space s = s →
  head s ≠ Some "-"%char → head s ≠ Some "+"%char →
  CNF.py_int s = CNF.digits 0 false s.
Proof.
  intros Hs Hminus Hplus. unfold CNF.py_int. rewrite Hs.
  destruct s as [|a s']; [done|].
  destruct a as [[] [] [] [] [] [] [] []]; try reflexivity; by cbn in *.
Qed.

Lemma str_of_nat_chars (n : nat) :
  let s := list_ascii_of_string (CNF.str_of_nat n) in
  Forall (λ a, is_Some (CNF.digit a)) s ∧ s ≠ [] ∧
  CNF.digits 0 false s = Some (Z.of_nat n).
Proof.
  cbn zeta. unfold CNF.str_of_nat. split_and!.
  - apply uint_chars_digits.
  - pose proof (to_uint_not_nil n). by destruct (Nat.to_uint n).
  - rewrite (digits_of_uint _ 0 false) by (right; apply to_uint_not_nil).
    f_equal. f_equal. apply DecimalNat.Unsigned.of_to.
Qed.

(** [int(str(n).strip())] is [n]. *)
Lemma py_int_str_of_nat (n : nat) :
  let s := list_ascii_of_string (CNF.str_of_nat n) in
  CNF.strip CNF.is_space s = s ∧ CNF.py_int s = Some (Z.of_nat n).
Proof.
  cbn zeta. destruct (str_of_nat_chars n) as (Hdigits & Hne & Hvalue).
  rewrite Forall_forall in Hdigits.
  assert (Hstrip : CNF.strip CNF.is_space (list_ascii_of_string (CNF.str_of_nat n))
                   = list_ascii_of_string (CNF.str_of_nat n)).
  { apply strip_ends; intros a Ha; apply digit_char_facts, Hdigits.
    - by apply head_Some_elem_of.
    - by apply last_Some_elem_of. }
  split; [done|]. rewrite py_int_unsigned; [done|done|..];
    intros Ha%head_Some_elem_of%Hdigits%digit_char_facts; tauto.
Qed.

Lemma split_comma_none (s : list ascii) :
  ","%char ∉ s → CNF.split_comma s = [s].
Proof.
  induction s as [|a s IH]; [done|]. intros Hin. cbn [CNF.split_comma].
  rewrite bool_decide_eq_false_2 by (intros ->; apply Hin; left).
  rewrite IH; [done|]. intros Hs. apply Hin. by right.
Qed.

Lemma split_comma_first (s t : list ascii) :
  ","%char ∉ s →
  CNF.split_comma (s ++ ","%char :: t) = s :: CNF.split_comma t.
Proof.
  induction s as [|a s IH]; intros Hin.
  - cbn [app CNF.split_comma]. by rewrite bool_decide_eq_true_2.
  - cbn [app CNF.split_comma].
    rewrite bool_decide_eq_false_2 by (intros ->; apply Hin; left).
    rewrite IH; [done|]. intros Hs. apply Hin. by right.
Qed.

Lemma split_comma_length (s : list ascii) :
  length (CNF.split_comma s) = S (length (filter (λ a, a = ","%char) s)).
Proof.
  induction s as [|a s IH]; [done|]. cbn [CNF.split_comma].
  destruct (decide (a = ","%char)) as [->|Hne].
  - rewrite bool_decide_eq_true_2 by done. rewrite filter_cons_True by done.
    cbn [length]. by rewrite IH.
  - rewrite bool_decide_eq_false_2 by done. rewrite filter_cons_False by done.
    rewrite <- IH. by destruct (CNF.split_comma s).
Qed.

Lemma strip_quoted (cs : list ascii) :
  head cs ≠ Some "'"%char → last cs ≠ Some "'"%char →
  CNF.strip CNF.is_quote ("'"%char :: cs ++ ["'"%char]) = cs.
Proof.
  intros Hhead Hlast. unfold CNF.strip.
  change (CNF.lstrip CNF.is_quote ("'"%char :: cs ++ ["'"%char]))
    with (CNF.lstrip CNF.is_quote (cs ++ ["'"%char])).
  destruct cs as [|a cs']; [done|].
  assert (Hquote : ∀ b, Some b ≠ Some "'"%char → CNF.is_quote b = false).
  { intros b Hb. apply bool_decide_eq_false_2. congruence. }
  rewrite (lstrip_head CNF.is_quote ((a :: cs') ++ ["'"%char]))
    by (intros b Hb; apply Hquote; cbn in Hb, Hhead; congruence).
  rewrite rev_app_distr.
  change (CNF.lstrip CNF.is_quote (rev ["'"%char] ++ rev (a :: cs')))
    with (CNF.lstrip CNF.is_quote (rev (a :: cs'))).
  rewrite lstrip_head; [apply rev_involutive|].
  intros b. rewrite head_rev. intros Hb. apply Hquote. congruence.
Qed.

Lemma strip_space_quoted (cs : list ascii) :
  CNF.strip CNF.is_space (" "%char :: "'"%char :: cs ++ ["'"%char])
  = "'"%char :: cs ++ ["'"%char].
Proof.
  change (CNF.strip CNF.is_space (" "%char :: "'"%char :: cs ++ ["'"%char]))
    with (CNF.strip CNF.is_space ("'"%char :: cs ++ ["'"%char])).
  apply strip_ends.
  - by intros a [= <-].
  - intros a. rewrite app_comm_cons, last_snoc. by intros [= <-].
Qed.

(** The characters between ["Color("] and the closing parenthesis. *)
Lemma written_atom_inside (n : nat) (c : string) :
  let chars := list_ascii_of_string
                 ("Color(" ++ CNF.str_of_nat n ++ ", '" ++ c ++ "')")%string in
  drop 6 (take (length chars - 1) chars)
  = list_ascii_of_string (CNF.str_of_nat n)
    ++ ","%char :: " "%char :: "'"%char :: list_ascii_of_string c ++ ["'"%char].
Proof.
  cbn zeta. rewrite !list_ascii_of_string_app.
  set (ds := list_ascii_of_string (CNF.str_of_nat n)).
  set (cs := list_ascii_of_string c).
  change (list_ascii_of_string "Color(")
    with ["C"; "o"; "l"; "o"; "r"; "("]%char.
  change (list_ascii_of_string ", '") with [","; " "; "'"]%char.
  change (list_ascii_of_string "')") with ["'"; ")"]%char.
  set (inside := ds ++ ","%char :: " "%char :: "'"%char :: cs ++ ["'"%char]).
  assert (Hchars : ["C"; "o"; "l"; "o"; "r"; "("]%char
                     ++ ds ++ [","; " "; "'"]%char ++ cs ++ ["'"; ")"]%char
                   = (["C"; "o"; "l"; "o"; "r"; "("]%char ++ inside) ++ [")"%char]).
  { unfold inside. rewrite <- !app_assoc. cbn [app]. do 2 f_equal.
    rewrite <- app_assoc. done. }
  rewrite Hchars.
  replace (length ((["C"; "o"; "l"; "o"; "r"; "("]%char ++ inside) ++ [")"%char]) - 1)%nat
    with (length (["C"; "o"; "l"; "o"; "r"; "("]%char ++ inside))
    by (rewrite (length_app _ [")"%char]); cbn [length]; lia).
  by rewrite take_app_length.
Qed.

Lemma parse_atom_written (n : nat) (c : string) :
  ","%char ∉ list_ascii_of_string c →
  head (list_ascii_of_string c) ≠ Some "'"%char →
  last (list_ascii_of_string c) ≠ Some "'"%char →
  CNF.parse_atom ("Color(" ++ CNF.str_of_nat n ++ ", '" ++ c ++ "')")%string
  = Some (Z.of_nat n, c).
Proof.
  intros Hcomma Hhead Hlast. unfold CNF.parse_atom.
  rewrite written_atom_inside.
  destruct (str_of_nat_chars n) as (Hdigits & _ & _).
  destruct (py_int_str_of_nat n) as [Hstrip Hint].
  rewrite split_comma_first.
  2:{ intros Hin. rewrite Forall_forall in Hdigits.
      apply Hdigits, digit_char_facts in Hin. tauto. }
  rewrite split_comma_none.
  2:{ rewrite !elem_of_cons, elem_of_app, list_elem_of_singleton.
      intros [|[|[|]]]; done. }
  rewrite Hstrip, Hint. cbn [mbind option_bind].
  rewrite strip_space_quoted, strip_quoted by done.
  by rewrite string_of_list_ascii_of_string.
Qed.

Lemma parse_atom_comma (n : nat) (c : string) :
  ","%char ∈ list_ascii_of_string c →
  CNF.parse_atom ("Color(" ++ CNF.str_of_nat n ++ ", '" ++ c ++ "')")%string = None.
Proof.
  intros Hcomma. unfold CNF.parse_atom. rewrite written_atom_inside.
  set (inside := _ ++ _).
  assert (Hlen : (3 ≤ length (CNF.split_comma inside))%nat).
  { rewrite split_comma_length. unfold inside.
    rewrite filter_app, filter_cons_True by done.
    rewrite !filter_cons_False by done. rewrite filter_app, !length_app.
    cbn [length].
    assert (Hin : ","%char ∈ filter (λ a, a = ","%char) (list_ascii_of_string c)).
    { by apply list_elem_of_filter. }
    destruct (filter (λ a, a = ","%char) (list_ascii_of_string c));
      [by apply elem_of_nil in Hin|].
    rewrite length_app. cbn [length]. lia. }
  destruct (CNF.split_comma inside) as [|p1 [|p2 [|p3 rest]]]; cbn [length] in Hlen;
    [lia..|done].
Qed.

Lemma negative_literal_after_tilde (i : nat) (c : string) :
  CNF.after_tilde (CNF.negative_literal i c)
  = Some ("Color(" ++ CNF.str_of_nat (i + 1) ++ ", '" ++ c ++ "')")%string.
Proof. done. Qed.

(** ** Literals are strings, and unreadable ones are skipped *)







(** ** Where the randomness comes from *)

(** C9 fails: the solvers take no seed and no generator; [random.choice]
    reads and advances the generator of the process. Two runs in a row
    with the same secret and the same configuration, the second starting
    from the generator state the first has left, play different guess
    sequences. *)
Lemma same_arguments_different_guesses :
  ∃ history1 out1 g1 history2 out2 g2,
    Inference.logical_inference_solver ["a"] 1 ["a"; "b"] 1 one_then_zero
      = (Some (Ok history1), out1, g1) ∧
    Inference.logical_inference_solver ["a"] 1 ["a"; "b"] 1 g1
      = (Some (Ok history2), out2, g2) ∧
    history1 = [["b"]; ["a"]] ∧ history2 = [["a"]] ∧ history1 ≠ history2.
Proof.
  eexists _, _, _, _, _, _. split_and!; [vm_compute; reflexivity..|discriminate].
Qed.

Lemma same_picks_weaken m m' g1 g2 :
  same_picks m g1 g2 → (m' ≤ m)%nat → same_picks m' g1 g2.
Proof. intros H Hle i Hi. apply H. lia. Qed.

(** Generators that serve the next call alike make the same choice, and
    then the calls after it are served as before. *)
Lemma random_choice_same_picks {A} (seq : list A) m g1 g2 :
  same_picks (S m) g1 g2 →
  (random_choice seq g1).1 = (random_choice seq g2).1 ∧
  same_picks m (random_choice seq g1).2 (random_choice seq g2).2.
Proof.
  intros Hsame. unfold random_choice, randbelow.
  destruct seq as [|a seq]; cbn [fst snd].
  - split; [done|]. eapply same_picks_weaken; [done|lia].
  - pose proof (Hsame 0%nat ltac:(lia)) as H0. rewrite !Nat.add_0_r in H0.
    rewrite H0. split; [done|].
    intros i Hi. cbn [tape cursor]. specialize (Hsame (S i) ltac:(lia)).
    by rewrite !Nat.add_succ_r in Hsame.
Qed.

Lemma inference_view_eq st1 st2 :
  inference_view st1 = inference_view st2 →
  st2 = {| Inference.remaining := Inference.remaining st1;
           Inference.premises := Inference.premises st1;
           Inference.guess_history := Inference.guess_history st1;
           Inference.turn := Inference.turn st1;
           Inference.gen := Inference.gen st2;
           Inference.output := Inference.output st1;
           Inference.halted := Inference.halted st1 |}.
Proof. destruct st1, st2. cbn. by intros [= -> -> -> -> -> ->]. Qed.

Lemma observe_view secret pegs b st1 st2 g1' g2' guess :
  inference_view st1 = inference_view st2 →
  inference_view (Inference.observe secret pegs b st1 g1' guess)
  = inference_view (Inference.observe secret pegs b st2 g2' guess).
Proof.
  intros Hview. rewrite (inference_view_eq st1 st2 Hview).
  unfold Inference.observe. cbn.
  destruct (decide _); [done|]. by destruct (_ && _).
Qed.

(** One step of [logical_inference_solver] from states that differ in the
    generator only: if the generators serve alike the calls the exploratory
    turns still to come will make, the states after the step again differ
    in the generator only, and the generators serve alike the calls of the
    exploratory turns left. *)
Lemma inference_step_same_picks secret pegs n st1 st2 :
  inference_view st1 = inference_view st2 →
  same_picks (n - Inference.turn st1) (Inference.gen st1) (Inference.gen st2) →
  let st1' := Inference.step secret pegs n st1 in
  let st2' := Inference.step secret pegs n st2 in
  inference_view st1' = inference_view st2' ∧
  same_picks (n - Inference.turn st1') (Inference.gen st1') (Inference.gen st2').
Proof.
  intros Hview Hsame. cbn zeta.
  destruct st1 as [rem prem hist trn g1 out halt], st2 as [rem2 prem2 hist2 trn2 g2 out2 halt2].
  unfold inference_view in Hview. cbn in Hview, Hsame.
  injection Hview as <- <- <- <- <- <-.
  unfold Inference.step. cbn [Inference.halted Inference.turn Inference.remaining].
  destruct halt as [r|]; [done|].
  destruct (decide _) as [Hphase|Hphase].
  - unfold Inference.explore_turn. cbn [Inference.remaining Inference.gen].
    replace (n - trn)%nat with (S (n - S trn)) in Hsame by lia.
    destruct (random_choice_same_picks rem _ _ _ Hsame) as [Hchoice Hnext].
    destruct (random_choice rem g1) as [r1 g1'], (random_choice rem g2) as [r2 g2'].
    cbn [fst snd] in *. subst r2.
    destruct r1 as [guess|e]; [|done].
    split; [by apply observe_view|]. by rewrite observe_turn, !observe_gen.
  - assert (Hany : ∀ m g1' g2', (trn ≤ m)%nat → same_picks (n - m) g1' g2').
    { intros m g1' g2' Hm i Hi. lia. }
    destruct rem as [|c rem'].
    { split; [done|]. by apply Hany. }
    unfold Inference.infer_turn. cbn [Inference.premises Inference.remaining].
    destruct (select_best_first_min prem (c :: rem')) as (i & best & -> & _); [done|].
    split; [by apply observe_view|]. apply Hany. rewrite observe_turn. cbn. lia.
Qed.

Lemma inference_run_same_picks secret pegs colors_list n g1 g2 k :
  same_picks n g1 g2 →
  let st1 := Inference.run secret pegs colors_list n g1 k in
  let st2 := Inference.run secret pegs colors_list n g2 k in
  inference_view st1 = inference_view st2 ∧
  same_picks (n - Inference.turn st1) (Inference.gen st1) (Inference.gen st2).
Proof.
  intros Hsame. cbn zeta. induction k as [|k [Hview Hdraws]].
  - split; [done|]. cbn. by rewrite Nat.sub_0_r.
  - unfold Inference.run in *. cbn [Nat.iter]. by apply inference_step_same_picks.
Qed.

(** The same for a step of [logical_inference_solver_CNF], which calls
    [random.choice] in every turn. *)
Lemma cnf_step_same_picks secret n m st1 st2 :
  cnf_view st1 = cnf_view st2 →
  same_picks (S m) (CNF.gen st1) (CNF.gen st2) →
  let st1' := CNF.step secret n st1 in
  let st2' := CNF.step secret n st2 in
  cnf_view st1' = cnf_view st2' ∧ same_picks m (CNF.gen st1') (CNF.gen st2').
Proof.
  intros Hview Hsame. cbn zeta.
  destruct st1 as [rem prem cnf hist trn g1 out halt],
           st2 as [rem2 prem2 cnf2 hist2 trn2 g2 out2 halt2].
  unfold cnf_view in Hview. cbn in Hview, Hsame.
  injection Hview as <- <- <- <- <- <- <-.
  assert (Hweak : same_picks m g1 g2) by (eapply same_picks_weaken; [done|lia]).
  assert (Hplay : ∀ b,
    cnf_view (CNF.play secret b (CNF.Build_state rem prem cnf hist trn g1 out None))
    = cnf_view (CNF.play secret b (CNF.Build_state rem prem cnf hist trn g2 out None)) ∧
    same_picks m
      (CNF.gen (CNF.play secret b (CNF.Build_state rem prem cnf hist trn g1 out None)))
      (CNF.gen (CNF.play secret b (CNF.Build_state rem prem cnf hist trn g2 out None)))).
  { intros b. unfold CNF.play. cbn [CNF.remaining CNF.gen CNF.premises CNF.cnf_premises
      CNF.guess_history CNF.turn CNF.output].
    destruct (random_choice_same_picks rem _ _ _ Hsame) as [Hchoice Hnext].
    destruct (random_choice rem g1) as [r1 g1'], (random_choice rem g2) as [r2 g2'].
    cbn [fst snd] in *. subst r2.
    destruct r1 as [guess|e]; [|done].
    destruct (decide _); [done|].
    destruct (CNF.derive_simple_cnf_constraints _ _); [|done].
    destruct (CNF.filter_cnf _ _); [|done].
    by destruct (_ && _). }
  unfold CNF.step. cbn [CNF.halted CNF.turn CNF.remaining].
  destruct halt as [r|]; [done|].
  destruct (decide _); (destruct rem as [|c rem'] eqn:Hrem; [done|]);
    rewrite <- Hrem in *; apply Hplay.
Qed.

Lemma cnf_run_same_picks secret n g1 g2 m k :
  same_picks m g1 g2 → (k ≤ m)%nat →
  let st1 := CNF.run secret n g1 k in
  let st2 := CNF.run secret n g2 k in
  cnf_view st1 = cnf_view st2 ∧ same_picks (m - k) (CNF.gen st1) (CNF.gen st2).
Proof.
  intros Hsame. cbn zeta. induction k as [|k IH]; intros Hk.
  - split; [done|]. cbn. by rewrite Nat.sub_0_r.
  - destruct IH as [Hview Hdraws]; [lia|].
    unfold CNF.run in *. cbn [Nat.iter]. apply cnf_step_same_picks; [done|].
    by replace (S (m - S k)) with (m - k)%nat by lia.
Qed.

(** ** Termination of [mastermind_minimax_solver] from a valid opening *)

Lemma group_size_le_len remaining guess fb :
  Minimax.group_size remaining guess fb ≤ len remaining.
Proof.
  unfold Minimax.group_size, len.
  pose proof (length_filter (λ code, get_feedback code guess = fb) remaining). lia.
Qed.

(** With a candidate other than [secret] around, guessing [secret] splits
    the candidates: its worst case is below their number. *)
Lemma largest_group_secret_lt remaining secret other pegs :
  (∀ c, c ∈ remaining → length c = pegs) → length secret = pegs →
  secret ∈ remaining → other ∈ remaining → other ≠ secret →
  Minimax.largest_group remaining secret < len remaining.
Proof.
  intros Hlen Hslen Hsec Hother Hne.
  destruct (largest_group_spec remaining secret) as [(c0 & Hc0 & ->) _].
  { intros ->. by apply elem_of_nil in Hsec. }
  unfold Minimax.group_size, len.
  assert (Hsolved : ∀ c, c ∈ remaining →
            get_feedback c secret = (Z.of_nat pegs, 0) ↔ c = secret).
  { intros c Hc. apply get_feedback_solved; [by apply Hlen|done]. }
  destruct (decide (c0 = secret)) as [->|Hc0ne].
  - pose proof (length_filter_lt
      (λ code, get_feedback code secret = get_feedback secret secret)
      remaining other Hother) as Hlt.
    assert ((length (filter (λ code, get_feedback code secret = get_feedback secret secret)
                      remaining) < length remaining)%nat); [|lia].
    apply Hlt. intros Heq. apply Hne. apply Hsolved; [done|].
    rewrite Heq. by apply Hsolved.
  - pose proof (length_filter_lt
      (λ code, get_feedback code secret = get_feedback c0 secret)
      remaining secret Hsec) as Hlt.
    assert ((length (filter (λ code, get_feedback code secret = get_feedback c0 secret)
                      remaining) < length remaining)%nat); [|lia].
    apply Hlt. intros Heq. apply Hc0ne. apply Hsolved; [done|].
    rewrite <- Heq. by apply Hsolved.
Qed.

(** With nothing but copies of one code left, every guess has the same
    worst case. *)
Lemma largest_group_all_same remaining secret guess :
  remaining ≠ [] → (∀ c, c ∈ remaining → c = secret) →
  Minimax.largest_group remaining guess = len remaining.
Proof.
  intros Hne Hall.
  destruct (largest_group_spec remaining guess Hne) as [(c0 & Hc0 & Hlg) Hub].
  apply Z.le_antisymm.
  - rewrite Hlg. apply group_size_le_len.
  - etrans; [|apply (Hub (get_feedback secret guess))].
    unfold Minimax.group_size, len.
    assert (Hfilter : filter (λ code, get_feedback code guess = get_feedback secret guess)
                        remaining = remaining); [|by rewrite Hfilter].
    clear -Hall. induction remaining as [|c remaining IH]; [done|].
    rewrite filter_cons, decide_True.
    + f_equal. apply IH. intros c' Hc'. apply Hall. by right.
    + rewrite (Hall c); [done|left].
Qed.

Lemma minimax_step_halted secret pegs colors_list st r :
  Minimax.halted st = Some r → Minimax.step secret pegs colors_list st = st.
Proof. intros H. unfold Minimax.step. by rewrite H. Qed.

Lemma minimax_step_running secret pegs colors_list st :
  Minimax.halted (Minimax.step secret pegs colors_list st) = None →
  Minimax.halted st = None ∧
  Minimax.turn (Minimax.step secret pegs colors_list st) = S (Minimax.turn st).
Proof.
  unfold Minimax.step.
  destruct (Minimax.halted st) eqn:Hhalt; [by rewrite Hhalt|]. intros Hrun.
  split; [done|]. revert Hrun.
  destruct (Minimax.remaining st); [done|].
  unfold Minimax.play.
  destruct (Minimax.choose _ _ _ _); [|done].
  destruct (decide _); [done|]. by destruct (bool_decide (_ = [])).
Qed.


Section minimax_termination.
Variables (secret : Code) (pegs : nat) (colors_list : list string).
Hypothesis secret_valid : secret ∈ product colors_list pegs.
Hypothesis opening_valid : Minimax.initial_guess ∈ product colors_list pegs.

Let N := length (product colors_list pegs).
Let run := Minimax.run secret pegs colors_list.

Lemma minimax_solving_init :
  minimax_solving_inv secret pegs colors_list N (Minimax.init pegs colors_list).
Proof.
  unfold minimax_solving_inv, Minimax.init, Minimax.all_codes. cbn.
  rewrite decide_True by done. split_and!; try done; unfold N; lia.
Qed.

(** The guess of a turn is a code of the code space, and unless it is
    the secret some candidate answers it differently from the secret. *)
Lemma minimax_choose_splits st :
  minimax_solving_inv secret pegs colors_list N st → Minimax.halted st = None →
  ∃ guess,
    Minimax.choose pegs colors_list st (S (Minimax.turn st)) = Ok guess ∧
    length guess = pegs ∧
    (get_feedback secret guess ≠ (Z.of_nat pegs, 0) →
     (length (filter (λ code, get_feedback code guess = get_feedback secret guess)
                (Minimax.remaining st))
      < length (Minimax.remaining st))%nat).
Proof.
  intros (Hsec & Hsub & Hfirst & _) Hhalt.
  pose proof (product_length _ _ _ secret_valid) as Hslen.
  assert (Hlen : ∀ c, c ∈ Minimax.remaining st → length c = pegs).
  { intros c Hc. eapply product_length, Hsub, Hc. }
  assert (Hne : Minimax.remaining st ≠ []).
  { intros Heq. rewrite Heq in Hsec. by apply elem_of_nil in Hsec. }
  unfold Minimax.choose.
  destruct (decide (S (Minimax.turn st) = 1%nat)) as [Hone|Hlater].
  - exists Minimax.initial_guess.
    pose proof (product_length _ _ _ opening_valid) as Holen.
    split_and!; [done|done|]. intros Hnot.
    apply (length_filter_lt _ _ Minimax.initial_guess).
    + rewrite Hfirst by lia. done.
    + rewrite get_feedback_self. unfold len. rewrite Holen. congruence.
  - destruct (minimax_guess_characterised (Minimax.remaining st)
                (Minimax.all_codes pegs colors_list) Hne Hsub)
      as (g & -> & Hg & _ & Hopt & Hpref).
    cbn [bind_result]. exists g.
    pose proof (product_length _ _ _ Hg) as Hglen.
    split_and!; [done|done|]. intros Hnot.
    destruct (decide (Forall (λ c, c = secret) (Minimax.remaining st))) as [Hall|Hsome].
    + rewrite Forall_forall in Hall. exfalso. apply Hnot.
      assert (Hin : g ∈ Minimax.remaining st).
      { apply Hpref. exists secret. split; [done|]. intros c' _.
        by rewrite !(largest_group_all_same _ secret). }
      rewrite (Hall g Hin), get_feedback_self. unfold len. by rewrite Hslen.
    + apply not_Forall_Exists in Hsome; [|apply _].
      apply Exists_exists in Hsome. destruct Hsome as (other & Hother & Hne').
      pose proof (largest_group_secret_lt _ secret other pegs Hlen Hslen Hsec
                    Hother Hne') as Hlt.
      pose proof (Hopt secret (Hsub _ Hsec)) as Hle.
      destruct (largest_group_spec (Minimax.remaining st) g Hne) as [_ Hub].
      specialize (Hub (get_feedback secret g)).
      unfold Minimax.group_size, len in *. lia.
Qed.

Lemma minimax_play_solving st :
  minimax_solving_inv secret pegs colors_list N st → Minimax.halted st = None →
  minimax_solving_inv secret pegs colors_list N (Minimax.play secret pegs colors_list st).
Proof.
  intros Hinv Hhalt.
  destruct (minimax_choose_splits st Hinv Hhalt) as (guess & Hchoose & Hglen & Hsplit).
  destruct Hinv as (Hsec & Hsub & Hfirst & Hhist & Hrun). rewrite Hhalt in Hrun.
  pose proof (product_length _ _ _ secret_valid) as Hslen.
  assert (Hpos : (1 ≤ length (Minimax.remaining st))%nat).
  { destruct (Minimax.remaining st); [by apply elem_of_nil in Hsec|cbn; lia]. }
  unfold Minimax.play. rewrite Hchoose.
  destruct (decide _) as [Hsolved|Hnot].
  - apply get_feedback_solved in Hsolved; [|done..]. subst guess.
    unfold minimax_solving_inv, Minimax.finish. cbn.
    split_and!; try done.
    + rewrite length_app, Hhist. cbn. lia.
    + by rewrite last_snoc.
    + change [?a; ?b] with ([a] ++ [b]). by rewrite app_assoc, last_snoc.
    + lia.
  - specialize (Hsplit Hnot).
    set (new_remaining := filter _ (Minimax.remaining st)) in *.
    rewrite (bool_decide_eq_false_2 (length new_remaining = _)) by lia.
    assert (Hsec' : secret ∈ new_remaining) by (by apply list_elem_of_filter).
    rewrite (bool_decide_eq_false_2 (new_remaining = [])).
    + unfold minimax_solving_inv. cbn. split_and!; try done.
      * intros c [_ Hc]%list_elem_of_filter. by apply Hsub.
      * rewrite length_app, Hhist. cbn. lia.
      * lia.
    + intros Heq. rewrite Heq in Hsec'. by apply elem_of_nil in Hsec'.
Qed.

Lemma minimax_step_solving st :
  minimax_solving_inv secret pegs colors_list N st →
  minimax_solving_inv secret pegs colors_list N (Minimax.step secret pegs colors_list st).
Proof.
  intros Hinv. unfold Minimax.step.
  destruct (Minimax.halted st) eqn:Hhalt; [done|].
  destruct (Minimax.remaining st) eqn:Hrem.
  - destruct Hinv as [Hsec _]. rewrite Hrem in Hsec. by apply elem_of_nil in Hsec.
  - by apply minimax_play_solving.
Qed.

Lemma minimax_run_S n :
  run (S n) = Minimax.step secret pegs colors_list (run n).
Proof. done. Qed.

Lemma minimax_run_solving n :
  minimax_solving_inv secret pegs colors_list N (run n).
Proof.
  induction n as [|n IH]; [apply minimax_solving_init|].
  rewrite minimax_run_S. by apply minimax_step_solving.
Qed.

Lemma minimax_run_stable n m r :
  Minimax.halted (run n) = Some r → (n ≤ m)%nat → run m = run n.
Proof.
  intros Hhalt. induction 1 as [|m _ IH]; [done|].
  rewrite minimax_run_S, IH. by eapply minimax_step_halted.
Qed.

Lemma minimax_run_turn n :
  Minimax.halted (run n) = None → Minimax.turn (run n) = n.
Proof.
  induction n as [|n IH]; [done|].
  rewrite minimax_run_S. intros [Hprev ->]%minimax_step_running. by rewrite IH.
Qed.

(** When the fixed opening guess is a code of the code space (as it is
    for five pegs and the six colours), [mastermind_minimax_solver]
    returns on every secret of the code space; the returned history ends
    with the secret, has at most [len(colors_list) ** pegs] entries, and
    the last line printed is the success line. *)
Lemma mastermind_minimax_solver_solves :
  ∃ history out,
    Minimax.mastermind_minimax_solver secret pegs colors_list
      = (Some (Ok history), out) ∧
    last history = Some secret ∧
    (length history ≤ length colors_list ^ pegs)%nat ∧
    last out = Some (PrintFound (length history)).
Proof.
  assert (∃ r, Minimax.halted (run N) = Some r) as [r Hhalt].
  { pose proof (minimax_run_solving N) as (Hsec & _ & _ & _ & Hrun).
    destruct (Minimax.halted (run N)) as [r|] eqn:Hhalt; [eauto|].
    apply minimax_run_turn in Hhalt. rewrite Hhalt in Hrun.
    destruct (Minimax.remaining (run N)); [by apply elem_of_nil in Hsec|].
    cbn [length] in Hrun. lia. }
  unfold Minimax.mastermind_minimax_solver. fold run.
  rewrite (minimax_run_stable N (Minimax.fuel pegs colors_list) r Hhalt)
    by (unfold Minimax.fuel, Minimax.all_codes; fold N; lia).
  pose proof (minimax_run_solving N) as (_ & _ & _ & Hhist & Hrun).
  rewrite Hhalt in *. destruct Hrun as (-> & Hlast & Hout & Hturn).
  eexists _, _. split; [done|].
  rewrite Hhist, <- product_size. done.
Qed.
End minimax_termination.

(** With the default five pegs and six colours the opening guess is a code
    of the code space, so the minimax solver finds every secret. *)
Lemma mastermind_minimax_solver_default (secret : Code) :
  secret ∈ product COLORS PEGS →
  ∃ history out,
    Minimax.mastermind_minimax_solver secret PEGS COLORS = (Some (Ok history), out) ∧
    last history = Some secret ∧
    (length history ≤ length COLORS ^ PEGS)%nat ∧
    last out = Some (PrintFound (length history)).
Proof.
  intros Hsecret. apply mastermind_minimax_solver_solves; [done|].
  apply (bool_decide_unpack _). vm_compute. exact I.
Qed.


(** * Further properties of the code *)

(** ** The success test and the code space *)

(** X1: between two codes of [pegs] pegs the test [fb == (pegs, 0)] that
    ends a run succeeds exactly when the guess is the secret; already a
    black count of [pegs] forces it. *)
Theorem solved_test_is_exact (pegs : nat) (secret guess : Code) :
  length secret = pegs → length guess = pegs →
  (get_feedback secret guess = (Z.of_nat pegs, 0) ↔ secret = guess) ∧
  ((get_feedback secret guess).1 = Z.of_nat pegs → secret = guess).
Proof.
  intros Hs Hg. split; [by apply get_feedback_solved|].
  cbn. intros Hblack. apply black_pegs_full; [congruence|].
  unfold len. by rewrite Hg.
Qed.

Lemma solved_test_is_exact_witness :
  (get_feedback ["red"; "blue"] ["blue"; "red"] = (2, 0)
   ↔ ["red"; "blue"] = ["blue"; "red"]) ∧
  ((get_feedback ["red"; "blue"] ["blue"; "red"]).1 = 2 →
   ["red"; "blue"] = ["blue"; "red"]).
Proof. apply (solved_test_is_exact 2); reflexivity. Defined.

Lemma product_complete colors_list pegs c :
  length c = pegs → Forall (λ x, x ∈ colors_list) c → c ∈ product colors_list pegs.
Proof.
  revert c. induction pegs as [|pegs IH]; intros [|x c]; try done.
  - intros _ _. cbn. left.
  - intros [= Hlen] [Hx Hc]%Forall_cons. cbn [product].
    apply list_elem_of_bind. exists x. split; [|done].
    apply list_elem_of_fmap. exists c. split; [done|by apply IH].
Qed.

Lemma product_NoDup colors_list pegs :
  NoDup colors_list → NoDup (product colors_list pegs).
Proof.
  intros Hnd. induction pegs as [|pegs IH]; cbn [product].
  - apply NoDup_singleton.
  - apply NoDup_bind; [| |done].
    + intros x1 x2 c _ _ H1 H2.
      apply list_elem_of_fmap in H1 as (c1 & -> & _).
      apply list_elem_of_fmap in H2 as (c2 & [= ? _] & _). done.
    + intros x _. apply NoDup_fmap_2; [|done]. by intros c1 c2 [= ->].
Qed.

(** X2: [all_codes] holds exactly the codes of [pegs] pegs over
    [colors_list]: every such code occurs in it, nothing else does, it has
    [len(colors_list) ** pegs] entries, and none occurs twice when the
    colours are distinct. *)
Theorem code_space_exact (colors_list : list string) (pegs : nat) :
  (∀ c, c ∈ product colors_list pegs ↔
        length c = pegs ∧ Forall (λ x, x ∈ colors_list) c) ∧
  length (product colors_list pegs) = (length colors_list ^ pegs)%nat ∧
  (NoDup colors_list → NoDup (product colors_list pegs)).
Proof.
  split_and!.
  - intros c. split.
    + intros Hc. split; [by eapply product_length|by eapply product_colours].
    + intros [Hlen Hcol]. by apply product_complete.
  - apply product_size.
  - apply product_NoDup.
Qed.

Lemma code_space_exact_witness : NoDup (product COLORS 2).
Proof.
  destruct (code_space_exact COLORS 2) as (_ & _ & Hnd). apply Hnd.
  apply (bool_decide_unpack _). vm_compute. exact I.
Defined.


(** ** Runs of [logical_inference_solver] on any secret *)

Lemma random_choice_in {A} (seq : list A) (g g' : rng) (x : A) :
  random_choice seq g = (Ok x, g') → x ∈ seq.
Proof.
  unfold random_choice, randbelow. destruct seq as [|a seq]; [done|].
  destruct (_ !! _) as [y|] eqn:Hy; [|done].
  intros [= <- _]. by apply list_elem_of_lookup_2 in Hy.
Qed.

Lemma filter_filter_premises (premises : list (Code * Feedback)) guess fb
    (codes : list Code) :
  filter (λ code, get_feedback code guess = fb)
    (filter (λ code, Forall (λ p, get_feedback code p.1 = p.2) premises) codes)
  = filter (λ code, Forall (λ p, get_feedback code p.1 = p.2) (premises ++ [(guess, fb)]))
      codes.
Proof.
  rewrite list_filter_filter. apply list_filter_iff. intros code.
  rewrite Forall_app, Forall_singleton. cbn [fst snd]. tauto.
Qed.

Lemma filter_all_premises (premises : list (Code * Feedback)) guess fb
    (codes : list Code) :
  filter (λ code, Forall (λ p, get_feedback code p.1 = p.2) (premises ++ [(guess, fb)]))
    (filter (λ code, Forall (λ p, get_feedback code p.1 = p.2) premises) codes)
  = filter (λ code, Forall (λ p, get_feedback code p.1 = p.2) (premises ++ [(guess, fb)]))
      codes.
Proof.
  rewrite list_filter_filter. apply list_filter_iff. intros code.
  rewrite Forall_app. tauto.
Qed.

Lemma filter_all {A} (P : A → Prop) `{∀ x, Decision (P x)} (l : list A) :
  (∀ x, x ∈ l → P x) → filter P l = l.
Proof.
  induction l as [|x l IH]; intros HP; [done|].
  rewrite filter_cons, decide_True by (apply HP; left).
  f_equal. apply IH. intros y Hy. apply HP. by right.
Qed.

Section inference_traces.
Variables (secret : Code) (pegs : nat) (colors_list : list string)
          (num_initial_guesses : nat).

Lemma inference_trace_init g :
  inference_trace_inv secret pegs colors_list (Inference.init pegs colors_list g).
Proof.
  unfold inference_trace_inv. cbn. split_and!; [done| |apply NoDup_nil_2|].
  - symmetry. apply filter_all. intros c _. constructor.
  - intros _ h Hh. by apply elem_of_nil in Hh.
Qed.

Lemma observe_premises all_premises st g' guess :
  Inference.premises (Inference.observe secret pegs all_premises st g' guess)
  = Inference.premises st ++ [(guess, get_feedback secret guess)].
Proof.
  unfold Inference.observe.
  destruct (decide _); [done|]. by destruct (_ && _).
Qed.

Lemma observe_trace all_premises st g' guess :
  inference_trace_inv secret pegs colors_list st → Inference.halted st = None →
  guess ∈ Inference.remaining st →
  inference_trace_inv secret pegs colors_list
    (Inference.observe secret pegs all_premises st g' guess).
Proof.
  intros (Hprem & Hrem & Hnd & Hpast) Hhalt Hguess.
  specialize (Hpast Hhalt).
  assert (Hglen : length guess = pegs).
  { rewrite Hrem in Hguess. apply list_elem_of_filter in Hguess as [_ Hg].
    by eapply product_length. }
  assert (Hrem' :
    Inference.remaining (Inference.observe secret pegs all_premises st g' guess)
    = filter (λ code, Forall (λ p, get_feedback code p.1 = p.2)
                (Inference.premises st ++ [(guess, get_feedback secret guess)]))
        (product colors_list pegs)).
  { rewrite observe_remaining. destruct all_premises.
    - rewrite Hrem at 1. apply filter_all_premises.
    - rewrite Hrem at 1. apply filter_filter_premises. }
  unfold inference_trace_inv.
  rewrite observe_premises, observe_history, Hrem'.
  split_and!.
  - rewrite fmap_app, Hprem. done.
  - done.
  - apply NoDup_app. split_and!; [done| |apply NoDup_singleton].
    intros h Hh Heq%list_elem_of_singleton. subst h. by apply (Hpast guess).
  - unfold Inference.observe.
    destruct (decide _) as [Hsolved|Hnot]; [done|].
    destruct (_ && _); [done|]. intros _ h Hh Hin.
    apply list_elem_of_filter in Hin as [Hcons Hin].
    apply elem_of_app in Hh as [Hh|Hh].
    + apply (Hpast h Hh). rewrite Hrem. apply list_elem_of_filter.
      split; [|done]. by apply Forall_app in Hcons as [? _].
    + apply list_elem_of_singleton in Hh as ->.
      apply Forall_app in Hcons as [_ Hlast].
      rewrite Forall_singleton in Hlast. cbn [fst snd] in Hlast.
      apply Hnot. rewrite <- Hlast, get_feedback_self. unfold len. by rewrite Hglen.
Qed.

Lemma inference_step_trace st :
  inference_trace_inv secret pegs colors_list st →
  inference_trace_inv secret pegs colors_list
    (Inference.step secret pegs num_initial_guesses st).
Proof.
  intros Hinv. unfold Inference.step.
  destruct (Inference.halted st) eqn:Hhalt; [done|].
  destruct (decide _).
  - unfold Inference.explore_turn.
    destruct (random_choice _ _) as [[guess|e] g'] eqn:Hchoice.
    + apply observe_trace; [done..|]. by eapply random_choice_in.
    + destruct Hinv as (? & ? & ? & _). by split_and!.
  - destruct (Inference.remaining st) eqn:Hrem.
    + destruct Hinv as (? & Hr & ? & _). split_and!; try done.
      cbn. etrans; [symmetry; exact Hrem|exact Hr].
    + unfold Inference.infer_turn.
      destruct (select_best_first_min (Inference.premises st) (Inference.remaining st))
        as (i & best & -> & Hi & _); [by rewrite Hrem|].
      apply observe_trace; [done..|]. by apply list_elem_of_lookup_2 in Hi.
Qed.

Lemma inference_run_trace g n :
  inference_trace_inv secret pegs colors_list
    (Inference.run secret pegs colors_list num_initial_guesses g n).
Proof.
  induction n as [|n IH]; [apply inference_trace_init|].
  unfold Inference.run in *. cbn [Nat.iter]. by apply inference_step_trace.
Qed.
End inference_traces.


Lemma inference_run_history_ok secret pegs colors_list n g k :
  let st := Inference.run secret pegs colors_list n g k in
  history_ok (Inference.guess_history st) (Inference.turn st) (Inference.halted st).
Proof.
  induction k as [|k IH]; [done|].
  apply (inference_step_history_ok secret pegs n) in IH. apply IH.
Qed.

(** X3: at every point of a run of [logical_inference_solver], on any
    secret, the premises are the guesses made so far paired with the
    feedback of the secret, and [remaining] is the list of the codes of the
    code space, in their order, that give every past guess the feedback the
    secret gave it: filtering by the newest premise in the first phase and
    by all premises in the second comes to the same. *)
Theorem candidates_are_the_consistent_codes
    (secret : Code) (pegs : nat) (colors_list : list string)
    (num_initial_guesses : nat) (g : rng) (k : nat) :
  let st := Inference.run secret pegs colors_list num_initial_guesses g k in
  Inference.premises st
    = (λ h, (h, get_feedback secret h)) <$> Inference.guess_history st ∧
  Inference.remaining st
    = filter (λ code, Forall (λ h, get_feedback code h = get_feedback secret h)
                        (Inference.guess_history st))
        (product colors_list pegs).
Proof.
  cbn zeta.
  destruct (inference_run_trace secret pegs colors_list num_initial_guesses g k)
    as (Hprem & Hrem & _).
  split; [done|]. rewrite Hrem, Hprem. apply list_filter_iff. intros code.
  by rewrite Forall_fmap.
Qed.

(** X4: [logical_inference_solver] never makes the same guess twice, on any
    secret and whatever is drawn: the history is free of repetitions at
    every point of a run, and so is the list it returns. *)
Theorem inference_never_repeats_a_guess
    (secret : Code) (pegs : nat) (colors_list : list string)
    (num_initial_guesses : nat) (g : rng) :
  (∀ k, NoDup (Inference.guess_history
                 (Inference.run secret pegs colors_list num_initial_guesses g k))) ∧
  (∀ history out g',
     Inference.logical_inference_solver secret pegs colors_list num_initial_guesses g
       = (Some (Ok history), out, g') →
     NoDup history).
Proof.
  assert (Hnd : ∀ k, NoDup (Inference.guess_history
                 (Inference.run secret pegs colors_list num_initial_guesses g k))).
  { intros k.
    by destruct (inference_run_trace secret pegs colors_list num_initial_guesses g k)
      as (_ & _ & ? & _). }
  split; [done|]. intros history out g'. unfold Inference.logical_inference_solver.
  pose proof (inference_run_history_ok secret pegs colors_list num_initial_guesses g
                (Inference.fuel pegs colors_list num_initial_guesses)) as Hok.
  pose proof (Hnd (Inference.fuel pegs colors_list num_initial_guesses)) as Hnd'.
  revert Hok Hnd'. cbn zeta.
  generalize (Inference.run secret pegs colors_list num_initial_guesses g
                (Inference.fuel pegs colors_list num_initial_guesses)).
  intros st Hok Hnd' [= Hhalt _ _]. rewrite Hhalt in Hok. by destruct Hok as [-> _].
Qed.

Lemma score_sum_consistent (premises : list (Code * Feedback)) (c : Code) :
  Forall (λ p, get_feedback c p.1 = p.2) premises → score_sum premises c = 0.
Proof.
  intros Hall. unfold score_sum.
  rewrite (py_sum_ext _ (λ _, 0)); [apply py_sum_zeros|].
  intros p Hp. rewrite Forall_forall in Hall. rewrite (Hall p Hp). lia.
Qed.

(** X5: in a run of [logical_inference_solver], on any secret, the score of
    every candidate, and of the secret, against the recorded premises is 0:
    the candidates have already been filtered by those premises. So the
    scored phase always plays the first element of [remaining]. *)
Theorem scored_phase_plays_first_candidate
    (secret : Code) (pegs : nat) (colors_list : list string)
    (num_initial_guesses : nat) (g : rng) (k : nat) :
  let st := Inference.run secret pegs colors_list num_initial_guesses g k in
  (∀ c, c ∈ Inference.remaining st → Inference.score (Inference.premises st) c = 0) ∧
  Inference.score (Inference.premises st) secret = 0 ∧
  (∀ c rest,
     Inference.remaining st = c :: rest → Inference.halted st = None →
     (num_initial_guesses ≤ Inference.turn st)%nat →
     Inference.guess_history
       (Inference.run secret pegs colors_list num_initial_guesses g (S k))
     = Inference.guess_history st ++ [c]).
Proof.
  cbn zeta.
  destruct (inference_run_trace secret pegs colors_list num_initial_guesses g k)
    as (Hprem & Hrem & _).
  set (st := Inference.run secret pegs colors_list num_initial_guesses g k) in *.
  assert (Hzero : ∀ c, c ∈ Inference.remaining st →
            score_sum (Inference.premises st) c = 0).
  { intros c Hc. rewrite Hrem in Hc. apply list_elem_of_filter in Hc as [Hc _].
    by apply score_sum_consistent. }
  split_and!.
  - intros c Hc. rewrite score_is_sum. by apply Hzero.
  - rewrite score_is_sum. apply score_sum_consistent. rewrite Hprem.
    apply Forall_fmap, Forall_forall. by intros h _.
  - intros c rest Hcons Hhalt Hphase.
    change (Inference.run secret pegs colors_list num_initial_guesses g (S k))
      with (Inference.step secret pegs num_initial_guesses st).
    unfold Inference.step. rewrite Hhalt, decide_False by lia. rewrite Hcons.
    unfold Inference.infer_turn.
    destruct (select_best_first_min (Inference.premises st) (Inference.remaining st))
      as (i & best & -> & Hi & _ & Hfirst); [by rewrite Hcons|].
    rewrite observe_history. do 2 f_equal.
    destruct i as [|i].
    + rewrite Hcons in Hi. by injection Hi.
    + exfalso. specialize (Hfirst 0%nat c ltac:(lia)). rewrite Hcons in Hfirst.
      specialize (Hfirst eq_refl).
      rewrite (Hzero best), (Hzero c) in Hfirst; [lia| |].
      * rewrite Hcons. left.
      * by apply list_elem_of_lookup_2 in Hi.
Qed.

Lemma scored_phase_plays_first_candidate_witness :
  Inference.guess_history (Inference.run ["b"; "a"] 2 ["a"; "b"] 1 one_then_zero 2)
  = Inference.guess_history (Inference.run ["b"; "a"] 2 ["a"; "b"] 1 one_then_zero 1)
    ++ [["b"; "a"]].
Proof.
  destruct (scored_phase_plays_first_candidate ["b"; "a"] 2 ["a"; "b"] 1 one_then_zero 1)
    as (_ & _ & Hplay).
  apply (Hplay ["b"; "a"] []).
  - vm_compute. reflexivity.
  - vm_compute. reflexivity.
  - vm_compute. lia.
Defined.


(** X6: on a secret of the code space [logical_inference_solver] returns,
    whatever the generator draws and however many exploratory turns are
    asked for: the returned history ends with the secret and has at most
    [len(colors_list) ** pegs] entries, and the last line printed is the
    success line naming that number of turns. *)
Theorem logical_inference_solver_finds_secret
    (secret : Code) (pegs : nat) (colors_list : list string)
    (num_initial_guesses : nat) (g : rng) :
  secret ∈ product colors_list pegs →
  ∃ history out g',
    Inference.logical_inference_solver secret pegs colors_list num_initial_guesses g
      = (Some (Ok history), out, g') ∧
    last history = Some secret ∧
    (length history ≤ length colors_list ^ pegs)%nat ∧
    last out = Some (PrintFound (length history)).
Proof. intros Hvalid. by apply logical_inference_solver_solves. Qed.

Lemma logical_inference_solver_finds_secret_witness :
  ∃ history out g',
    Inference.logical_inference_solver ["pink"; "red"; "blue"; "blue"; "brown"]
      PEGS COLORS 3 one_then_zero
      = (Some (Ok history), out, g') ∧
    last history = Some ["pink"; "red"; "blue"; "blue"; "brown"] ∧
    (length history ≤ length COLORS ^ PEGS)%nat ∧
    last out = Some (PrintFound (length history)).
Proof.
  apply (logical_inference_solver_finds_secret
           ["pink"; "red"; "blue"; "blue"; "brown"] PEGS COLORS 3 one_then_zero).
  apply (bool_decide_unpack _). vm_compute. exact I.
Defined.

(** ** Runs of [logical_inference_solver_CNF] on any secret *)

Lemma position_clauses_form guess positions :
  (∀ i, i ∈ positions → (i < length guess)%nat) →
  ∃ clauses, CNF.position_clauses guess positions = Ok clauses ∧
             Forall (λ c, ∃ i col, i ∈ positions ∧ guess !! i = Some col ∧
                                   c = [CNF.negative_literal i col]) clauses.
Proof.
  induction positions as [|i positions IH]; intros Hpos; cbn [CNF.position_clauses].
  - eauto.
  - destruct (lookup_lt_is_Some_2 guess i) as [col Hcol]; [apply Hpos; left|].
    rewrite Hcol.
    destruct IH as (clauses & -> & Hcl). { intros j Hj. apply Hpos. by right. }
    cbn [bind_result]. eexists. split; [done|]. constructor.
    + exists i, col. split_and!; [left|done|done].
    + eapply Forall_impl; [done|]. cbn. intros c (j & col' & Hj & ? & ?).
      exists j, col'. split_and!; [by right|done|done].
Qed.

(** The clauses derived from a guess are clauses of the premise it
    makes. *)
Lemma derive_form guess (fb : Feedback) :
  length guess = PEGS →
  ∃ clauses, CNF.derive_simple_cnf_constraints guess fb = Ok clauses ∧
             Forall (clause_of_premise (guess, fb)) clauses.
Proof.
  intros Hlen. unfold CNF.derive_simple_cnf_constraints. destruct fb as [black white].
  destruct (decide (black = 0)) as [->|Hnz]; [|eauto].
  destruct (position_clauses_form guess (seq 0 PEGS)) as (clauses & -> & Hcl).
  { intros i Hi. change (i ∈ seq 0 PEGS) in Hi. apply elem_of_seq in Hi. lia. }
  eexists. split; [done|]. eapply Forall_impl; [done|]. cbn.
  intros c (i & col & Hi & Hcol & ->).
  change (i ∈ seq 0 PEGS) in Hi. apply elem_of_seq in Hi.
  exists i, col. split_and!; [done|lia|done|done].
Qed.

(** A code that agrees with a premise satisfies the clauses written for
    it. *)
Lemma clause_of_premise_satisfied (p : Code * Feedback) (c : CNF.clause) (code : Code) :
  clause_of_premise p c → p.1 ∈ product COLORS PEGS → length code = PEGS →
  get_feedback code p.1 = p.2 →
  derived_clause code c.
Proof.
  intros (i & col & Hblack & Hi & Hcol & ->) Hguess Hlen Hfb.
  exists i, col. split_and!; [done|done| |].
  - apply product_colours in Hguess. rewrite Forall_forall in Hguess.
    apply Hguess. by apply list_elem_of_lookup_2 in Hcol.
  - destruct (code !! i) as [x|] eqn:Hx; [|done]. intros [= ->].
    eapply (black_pegs_zero code p.1 i col col); [|done..].
    rewrite <- Hfb in Hblack. exact Hblack.
Qed.

Lemma filter_cnf_keeps_all cnf (codes : list Code) :
  (∀ c, c ∈ codes → CNF.code_satisfies_cnf c cnf = Ok true) →
  CNF.filter_cnf cnf codes = Ok codes.
Proof.
  induction codes as [|code codes IH]; intros Hall; cbn [CNF.filter_cnf]; [done|].
  rewrite (Hall code) by left. cbn [bind_result].
  rewrite IH; [done|]. intros c Hc. apply Hall. by right.
Qed.


(** A code of the code space that agrees with all premises satisfies all
    clauses written for them. *)
Lemma consistent_code_satisfies_cnf (premises : list (Code * Feedback))
    (cnf : list CNF.clause) (code : Code) :
  Forall (λ c, ∃ p, p ∈ premises ∧ clause_of_premise p c) cnf →
  Forall (λ p, p.1 ∈ product COLORS PEGS) premises →
  length code = PEGS →
  Forall (λ p, get_feedback code p.1 = p.2) premises →
  CNF.code_satisfies_cnf code cnf = Ok true.
Proof.
  intros Hcnf Hguesses Hlen Hcons.
  apply code_satisfies_cnf_secret; [|done].
  eapply Forall_impl; [done|]. cbn. intros c (p & Hp & Hc).
  rewrite Forall_forall in Hguesses, Hcons.
  eapply clause_of_premise_satisfied; [done|by apply Hguesses|done|by apply Hcons].
Qed.

Section cnf_traces.
Variables (secret : Code) (num_initial_guesses : nat).

Lemma cnf_trace_init g : cnf_trace_inv (CNF.init g).
Proof.
  unfold cnf_trace_inv. cbn [CNF.init CNF.remaining CNF.premises CNF.cnf_premises
                             CNF.halted].
  split_and!; [|done|done|done].
  symmetry. apply filter_all. intros c _. constructor.
Qed.

Lemma cnf_play_trace last_phase st :
  cnf_trace_inv st → CNF.remaining st ≠ [] →
  cnf_trace_inv (CNF.play secret last_phase st).
Proof.
  intros (Hrem & Hguesses & Hcnf & Hexn) Hne.
  unfold CNF.play.
  destruct (random_choice_ok (CNF.remaining st) (CNF.gen st) Hne)
    as (guess & -> & Hguess).
  assert (Hgcode : guess ∈ product COLORS PEGS).
  { rewrite Hrem in Hguess. by apply list_elem_of_filter in Hguess as [_ ?]. }
  destruct (decide _) as [Hsolved|Hnot].
  { unfold cnf_trace_inv. cbn [CNF.remaining CNF.premises CNF.cnf_premises CNF.halted].
    by split_and!. }
  set (fb := get_feedback secret guess).
  destruct (derive_form guess fb) as (new_clauses & -> & Hnew).
  { by eapply product_length. }
  set (premises' := CNF.premises st ++ [(guess, fb)]).
  assert (Hguesses' : Forall (λ p, p.1 ∈ product COLORS PEGS) premises').
  { apply Forall_app. split; [done|]. by apply Forall_singleton. }
  assert (Hcnf' : Forall (λ c, ∃ p, p ∈ premises' ∧ clause_of_premise p c)
                    (CNF.cnf_premises st ++ new_clauses)).
  { apply Forall_app. split.
    - eapply Forall_impl; [done|]. cbn. intros c (p & Hp & Hc).
      exists p. split; [|done]. apply elem_of_app. by left.
    - eapply Forall_impl; [done|]. cbn. intros c Hc.
      exists (guess, fb). split; [|done]. apply elem_of_app. right. left. }
  assert (Hby : filter (λ code, Forall (λ p, get_feedback code p.1 = p.2) premises')
                  (CNF.remaining st)
                = filter (λ code, Forall (λ p, get_feedback code p.1 = p.2) premises')
                    (product COLORS PEGS)).
  { rewrite Hrem at 1. apply filter_all_premises. }
  rewrite filter_cnf_keeps_all.
  - rewrite Hby. unfold cnf_trace_inv.
    destruct (_ && _);
      cbn [CNF.remaining CNF.premises CNF.cnf_premises CNF.halted]; by split_and!.
  - intros c Hc. rewrite Hby in Hc. apply list_elem_of_filter in Hc as [Hcons Hc].
    eapply consistent_code_satisfies_cnf; [done|done| |done].
    by eapply product_length.
Qed.

Lemma cnf_step_trace st :
  cnf_trace_inv st → cnf_trace_inv (CNF.step secret num_initial_guesses st).
Proof.
  intros Hinv. unfold CNF.step.
  destruct (CNF.halted st) eqn:Hhalt; [done|].
  destruct (decide _); (destruct (CNF.remaining st) eqn:Hrem;
    [destruct Hinv as (Hr & ? & ? & ?); unfold cnf_trace_inv, CNF.finish;
     cbn [CNF.remaining CNF.premises CNF.cnf_premises CNF.halted];
     rewrite <- Hr, Hrem; by split_and!
    |apply cnf_play_trace; [done|by rewrite Hrem]]).
Qed.

Lemma cnf_run_trace g n : cnf_trace_inv (CNF.run secret num_initial_guesses g n).
Proof.
  induction n as [|n IH]; [apply cnf_trace_init|].
  unfold CNF.run in *. cbn [Nat.iter]. by apply cnf_step_trace.
Qed.
End cnf_traces.

(** X7: in [logical_inference_solver_CNF], on any secret, [remaining] is at
    every point the list of the codes of the code space that agree with
    every recorded premise; every candidate satisfies every clause collected
    so far, so the clause filter never removes a code that the premise
    filter has kept; and no run raises. *)
Theorem clause_filter_prunes_nothing (secret : Code) (num_initial_guesses : nat)
    (g : rng) (k : nat) :
  let st := CNF.run secret num_initial_guesses g k in
  CNF.remaining st
    = filter (λ code, Forall (λ p, get_feedback code p.1 = p.2) (CNF.premises st))
        (product COLORS PEGS) ∧
  CNF.filter_cnf (CNF.cnf_premises st) (CNF.remaining st) = Ok (CNF.remaining st) ∧
  (∀ e, CNF.halted st ≠ Some (Raise e)).
Proof.
  cbn zeta. destruct (cnf_run_trace secret num_initial_guesses g k)
    as (Hrem & Hguesses & Hcnf & Hexn).
  split_and!; [done| |done].
  apply filter_cnf_keeps_all. intros c Hc.
  rewrite Hrem in Hc. apply list_elem_of_filter in Hc as [Hcons Hc].
  eapply consistent_code_satisfies_cnf; [done|done| |done].
  by eapply product_length.
Qed.


(** ** Termination of [logical_inference_solver_CNF] *)

Lemma cnf_step_halted secret n st r :
  CNF.halted st = Some r → CNF.step secret n st = st.
Proof. intros H. unfold CNF.step. by rewrite H. Qed.

Lemma cnf_play_turn secret last_phase st :
  CNF.turn (CNF.play secret last_phase st) = S (CNF.turn st).
Proof.
  unfold CNF.play.
  destruct (random_choice _ _) as [[guess|e] g']; [|done].
  destruct (decide _); [done|].
  destruct (CNF.derive_simple_cnf_constraints _ _); [|done].
  destruct (CNF.filter_cnf _ _); [|done]. by destruct (_ && _).
Qed.

Lemma cnf_step_running secret n st :
  CNF.halted (CNF.step secret n st) = None →
  CNF.halted st = None ∧ CNF.turn (CNF.step secret n st) = S (CNF.turn st).
Proof.
  unfold CNF.step.
  destruct (CNF.halted st) eqn:Hhalt; [by rewrite Hhalt|]. intros Hrun.
  split; [done|]. revert Hrun.
  destruct (decide _); (destruct (CNF.remaining st); [done|]);
    intros _; apply cnf_play_turn.
Qed.

Section cnf_termination.
Variables (secret : Code) (num_initial_guesses : nat) (g : rng).
Hypothesis secret_valid : secret ∈ product COLORS PEGS.

Let N := length (product COLORS PEGS).
Let run := CNF.run secret num_initial_guesses g.

Lemma cnf_play_solving last_phase st :
  cnf_inv secret st → cnf_solving_inv secret N st → CNF.halted st = None →
  cnf_solving_inv secret N (CNF.play secret last_phase st).
Proof.
  intros (Hsec & Hcodes & Hprem & Hcnf & Hout & Hexn) [Hhist Hrun] Hhalt.
  rewrite Hhalt in Hrun. clearbody N.
  pose proof (product_length _ _ _ secret_valid) as Hslen.
  assert (Hne : CNF.remaining st ≠ []).
  { intros Heq. rewrite Heq in Hsec. by apply elem_of_nil in Hsec. }
  assert (Hpos : (1 ≤ length (CNF.remaining st))%nat).
  { destruct (CNF.remaining st); [done|cbn; lia]. }
  unfold CNF.play.
  destruct (random_choice_ok (CNF.remaining st) (CNF.gen st) Hne)
    as (guess & -> & Hguess).
  pose proof (product_length _ _ _ (Hcodes guess Hguess)) as Hglen.
  destruct (decide _) as [Hsolved|Hnot].
  { apply get_feedback_solved in Hsolved; [|done..]. subst guess.
    unfold cnf_solving_inv. cbn. split_and!; try done.
    - rewrite length_app, Hhist. cbn. lia.
    - by rewrite last_snoc.
    - by rewrite last_snoc.
    - lia. }
  destruct (derive_derived secret guess (Hcodes guess Hguess))
    as (new_clauses & -> & Hnew).
  set (fb := get_feedback secret guess).
  set (premises' := CNF.premises st ++ [(guess, fb)]).
  set (by_premises := filter _ (CNF.remaining st)).
  assert (Hshrink : (length by_premises < length (CNF.remaining st))%nat).
  { apply (length_filter_lt _ _ guess); [done|].
    intros Hall. unfold premises' in Hall.
    rewrite Forall_app, Forall_singleton in Hall.
    destruct Hall as [_ Hall]. cbn [fst snd] in Hall. unfold fb in Hall.
    apply Hnot. rewrite <- Hall.
    rewrite get_feedback_self. unfold len. by rewrite Hglen. }
  assert (Hcnf' : Forall (derived_clause secret) (CNF.cnf_premises st ++ new_clauses)).
  { by apply Forall_app. }
  destruct (filter_cnf_derived secret (CNF.cnf_premises st ++ new_clauses)
              by_premises Hcnf' Hslen) as (kept & Hfilter & Hkept).
  { intros c [_ Hc]%list_elem_of_filter. eapply product_length, Hcodes, Hc. }
  rewrite Hfilter.
  assert (Hsec' : secret ∈ kept).
  { apply Hkept. apply list_elem_of_filter. split; [|done].
    apply Forall_app. split; [done|]. by apply Forall_singleton. }
  pose proof (sublist_length _ _ (filter_cnf_sublist _ _ _ Hfilter)) as Hkeptlen.
  rewrite (bool_decide_eq_false_2 (kept = [])), andb_false_r.
  - unfold cnf_solving_inv. cbn. split.
    + rewrite length_app, Hhist. cbn. lia.
    + lia.
  - intros Heq. rewrite Heq in Hsec'. by apply elem_of_nil in Hsec'.
Qed.

Lemma cnf_step_solving st :
  cnf_inv secret st → cnf_solving_inv secret N st →
  cnf_solving_inv secret N (CNF.step secret num_initial_guesses st).
Proof.
  intros Hinv Hsolving. unfold CNF.step.
  destruct (CNF.halted st) eqn:Hhalt; [done|].
  assert (Hne : CNF.remaining st ≠ []).
  { destruct Hinv as [Hsec _]. intros Heq. rewrite Heq in Hsec.
    by apply elem_of_nil in Hsec. }
  destruct (decide _); (destruct (CNF.remaining st) eqn:Hrem; [done|]);
    rewrite <- Hrem in *; by apply cnf_play_solving.
Qed.

Lemma cnf_run_S n : run (S n) = CNF.step secret num_initial_guesses (run n).
Proof. done. Qed.

Lemma cnf_run_solving n : cnf_solving_inv secret N (run n).
Proof.
  induction n as [|n IH].
  - unfold cnf_solving_inv. cbn. split; [done|]. unfold N. lia.
  - rewrite cnf_run_S. apply cnf_step_solving; [|done]. by apply cnf_run_inv.
Qed.

Lemma cnf_run_stable n m r :
  CNF.halted (run n) = Some r → (n ≤ m)%nat → run m = run n.
Proof.
  intros Hhalt. induction 1 as [|m _ IH]; [done|].
  rewrite cnf_run_S, IH. by eapply cnf_step_halted.
Qed.

Lemma cnf_run_turn n : CNF.halted (run n) = None → CNF.turn (run n) = n.
Proof.
  induction n as [|n IH]; [done|].
  rewrite cnf_run_S. intros [Hprev ->]%cnf_step_running. by rewrite IH.
Qed.

Lemma logical_inference_solver_CNF_solves :
  ∃ history out g',
    CNF.logical_inference_solver_CNF secret num_initial_guesses g
      = (Some (Ok history), out, g') ∧
    last history = Some secret ∧
    (length history ≤ length COLORS ^ PEGS)%nat ∧
    last out = Some (PrintFound (length history)).
Proof.
  assert (∃ r, CNF.halted (run N) = Some r) as [r Hhalt].
  { pose proof (cnf_run_solving N) as [_ Hrun].
    pose proof (cnf_run_inv secret num_initial_guesses secret_valid g N) as [Hsec _].
    fold run in Hsec.
    destruct (CNF.halted (run N)) as [r|] eqn:Hhalt; [eauto|].
    apply cnf_run_turn in Hhalt. rewrite Hhalt in Hrun.
    destruct (CNF.remaining (run N)); [by apply elem_of_nil in Hsec|].
    cbn [length] in Hrun. lia. }
  unfold CNF.logical_inference_solver_CNF. fold run.
  rewrite (cnf_run_stable N CNF.fuel r Hhalt) by (unfold CNF.fuel; fold N; lia).
  pose proof (cnf_run_solving N) as [Hhist Hrun].
  rewrite Hhalt in *. destruct Hrun as (-> & Hlast & Hout & Hturn).
  eexists _, _, _. split; [done|].
  rewrite Hhist. split_and!; [done| |done].
  rewrite <- product_size. done.
Qed.
End cnf_termination.

(** X8: on a secret of the code space [logical_inference_solver_CNF]
    returns, whatever the generator draws: the returned history ends with
    the secret and has at most [len(COLORS) ** PEGS] entries, and the last
    line printed is the success line naming that number of turns. *)
Theorem logical_inference_solver_CNF_finds_secret
    (secret : Code) (num_initial_guesses : nat) (g : rng) :
  secret ∈ product COLORS PEGS →
  ∃ history out g',
    CNF.logical_inference_solver_CNF secret num_initial_guesses g
      = (Some (Ok history), out, g') ∧
    last history = Some secret ∧
    (length history ≤ length COLORS ^ PEGS)%nat ∧
    last out = Some (PrintFound (length history)).
Proof. intros Hvalid. by apply logical_inference_solver_CNF_solves. Qed.

Lemma logical_inference_solver_CNF_finds_secret_witness :
  ∃ history out g',
    CNF.logical_inference_solver_CNF ["pink"; "red"; "blue"; "blue"; "brown"] 3
      one_then_zero
      = (Some (Ok history), out, g') ∧
    last history = Some ["pink"; "red"; "blue"; "blue"; "brown"] ∧
    (length history ≤ length COLORS ^ PEGS)%nat ∧
    last out = Some (PrintFound (length history)).
Proof.
  apply (logical_inference_solver_CNF_finds_secret
           ["pink"; "red"; "blue"; "blue"; "brown"] 3 one_then_zero).
  apply (bool_decide_unpack _). vm_compute. exact I.
Defined.


(** ** More on the minimax solver *)

(** X9: the dictionary built for a guess holds, under each feedback that
    some candidate gives, the number of candidates that give it, and has no
    entry for any other feedback. *)
Theorem partition_sizes_counts (remaining : list Code) (guess : Code) (fb : Feedback) :
  Minimax.partition_sizes remaining guess !! fb
  = (if decide (Minimax.group_size remaining guess fb = 0) then None
     else Some (Minimax.group_size remaining guess fb)) ∧
  (is_Some (Minimax.partition_sizes remaining guess !! fb) ↔
   ∃ code, code ∈ remaining ∧ get_feedback code guess = fb).
Proof.
  split; [apply partition_sizes_lookup|].
  rewrite partition_sizes_lookup. split.
  - destruct (decide _) as [|Hnz]; [by intros [? ?]|]. intros _.
    by apply group_size_pos_inv.
  - intros (code & Hc & <-). pose proof (group_size_pos remaining guess code Hc).
    rewrite decide_False by lia. by eexists.
Qed.

(** [minimax_guess] on its edge inputs: with no candidate left, [max] of
    the empty dictionary raises [ValueError] at the first code tried; with
    an empty code space both passes are skipped and the result is
    [None]. *)
Theorem minimax_guess_edge_cases :
  (∀ all_codes : list Code,
     all_codes ≠ [] → Minimax.minimax_guess [] all_codes = Raise ValueError) ∧
  (∀ remaining : list Code, Minimax.minimax_guess remaining [] = Ok None).
Proof.
  split.
  - intros [|c all_codes] Hne; [done|]. reflexivity.
  - intros remaining. reflexivity.
Qed.

Lemma minimax_guess_edge_cases_witness :
  Minimax.minimax_guess [] (product ["a"; "b"] 2) = Raise ValueError.
Proof.
  destruct minimax_guess_edge_cases as [Hempty _]. apply Hempty. discriminate.
Defined.

Lemma filter_length_eq {A} (P : A → Prop) `{∀ x, Decision (P x)} (l : list A) :
  length (filter P l) = length l → filter P l = l.
Proof.
  intros Hlen. apply filter_all. intros x Hx.
  destruct (decide (P x)) as [|Hn]; [done|].
  pose proof (length_filter_lt P l x Hx Hn). lia.
Qed.

Lemma minimax_run_sublist secret pegs colors_list k :
  sublist (Minimax.remaining (Minimax.run secret pegs colors_list k))
          (Minimax.all_codes pegs colors_list).
Proof.
  induction k as [|k IH]; [done|].
  etrans; [|exact IH]. apply minimax_step_sublist.
Qed.

Lemma minimax_guess_in_all_codes (remaining all_codes : list Code) g :
  Minimax.minimax_guess remaining all_codes = Ok (Some g) →
  remaining ≠ [] → g ∈ all_codes.
Proof.
  intros Hg Hne. unfold Minimax.minimax_guess in Hg.
  destruct all_codes as [|c0 codes]; [done|].
  destruct (first_pass_start remaining (c0 :: codes) Hne) as (g1 & Hfirst & Hg1 & _);
    [done|].
  rewrite Hfirst in Hg. cbn [bind_result] in Hg.
  destruct (second_pass_prefers_candidate remaining (c0 :: codes)
              (Minimax.largest_group remaining g1) g1 Hne) as (g' & Hsecond & Hcase).
  rewrite Hsecond in Hg. injection Hg as <-.
  destruct Hcase as [[-> _]|(? & _)]; done.
Qed.


Lemma minimax_choose_any secret pegs colors_list k :
  let st := Minimax.run secret pegs colors_list k in
  Minimax.remaining st ≠ [] →
  ∃ guess, Minimax.choose pegs colors_list st (S (Minimax.turn st)) = Ok guess ∧
           (S (Minimax.turn st) ≠ 1%nat → guess ∈ Minimax.all_codes pegs colors_list).
Proof.
  cbn zeta. intros Hne. unfold Minimax.choose.
  destruct (decide _) as [Hone|Hlater]; [by eexists|].
  destruct (minimax_guess_characterised (Minimax.remaining
              (Minimax.run secret pegs colors_list k))
              (Minimax.all_codes pegs colors_list) Hne) as (g & -> & Hg & _).
  { apply sublist_subseteq, minimax_run_sublist. }
  cbn [bind_result]. by exists g.
Qed.

Lemma minimax_step_play secret pegs colors_list st :
  Minimax.halted st = None → Minimax.remaining st ≠ [] →
  Minimax.step secret pegs colors_list st = Minimax.play secret pegs colors_list st.
Proof.
  intros Hhalt Hne. unfold Minimax.step. rewrite Hhalt.
  by destruct (Minimax.remaining st).
Qed.

(** X10: in [mastermind_minimax_solver], on any secret, a turn that does not
    end the run leaves exactly the candidates that give the guess the
    feedback the secret gave it. The branch that forces the removal of the
    guess never removes anything: when the filter makes no progress, the
    guess is not among the candidates. From the second turn on the guess is
    a code of the code space. *)
Theorem minimax_forced_removal_never_removes
    (secret : Code) (pegs : nat) (colors_list : list string) (k : nat) :
  let st := Minimax.run secret pegs colors_list k in
  Minimax.halted st = None → Minimax.remaining st ≠ [] →
  ∃ guess,
    Minimax.choose pegs colors_list st (S (Minimax.turn st)) = Ok guess ∧
    (S (Minimax.turn st) ≠ 1%nat → guess ∈ Minimax.all_codes pegs colors_list) ∧
    (get_feedback secret guess ≠ (Z.of_nat pegs, 0) →
     (length (filter (λ code, get_feedback code guess = get_feedback secret guess)
                (Minimax.remaining st)) = length (Minimax.remaining st) →
      guess ∉ Minimax.remaining st) ∧
     Minimax.remaining (Minimax.run secret pegs colors_list (S k))
     = filter (λ code, get_feedback code guess = get_feedback secret guess)
         (Minimax.remaining st)).
Proof.
  cbn zeta. intros Hhalt Hne.
  destruct (minimax_choose_any secret pegs colors_list k Hne) as (guess & Hchoose & Hin).
  exists guess. split_and!; [done|done|]. intros Hnot.
  set (st := Minimax.run secret pegs colors_list k) in *.
  set (new_remaining := filter _ (Minimax.remaining st)).
  assert (Hdead : length new_remaining = length (Minimax.remaining st) →
            guess ∉ Minimax.remaining st).
  { intros Hlen Hguess. apply Hnot.
    apply filter_length_eq in Hlen. fold new_remaining in Hlen.
    rewrite <- Hlen in Hguess. apply list_elem_of_filter in Hguess as [Hself Hguess].
    rewrite <- Hself, get_feedback_self. unfold len. do 3 f_equal.
    eapply product_length, (sublist_subseteq _ _ (minimax_run_sublist secret pegs
      colors_list k)), Hguess. }
  split; [done|].
  change (Minimax.run secret pegs colors_list (S k))
    with (Minimax.step secret pegs colors_list st).
  rewrite minimax_step_play by done.
  unfold Minimax.play. rewrite Hchoose, decide_False by done.
  fold new_remaining.
  assert (Hsame : (if bool_decide (length new_remaining = length (Minimax.remaining st))
                   then (if decide (guess ∈ Minimax.remaining st)
                         then Minimax.remove_first guess (Minimax.remaining st)
                         else Minimax.remaining st)
                   else new_remaining) = new_remaining).
  { destruct (bool_decide _) eqn:Hstalled; [|done].
    apply bool_decide_eq_true in Hstalled.
    rewrite decide_False by (by apply Hdead).
    symmetry. by apply filter_length_eq. }
  rewrite Hsame. by destruct (bool_decide (new_remaining = [])).
Qed.

Lemma minimax_forced_removal_never_removes_witness :
  ∃ guess,
    Minimax.choose 1 ["a"] (Minimax.run ["z"] 1 ["a"] 0) 1 = Ok guess ∧
    (1%nat ≠ 1%nat → guess ∈ Minimax.all_codes 1 ["a"]) ∧
    (get_feedback ["z"] guess ≠ (1, 0) →
     (length (filter (λ code, get_feedback code guess = get_feedback ["z"] guess)
                (Minimax.remaining (Minimax.run ["z"] 1 ["a"] 0)))
      = length (Minimax.remaining (Minimax.run ["z"] 1 ["a"] 0)) →
      guess ∉ Minimax.remaining (Minimax.run ["z"] 1 ["a"] 0)) ∧
     Minimax.remaining (Minimax.run ["z"] 1 ["a"] 1)
     = filter (λ code, get_feedback code guess = get_feedback ["z"] guess)
         (Minimax.remaining (Minimax.run ["z"] 1 ["a"] 0))).
Proof.
  apply (minimax_forced_removal_never_removes ["z"] 1 ["a"] 0).
  - vm_compute. reflexivity.
  - vm_compute. discriminate.
Defined.

Lemma minimax_run_no_exception secret pegs colors_list :
  product colors_list pegs ≠ [] →
  ∀ k e, Minimax.halted (Minimax.run secret pegs colors_list k) ≠ Some (Raise e).
Proof.
  intros Hne k. induction k as [|k IH]; intros e.
  - cbn. unfold Minimax.init, Minimax.all_codes. cbn.
    destruct (decide _); [done|]. by destruct (product colors_list pegs).
  - change (Minimax.run secret pegs colors_list (S k))
      with (Minimax.step secret pegs colors_list (Minimax.run secret pegs colors_list k)).
    unfold Minimax.step.
    destruct (Minimax.halted (Minimax.run secret pegs colors_list k)) eqn:Hhalt.
    { rewrite Hhalt. apply IH. }
    destruct (decide (Minimax.remaining (Minimax.run secret pegs colors_list k) = []))
      as [Hrem|Hrem]; [by rewrite Hrem|].
    replace (match Minimax.remaining (Minimax.run secret pegs colors_list k) with
             | [] => _ | _ :: _ => _ end)
      with (Minimax.play secret pegs colors_list
              (Minimax.run secret pegs colors_list k))
      by (by destruct (Minimax.remaining (Minimax.run secret pegs colors_list k))).
    unfold Minimax.play.
    destruct (minimax_choose_any secret pegs colors_list k Hrem) as (guess & -> & _).
    destruct (decide _); [done|]. by destruct (bool_decide (_ = [])).
Qed.

(** X11: [mastermind_minimax_solver] raises exactly when the code space is
    empty, that is with no colours and at least one peg: then [all_codes[0]]
    raises [IndexError] before any turn. With a non-empty code space no
    state of a run has raised, on any secret: the loop guard keeps
    [minimax_guess] away from an empty candidate list. *)
Theorem minimax_solver_raises_only_on_empty_code_space
    (secret : Code) (pegs : nat) (colors_list : list string) :
  (product colors_list pegs = [] →
   Minimax.mastermind_minimax_solver secret pegs colors_list
   = (Some (Raise IndexError), [])) ∧
  (product colors_list pegs ≠ [] →
   ∀ k e, Minimax.halted (Minimax.run secret pegs colors_list k) ≠ Some (Raise e)) ∧
  (product colors_list pegs = [] ↔ colors_list = [] ∧ pegs ≠ 0%nat).
Proof.
  split_and!.
  - intros Hempty. unfold Minimax.mastermind_minimax_solver.
    assert (Hinit : Minimax.init pegs colors_list
                    = Minimax.Build_state [] [] 0 [] (Some (Raise IndexError))).
    { unfold Minimax.init, Minimax.all_codes. rewrite Hempty.
      rewrite decide_False by apply not_elem_of_nil. done. }
    assert (Hrun : ∀ k, Minimax.run secret pegs colors_list k
                        = Minimax.Build_state [] [] 0 [] (Some (Raise IndexError))).
    { induction k as [|k IH]; [exact Hinit|].
      change (Minimax.run secret pegs colors_list (S k))
        with (Minimax.step secret pegs colors_list (Minimax.run secret pegs colors_list k)).
      by rewrite IH. }
    by rewrite Hrun.
  - apply minimax_run_no_exception.
  - split.
    + intros Hempty. pose proof (product_size colors_list pegs) as Hsize.
      rewrite Hempty in Hsize. cbn in Hsize. symmetry in Hsize.
      destruct pegs as [|pegs]; [done|].
      destruct colors_list as [|c cs]; [done|].
      exfalso. revert Hsize. apply Nat.pow_nonzero. done.
    + intros [-> Hpegs]. destruct pegs; done.
Qed.

Lemma minimax_solver_raises_only_on_empty_code_space_witness :
  Minimax.mastermind_minimax_solver ["a"] 1 [] = (Some (Raise IndexError), []) ∧
  ∀ k e, Minimax.halted (Minimax.run ["z"] 1 ["a"] k) ≠ Some (Raise e).
Proof.
  split.
  - destruct (minimax_solver_raises_only_on_empty_code_space ["a"] 1 []) as (H & _ & _).
    apply H. reflexivity.
  - destruct (minimax_solver_raises_only_on_empty_code_space ["z"] 1 ["a"]) as (_ & H & _).
    apply H. discriminate.
Defined.

(** X12: when the fixed opening guess is a code of the code space being
    searched, as with the default five pegs and six colours,
    [mastermind_minimax_solver] finds every secret of that space: the
    returned history ends with the secret and has at most [len(colors_list)
    ** pegs] entries, and the last line printed is the success line naming
    that number of turns. *)
Theorem mastermind_minimax_solver_finds_secret
    (secret : Code) (pegs : nat) (colors_list : list string) :
  secret ∈ product colors_list pegs →
  Minimax.initial_guess ∈ product colors_list pegs →
  ∃ history out,
    Minimax.mastermind_minimax_solver secret pegs colors_list
      = (Some (Ok history), out) ∧
    last history = Some secret ∧
    (length history ≤ length colors_list ^ pegs)%nat ∧
    last out = Some (PrintFound (length history)).
Proof. intros Hsecret Hopening. by apply mastermind_minimax_solver_solves. Qed.

Lemma mastermind_minimax_solver_finds_secret_witness :
  ∃ history out,
    Minimax.mastermind_minimax_solver ["pink"; "red"; "blue"; "blue"; "brown"]
      PEGS COLORS = (Some (Ok history), out) ∧
    last history = Some ["pink"; "red"; "blue"; "blue"; "brown"] ∧
    (length history ≤ length COLORS ^ PEGS)%nat ∧
    last out = Some (PrintFound (length history)).
Proof.
  apply (mastermind_minimax_solver_finds_secret
           ["pink"; "red"; "blue"; "blue"; "brown"] PEGS COLORS).
  - apply (bool_decide_unpack _). vm_compute. exact I.
  - apply (bool_decide_unpack _). vm_compute. exact I.
Defined.


(** ** More on the clause layer *)

Lemma clause_satisfied_meaning (code : Code) (clause : CNF.clause) :
  (∀ literal, literal ∈ clause → ∃ r, CNF.eval_literal code literal = Ok r) →
  ∃ b, CNF.clause_satisfied code clause = Ok b ∧
       (b = true ↔ ∃ literal, literal ∈ clause ∧
                     CNF.eval_literal code literal = Ok (Some true)).
Proof.
  induction clause as [|literal clause IH]; intros Hok; cbn [CNF.clause_satisfied].
  - exists false. split; [done|]. split; [done|]. intros (l & Hl & _).
    by apply elem_of_nil in Hl.
  - destruct (Hok literal) as [r Hr]; [left|]. rewrite Hr. cbn [bind_result].
    destruct IH as (b & Hb & Hiff). { intros l Hl. apply Hok. by right. }
    destruct r as [[|]|].
    + exists true. split; [done|]. split; [|done]. intros _. exists literal.
      split; [left|done].
    + exists b. split; [done|]. rewrite Hiff. split.
      * intros (l & Hl & Hl'). exists l. split; [by right|done].
      * intros (l & [->|Hl]%elem_of_cons & Hl'); [congruence|]. by exists l.
    + exists b. split; [done|]. rewrite Hiff. split.
      * intros (l & Hl & Hl'). exists l. split; [by right|done].
      * intros (l & [->|Hl]%elem_of_cons & Hl'); [congruence|]. by exists l.
Qed.

(** X13: what [code_satisfies_cnf] decides, as its docstring says: when no
    literal makes [code[i-1]] raise, the result is [True] exactly when every
    clause has a literal that is true of the code. An empty list of clauses
    is satisfied; an empty clause never is. *)
Theorem code_satisfies_cnf_meaning (code : Code) (cnf : list CNF.clause) :
  (∀ clause literal, clause ∈ cnf → literal ∈ clause →
     ∃ r, CNF.eval_literal code literal = Ok r) →
  ∃ b, CNF.code_satisfies_cnf code cnf = Ok b ∧
       (b = true ↔
        ∀ clause, clause ∈ cnf →
          ∃ literal, literal ∈ clause ∧ CNF.eval_literal code literal = Ok (Some true)).
Proof.
  induction cnf as [|clause cnf IH]; intros Hok; cbn [CNF.code_satisfies_cnf].
  - exists true. split; [done|]. split; [|done]. intros _ c Hc.
    by apply elem_of_nil in Hc.
  - destruct (clause_satisfied_meaning code clause) as (b1 & -> & Hiff1).
    { intros l Hl. eapply Hok; [left|done]. }
    cbn [bind_result].
    destruct IH as (b & Hb & Hiff). { intros c l Hc. apply Hok. by right. }
    destruct b1.
    + exists b. split; [done|]. rewrite Hiff. split.
      * intros Hall c [->|Hc]%elem_of_cons; [by apply Hiff1|by apply Hall].
      * intros Hall c Hc. apply Hall. by right.
    + exists false. split; [done|]. split; [done|]. intros Hall.
      apply Hiff1, Hall. left.
Qed.

Lemma code_satisfies_cnf_meaning_witness :
  ∃ b, CNF.code_satisfies_cnf ["red"; "red"; "yellow"; "green"; "blue"]
         [["~Color(1, 'blue')"; "oops"]; []]%string = Ok b ∧
       (b = true ↔
        ∀ clause, clause ∈ [["~Color(1, 'blue')"; "oops"]; []]%string →
          ∃ literal, literal ∈ clause ∧
            CNF.eval_literal ["red"; "red"; "yellow"; "green"; "blue"] literal
            = Ok (Some true)).
Proof.
  apply (code_satisfies_cnf_meaning ["red"; "red"; "yellow"; "green"; "blue"]).
  intros clause literal Hc Hl.
  repeat (apply elem_of_cons in Hc as [->|Hc]); [| |by apply elem_of_nil in Hc].
  - repeat (apply elem_of_cons in Hl as [->|Hl]); [| |by apply elem_of_nil in Hl].
    + eexists. vm_compute. reflexivity.
    + eexists. vm_compute. reflexivity.
  - by apply elem_of_nil in Hl.
Defined.

Lemma py_index_last {A} (t : list A) : py_index t (0 - 1) = last t.
Proof.
  unfold py_index, len. rewrite decide_False by lia.
  destruct (decide (- Z.of_nat (length t) ≤ 0 - 1)) as [Hle|Hgt].
  - replace (Z.to_nat (Z.of_nat (length t) + (0 - 1))) with (pred (length t)) by lia.
    symmetry. apply last_lookup.
  - destruct t; [done|]. cbn [length] in Hgt. lia.
Qed.

(** X14: positions in a literal count from 1, and nothing checks them.
    For a literal of either sign, made of ASCII characters and at most 4300
    long, that reads as position [i] and colour [c]: a position from 1 to
    the length of the code reads the peg [code[i-1]]; a position from 0
    down to [1 - len(code)] reads from the end (0 is the last peg, Python's
    index -1); every other position raises [IndexError], which neither
    [try] block covers, so that [code_satisfies_cnf] raises as soon as it
    reaches such a literal. The peg read is compared with [c]: [==] for a
    positive literal, [!=] for one that starts with [~]. *)
Theorem literal_position_edges (code : Code) (literal : string) (i : Z) (c : string) :
  let negated := bool_decide (is_Some (CNF.after_tilde literal)) in
  let atom := default literal (CNF.after_tilde literal) in
  let value (x : string) :=
    if negated then bool_decide (x ≠ c) else bool_decide (x = c) in
  ascii_text literal → CNF.parse_atom atom = Some (i, c) →
  (1 ≤ i ≤ len code →
   ∃ x, code !! Z.to_nat (i - 1) = Some x ∧
        CNF.eval_literal code literal = Ok (Some (value x))) ∧
  (- len code < i ≤ 0 →
   ∃ x, code !! Z.to_nat (len code + i - 1) = Some x ∧
        CNF.eval_literal code literal = Ok (Some (value x))) ∧
  (len code < i ∨ i ≤ - len code →
   CNF.eval_literal code literal = Raise IndexError ∧
   ∀ (clause : CNF.clause) (cnf : list CNF.clause),
     CNF.code_satisfies_cnf code ((literal :: clause) :: cnf) = Raise IndexError).
Proof.
  cbn zeta. intros _ Hparse.
  assert (Heval : CNF.eval_literal code literal
                  = match py_index code (i - 1) with
                    | Some x =>
                        Ok (Some (if bool_decide (is_Some (CNF.after_tilde literal))
                                  then bool_decide (x ≠ c) else bool_decide (x = c)))
                    | None => Raise IndexError
                    end).
  { unfold CNF.eval_literal.
    destruct (CNF.after_tilde literal) as [pos_literal|].
    - change (CNF.parse_atom pos_literal = Some (i, c)) in Hparse.
      rewrite Hparse. by rewrite bool_decide_eq_true_2 by (by eexists).
    - change (CNF.parse_atom literal = Some (i, c)) in Hparse.
      rewrite Hparse. by rewrite bool_decide_eq_false_2 by (by intros [? [=]]). }
  rewrite Heval. split_and!.
  - intros Hi. unfold py_index, len in *. rewrite decide_True by lia.
    destruct (lookup_lt_is_Some_2 code (Z.to_nat (i - 1))) as [x Hx]; [lia|].
    exists x. by rewrite Hx.
  - intros Hi. unfold py_index, len in *.
    rewrite decide_False, decide_True by lia.
    destruct (lookup_lt_is_Some_2 code (Z.to_nat (Z.of_nat (length code) + (i - 1))))
      as [x Hx]; [lia|].
    exists x. rewrite Hx. split; [|done]. rewrite <- Hx. f_equal. lia.
  - intros Hout.
    assert (Hnone : py_index code (i - 1) = None).
    { unfold py_index, len in *. destruct (decide (0 ≤ i - 1)).
      - apply lookup_ge_None. lia.
      - rewrite decide_False; [done|lia]. }
    rewrite Hnone. split; [done|]. intros clause cnf.
    cbn [CNF.code_satisfies_cnf CNF.clause_satisfied].
    by rewrite Heval, Hnone.
Qed.

Lemma literal_position_edges_witness :
  (∃ x, ["red"; "red"; "yellow"; "green"; "blue"] !! 4%nat = Some x ∧
        CNF.eval_literal ["red"; "red"; "yellow"; "green"; "blue"] "~Color(0, 'blue')"
        = Ok (Some (bool_decide (x ≠ "blue"%string)))) ∧
  (∃ x, ["red"; "red"; "yellow"; "green"; "blue"] !! 3%nat = Some x ∧
        CNF.eval_literal ["red"; "red"; "yellow"; "green"; "blue"] "Color(-1, 'blue')"
        = Ok (Some (bool_decide (x = "blue"%string)))) ∧
  CNF.eval_literal ["red"; "red"; "yellow"; "green"; "blue"] "~Color(6, 'blue')"
  = Raise IndexError.
Proof.
  assert (Hascii : ∀ literal : string,
            bool_decide (Forall (λ a, (nat_of_ascii a < 128)%nat)
                           (list_ascii_of_string literal)) = true →
            (String.length literal ≤ 4300)%nat → ascii_text literal).
  { intros literal Hchars Hlen. split; [|done].
    exact (proj1 (bool_decide_eq_true _) Hchars). }
  split_and!.
  - destruct (literal_position_edges ["red"; "red"; "yellow"; "green"; "blue"]
                "~Color(0, 'blue')" 0 "blue") as (_ & Hend & _).
    + apply Hascii; [vm_compute; reflexivity|vm_compute; lia].
    + vm_compute. reflexivity.
    + apply Hend. vm_compute. split; [reflexivity|discriminate].
  - destruct (literal_position_edges ["red"; "red"; "yellow"; "green"; "blue"]
                "Color(-1, 'blue')" (-1) "blue") as (_ & Hend & _).
    + apply Hascii; [vm_compute; reflexivity|vm_compute; lia].
    + vm_compute. reflexivity.
    + apply Hend. vm_compute. split; [reflexivity|discriminate].
  - destruct (literal_position_edges ["red"; "red"; "yellow"; "green"; "blue"]
                "~Color(6, 'blue')" 6 "blue") as (_ & _ & Hout).
    + apply Hascii; [vm_compute; reflexivity|vm_compute; lia].
    + vm_compute. reflexivity.
    + apply Hout. left. vm_compute. reflexivity.
Defined.


Lemma filter_nil_Forall {A} (P : A → Prop) `{∀ x, Decision (P x)} (l : list A) :
  filter P l = [] ↔ Forall (λ x, ¬ P x) l.
Proof.
  induction l as [|x l IH]; [by split|].
  rewrite filter_cons, Forall_cons.
  destruct (decide (P x)) as [HP|HP]; [split; [done|tauto]|].
  rewrite IH. tauto.
Qed.

Lemma black_pegs_zero_positions (code guess : Code) :
  length code = length guess →
  black_pegs code guess = 0 ↔
  Forall (λ i, code !! i ≠ guess !! i) (seq 0 (length guess)).
Proof.
  intros Hlen.
  rewrite (black_pegs_positions (length guess)) by done.
  unfold matching_positions, len.
  assert (Hnil : ∀ l : list nat, Z.of_nat (length l) = 0 ↔ l = []).
  { intros [|a l]; cbn [length]; split; intros Heq; try done; lia. }
  etrans; [apply Hnil|]. apply filter_nil_Forall.
Qed.

Lemma position_clauses_raise guess positions i :
  i ∈ positions → guess !! i = None →
  CNF.position_clauses guess positions = Raise IndexError.
Proof.
  intros Hi Hnone. induction positions as [|j positions IH];
    [by apply elem_of_nil in Hi|].
  cbn [CNF.position_clauses]. apply elem_of_cons in Hi as [<-|Hi].
  - by rewrite Hnone.
  - destruct (guess !! j); [|done]. by rewrite IH.
Qed.

Lemma position_clauses_meaning (code guess : Code) positions :
  (∀ i, i ∈ positions →
     (i < PEGS)%nat ∧ (i < length code)%nat ∧
     ∃ col, guess !! i = Some col ∧ col ∈ COLORS) →
  ∃ clauses,
    CNF.position_clauses guess positions = Ok clauses ∧
    length clauses = length positions ∧
    CNF.code_satisfies_cnf code clauses
    = Ok (bool_decide (Forall (λ i, code !! i ≠ guess !! i) positions)).
Proof.
  induction positions as [|i positions IH]; intros Hpos; cbn [CNF.position_clauses].
  - exists []. by split_and!.
  - destruct (Hpos i) as (Hi & Hcode & col & Hcol & Hcolour); [left|].
    destruct IH as (clauses & -> & Hlen & Hsat). { intros j Hj. apply Hpos. by right. }
    rewrite Hcol. cbn [bind_result]. eexists. split; [done|].
    split; [cbn [length]; by rewrite Hlen|].
    destruct (lookup_lt_is_Some_2 code i Hcode) as [x Hx].
    cbn [CNF.code_satisfies_cnf CNF.clause_satisfied].
    rewrite (eval_negative_literal code i col x) by done. cbn [bind_result].
    destruct (decide (x = col)) as [->|Hne].
    + rewrite bool_decide_eq_false_2 by (by intros []). cbn [bind_result].
      rewrite bool_decide_eq_false_2; [done|].
      intros [Hhead _]%Forall_cons. apply Hhead. by rewrite Hx, Hcol.
    + rewrite bool_decide_eq_true_2 by done. cbn [bind_result]. rewrite Hsat.
      f_equal. apply bool_decide_ext. rewrite Forall_cons.
      split; [|tauto]. intros Hrest. split; [|done]. rewrite Hx, Hcol. congruence.
Qed.

(** X15: what [derive_simple_cnf_constraints] writes. With a black peg in
    the feedback it writes nothing. With none, it needs a guess of at least
    [PEGS] pegs, and raises [IndexError] on a shorter one; for a guess of
    the code space it writes [PEGS] clauses, and a code of [PEGS] pegs
    satisfies them exactly when it agrees with the guess at no position,
    that is when its own black count against the guess is 0. *)
Theorem derived_clauses_meaning (guess : Code) (fb : Feedback) (code : Code) :
  (fb.1 ≠ 0 → CNF.derive_simple_cnf_constraints guess fb = Ok []) ∧
  (fb.1 = 0 → (length guess < PEGS)%nat →
   CNF.derive_simple_cnf_constraints guess fb = Raise IndexError) ∧
  (fb.1 = 0 → guess ∈ product COLORS PEGS → length code = PEGS →
   ∃ clauses,
     CNF.derive_simple_cnf_constraints guess fb = Ok clauses ∧
     length clauses = PEGS ∧
     CNF.code_satisfies_cnf code clauses = Ok (bool_decide (black_pegs code guess = 0))).
Proof.
  destruct fb as [black white]. unfold CNF.derive_simple_cnf_constraints. cbn [fst].
  split_and!.
  - intros Hnz. by rewrite decide_False.
  - intros -> Hshort. rewrite decide_True by done.
    apply (position_clauses_raise guess _ (length guess)).
    + apply elem_of_seq. lia.
    + apply lookup_ge_None. lia.
  - intros -> Hguess Hlen. rewrite decide_True by done.
    pose proof (product_length _ _ _ Hguess) as Hglen.
    pose proof (product_colours _ _ _ Hguess) as Hgcol.
    destruct (position_clauses_meaning code guess (seq 0 PEGS))
      as (clauses & Hclauses & Hsize & Hsat).
    { intros i Hi%elem_of_seq. split_and!; [lia|lia|].
      destruct (lookup_lt_is_Some_2 guess i) as [col Hcol]; [lia|].
      exists col. split; [done|]. rewrite Forall_forall in Hgcol.
      apply Hgcol. by apply list_elem_of_lookup_2 in Hcol. }
    exists clauses. split_and!; [done|by rewrite Hsize, length_seq|].
    rewrite Hsat. f_equal. apply bool_decide_ext.
    rewrite black_pegs_zero_positions by congruence. by rewrite Hglen.
Qed.

Lemma derived_clauses_meaning_witness :
  CNF.derive_simple_cnf_constraints ["red"; "blue"] (0, 1) = Raise IndexError ∧
  ∃ clauses,
    CNF.derive_simple_cnf_constraints ["red"; "red"; "yellow"; "green"; "blue"] (0, 2)
      = Ok clauses ∧
    length clauses = PEGS ∧
    CNF.code_satisfies_cnf ["blue"; "pink"; "red"; "red"; "pink"] clauses
    = Ok (bool_decide (black_pegs ["blue"; "pink"; "red"; "red"; "pink"]
                         ["red"; "red"; "yellow"; "green"; "blue"] = 0)).
Proof.
  split.
  - destruct (derived_clauses_meaning ["red"; "blue"] (0, 1) []) as (_ & Hshort & _).
    apply Hshort; [reflexivity|vm_compute; lia].
  - destruct (derived_clauses_meaning ["red"; "red"; "yellow"; "green"; "blue"] (0, 2)
                ["blue"; "pink"; "red"; "red"; "pink"]) as (_ & _ & Hfull).
    apply Hfull; [reflexivity| |reflexivity].
    apply (bool_decide_unpack _). vm_compute. exact I.
Defined.


(** ** The depth-first search of [depthsirch.py] *)

Lemma dfs_check_sequence_unfold c node_children path target level max_level attemp :
  DFS.dfs_check_sequence (DFS.mkNode c node_children) path target level max_level attemp
  = if decide (level = max_level)
    then DFS.attempt (DFS.extend path c) target attemp
    else DFS.dfs_children node_children (DFS.extend path c) target level max_level attemp.
Proof.
  cbn [DFS.dfs_check_sequence]. destruct (decide _); [done|].
  revert attemp. induction node_children as [|child rest IH]; intros attemp; [done|].
  cbn [DFS.dfs_children].
  destruct (DFS.dfs_check_sequence child _ _ _ _ _) as [[found attemp'] out].
  destruct found; [done|]. by rewrite IH.
Qed.

Lemma scan_app codes1 codes2 target attemp :
  DFS.scan (codes1 ++ codes2) target attemp
  = let '(found, attemp', out) := DFS.scan codes1 target attemp in
    if found then (true, attemp', out)
    else let '(found', attemp'', out') := DFS.scan codes2 target attemp' in
         (found', attemp'', out ++ out').
Proof.
  revert attemp. induction codes1 as [|p codes1 IH]; intros attemp.
  - cbn. by destruct (DFS.scan codes2 target attemp) as [[? ?] ?].
  - cbn [app DFS.scan].
    destruct (DFS.attempt p target attemp) as [[found attemp'] out].
    destruct found; [done|]. rewrite IH.
    destruct (DFS.scan codes1 target attemp') as [[found1 attemp1] out1].
    destruct found1; [done|].
    destruct (DFS.scan codes2 target attemp1) as [[found2 attemp2] out2].
    by rewrite app_assoc.
Qed.

Lemma scan_singleton p target attemp :
  DFS.scan [p] target attemp = DFS.attempt p target attemp.
Proof.
  cbn. unfold DFS.attempt. destruct (decide _); [done|]. done.
Qed.

Section dfs_tree.
Variables (colors : list string) (target : list string) (max_level : nat).
Hypothesis colors_truthy : ∀ c, c ∈ colors → c ≠ EmptyString.

(** The loop over one level of the tree, given what the search does on
    each node of that level. *)
Lemma dfs_children_level (cs : list string) (below : list DFS.Node)
    (tails : list Code) (path : list string) (level : nat) (attemp : nat) :
  (∀ c attemp, c ∈ cs →
     DFS.dfs_check_sequence (DFS.mkNode (Some c) below) path target (S level)
       max_level attemp
     = DFS.scan ((λ q, path ++ c :: q) <$> tails) target attemp) →
  DFS.dfs_children (DFS.level cs below) path target level max_level attemp
  = DFS.scan ((λ q, path ++ q) <$> (c ← cs; (λ q, c :: q) <$> tails)) target attemp.
Proof.
  revert attemp. induction cs as [|c cs IH]; intros attemp Hnode; [done|].
  cbn [DFS.level fmap list_fmap DFS.dfs_children]. fold (DFS.level cs below).
  rewrite Hnode by left.
  cbn [mbind list_bind]. rewrite fmap_app, scan_app, <- list_fmap_compose.
  change ((λ q, path ++ q) ∘ (λ q, c :: q)) with (λ q : Code, path ++ c :: q).
  destruct (DFS.scan _ target attemp) as [[found attemp'] out].
  destruct found; [done|].
  rewrite IH; [done|]. intros c' a' Hc'. apply Hnode. by right.
Qed.

(** The loop over the nodes that have [depth] levels below them, entered
    at a level from which the bottom is [depth + 1] levels down. *)
Lemma dfs_children_depth (depth : nat) (cs : list string) (path : list string)
    (level : nat) (attemp : nat) :
  (S level + depth = max_level)%nat → (∀ c, c ∈ cs → c ∈ colors) →
  DFS.dfs_children (DFS.level cs (match depth with
                                  | O => []
                                  | S d => Nat.iter d (DFS.level colors)
                                             (DFS.level colors [])
                                  end))
    path target level max_level attemp
  = DFS.scan ((λ q, path ++ q) <$> (c ← cs; (λ q, c :: q) <$> product colors depth))
      target attemp.
Proof.
  revert cs path level attemp.
  induction depth as [|depth IH]; intros cs path level attemp Hlevel Hcs.
  - apply dfs_children_level. intros c a Hc.
    rewrite dfs_check_sequence_unfold, decide_True by lia.
    cbn [product fmap list_fmap]. rewrite scan_singleton.
    unfold DFS.extend, DFS.truthy.
    rewrite bool_decide_eq_false_2 by (apply colors_truthy, Hcs, Hc). done.
  - apply dfs_children_level. intros c a Hc.
    rewrite dfs_check_sequence_unfold, decide_False by lia.
    unfold DFS.extend, DFS.truthy.
    rewrite bool_decide_eq_false_2 by (apply colors_truthy, Hcs, Hc).
    cbn [negb].
    assert (Hbelow : Nat.iter depth (DFS.level colors) (DFS.level colors [])
              = DFS.level colors (match depth with
                                  | O => []
                                  | S d => Nat.iter d (DFS.level colors)
                                             (DFS.level colors [])
                                  end)) by (by destruct depth).
    rewrite Hbelow, IH by (done || lia).
    cbn [product]. f_equal. apply list_fmap_ext. intros _ q _.
    by rewrite <- app_assoc.
Qed.
End dfs_tree.

(** The search over the tree built for [max_level >= 1] levels, started at
    the root with an empty path, does what trying the codes of
    [itertools.product(colors, repeat=max_level)] one after the other does:
    same result, same count of attempts, same lines printed. *)
Lemma dfs_is_scan (colors : list string) (target : list string) (max_level attemp : nat) :
  (∀ c, c ∈ colors → c ≠ EmptyString) → (1 ≤ max_level)%nat →
  DFS.dfs_check_sequence (DFS.build_tree_bottom_up colors max_level) [] target 0
    max_level attemp
  = DFS.scan (product colors max_level) target attemp.
Proof.
  intros Htruthy Hlevel. unfold DFS.build_tree_bottom_up.
  rewrite dfs_check_sequence_unfold, decide_False by lia. cbn [DFS.extend].
  destruct max_level as [|depth]; [lia|]. cbn [Nat.sub]. rewrite Nat.sub_0_r.
  assert (Hbelow : Nat.iter depth (DFS.level colors) (DFS.level colors [])
            = DFS.level colors (match depth with
                                | O => []
                                | S d => Nat.iter d (DFS.level colors)
                                           (DFS.level colors [])
                                end)) by (by destruct depth).
  rewrite Hbelow, (dfs_children_depth colors target (S depth) Htruthy) by (done || lia).
  cbn [product]. f_equal. rewrite <- (list_fmap_id (_ ≫= _)) at 2.
  by apply list_fmap_ext.
Qed.


Lemma scan_not_found (codes : list Code) target attemp :
  target ∉ codes →
  DFS.scan codes target attemp
  = (false, (attemp + length codes)%nat,
     (λ p, DFS.PrintNoMatch p (get_feedback target p)) <$> codes).
Proof.
  revert attemp. induction codes as [|p codes IH]; intros attemp Hnot.
  - cbn. by rewrite Nat.add_0_r.
  - apply not_elem_of_cons in Hnot as [Hne Hnot].
    cbn [DFS.scan]. unfold DFS.attempt. rewrite decide_False by done.
    rewrite IH by done. cbn [length fmap list_fmap app]. do 2 f_equal. lia.
Qed.

Lemma scan_found (codes : list Code) target attemp :
  target ∈ codes →
  ∃ i, codes !! i = Some target ∧
       (∀ j, (j < i)%nat → codes !! j ≠ Some target) ∧
       DFS.scan codes target attemp
       = (true, (attemp + i + 1)%nat,
          ((λ p, DFS.PrintNoMatch p (get_feedback target p)) <$> take i codes)
          ++ [DFS.PrintMatch target]).
Proof.
  revert attemp. induction codes as [|p codes IH]; intros attemp Hin.
  - by apply elem_of_nil in Hin.
  - cbn [DFS.scan]. unfold DFS.attempt.
    destruct (decide (p = target)) as [->|Hne].
    + exists 0%nat. split_and!; [done|intros j Hj; lia|].
      cbn. do 2 f_equal. lia.
    + apply elem_of_cons in Hin as [->|Hin]; [done|].
      destruct (IH (S attemp) Hin) as (i & Hi & Hfirst & ->).
      exists (S i). split_and!; [done| |].
      * intros [|j] Hj; cbn [lookup list_lookup]; [congruence|]. apply Hfirst. lia.
      * cbn [take fmap list_fmap app]. do 2 f_equal. lia.
Qed.

(** X16: the depth-first search goes through the codes in the order of
    [itertools.product]: on the tree built for [max_level >= 1] levels over
    non-empty colour names, started at the root with an empty path, it
    returns, counts and prints what trying the codes of [product(colors,
    repeat=max_level)] one after the other, up to the first that equals the
    target, returns, counts and prints. *)
Theorem dfs_tries_codes_in_product_order
    (colors : list string) (target : list string) (max_level attemp : nat) :
  (∀ c, c ∈ colors → c ≠ EmptyString) → (1 ≤ max_level)%nat →
  DFS.dfs_check_sequence (DFS.build_tree_bottom_up colors max_level) [] target 0
    max_level attemp
  = DFS.scan (product colors max_level) target attemp.
Proof. apply dfs_is_scan. Qed.

Lemma dfs_tries_codes_in_product_order_witness :
  DFS.dfs_check_sequence (DFS.build_tree_bottom_up ["a"; "b"] 2) [] ["b"; "a"] 0 2 0
  = DFS.scan (product ["a"; "b"] 2) ["b"; "a"] 0.
Proof.
  apply (dfs_tries_codes_in_product_order ["a"; "b"] ["b"; "a"] 2 0).
  - intros c Hc. repeat (apply elem_of_cons in Hc as [->|Hc]); [done|done|].
    by apply elem_of_nil in Hc.
  - lia.
Defined.

(** X17: the search finds the target exactly when it is a code of
    [max_level] pegs over [colors]. If it is, the search returns [True]
    after as many attempts as the position of the target in the order of
    [itertools.product], counted from 1, having printed a miss for each code
    before it; if not, it returns [False] after [len(colors) ** max_level]
    attempts. *)
Theorem dfs_outcome (colors : list string) (target : list string) (max_level : nat) :
  (∀ c, c ∈ colors → c ≠ EmptyString) → (1 ≤ max_level)%nat →
  (target ∈ product colors max_level →
   ∃ i, product colors max_level !! i = Some target ∧
        (∀ j, (j < i)%nat → product colors max_level !! j ≠ Some target) ∧
        DFS.dfs_check_sequence (DFS.build_tree_bottom_up colors max_level) [] target 0
          max_level 0
        = (true, (i + 1)%nat,
           ((λ p, DFS.PrintNoMatch p (get_feedback target p))
              <$> take i (product colors max_level))
           ++ [DFS.PrintMatch target])) ∧
  (target ∉ product colors max_level →
   DFS.dfs_check_sequence (DFS.build_tree_bottom_up colors max_level) [] target 0
     max_level 0
   = (false, (length colors ^ max_level)%nat,
      (λ p, DFS.PrintNoMatch p (get_feedback target p)) <$> product colors max_level)).
Proof.
  intros Htruthy Hlevel. rewrite dfs_is_scan by done. split.
  - intros Hin. destruct (scan_found _ target 0 Hin) as (i & Hi & Hfirst & Hscan).
    exists i. by split_and!.
  - intros Hnot. rewrite scan_not_found by done. by rewrite product_size.
Qed.

Lemma dfs_outcome_witness :
  ∃ i, product ["a"; "b"] 2 !! i = Some ["b"; "a"] ∧
       (∀ j, (j < i)%nat → product ["a"; "b"] 2 !! j ≠ Some ["b"; "a"]) ∧
       DFS.dfs_check_sequence (DFS.build_tree_bottom_up ["a"; "b"] 2) [] ["b"; "a"] 0 2 0
       = (true, (i + 1)%nat,
          ((λ p, DFS.PrintNoMatch p (get_feedback ["b"; "a"] p))
             <$> take i (product ["a"; "b"] 2))
          ++ [DFS.PrintMatch ["b"; "a"]]).
Proof.
  destruct (dfs_outcome ["a"; "b"] ["b"; "a"] 2) as [Hfound _].
  - intros c Hc. repeat (apply elem_of_cons in Hc as [->|Hc]); [done|done|].
    by apply elem_of_nil in Hc.
  - lia.
  - apply Hfound. apply (bool_decide_unpack _). vm_compute. exact I.
Defined.

(** ** The scripts *)

Lemma check_input_accepts (user_sequence : list string) :
  check_input user_sequence = None ↔ user_sequence ∈ product COLORS PEGS.
Proof.
  unfold check_input.
  assert (Hfilter : filter (λ c, c ∉ COLORS) user_sequence = []
                    ↔ Forall (λ c, c ∈ COLORS) user_sequence).
  { rewrite filter_nil_Forall. apply Forall_iff. intros c.
    destruct (decide (c ∈ COLORS)); tauto. }
  split.
  - destruct (filter _ user_sequence) eqn:Hinv; [|done].
    destruct (decide _) as [|Hlen]; [done|]. intros _.
    apply product_complete; [|by apply Hfilter].
    destruct (decide (length user_sequence = PEGS)); [done|by destruct Hlen].
  - intros Hin. pose proof (product_length _ _ _ Hin) as Hlen.
    apply product_colours, Hfilter in Hin. rewrite Hin.
    by rewrite decide_False by (by intros []).
Qed.


(** X18: what the input check of the scripts lets through and what it
    reports. The sequence is accepted exactly when it is a code of the code
    space. Colours that are not in [COLORS] are reported first, all of them
    and in the order entered, whatever the length; a wrong length is
    reported only when every colour is valid. *)
Theorem check_input_verdict (user_sequence : list string) :
  (check_input user_sequence = None ↔ user_sequence ∈ product COLORS PEGS) ∧
  (∀ invalid_colors,
     check_input user_sequence = Some (InvalidColors invalid_colors) ↔
     invalid_colors = filter (λ c, c ∉ COLORS) user_sequence ∧ invalid_colors ≠ []) ∧
  (∀ entered,
     check_input user_sequence = Some (WrongLength entered) ↔
     Forall (λ c, c ∈ COLORS) user_sequence ∧
     entered = length user_sequence ∧ entered ≠ PEGS).
Proof.
  split; [apply check_input_accepts|].
  assert (Hfilter : filter (λ c, c ∉ COLORS) user_sequence = []
                    ↔ Forall (λ c, c ∈ COLORS) user_sequence).
  { rewrite filter_nil_Forall. apply Forall_iff. intros c.
    destruct (decide (c ∈ COLORS)); tauto. }
  unfold check_input. split.
  - intros invalid_colors.
    destruct (filter _ user_sequence) as [|c l] eqn:Hinv.
    + destruct (decide _); split; try done; by intros [-> ?].
    + split; [by intros [= <-]|]. by intros [-> _].
  - intros entered.
    destruct (filter _ user_sequence) as [|c l] eqn:Hinv.
    + destruct (decide _) as [Hlen|Hlen].
      * split; [intros [= <-]; split_and!; [by apply Hfilter|done|done]|].
        by intros (_ & -> & _).
      * split; [done|]. intros (_ & -> & Hne). by destruct Hlen.
    + split; [done|]. intros (Hall & _). apply Hfilter in Hall. done.
Qed.

Lemma check_input_verdict_witness :
  check_input ["red"; "mauve"; "blue"; "teal"]
  = Some (InvalidColors ["mauve"; "teal"]).
Proof.
  destruct (check_input_verdict ["red"; "mauve"; "blue"; "teal"]) as (_ & Hinvalid & _).
  apply Hinvalid. split; [vm_compute; reflexivity|discriminate].
Defined.

Lemma COLORS_truthy c : c ∈ COLORS → c ≠ EmptyString.
Proof.
  unfold COLORS. intros Hc.
  repeat (apply elem_of_cons in Hc as [->|Hc]); try done.
  by apply elem_of_nil in Hc.
Qed.

Lemma dfs_check_input_accepts (user_sequence : list string) :
  dfs_check_input user_sequence = None ↔ check_input user_sequence = None.
Proof.
  unfold dfs_check_input, check_input.
  change DFS.colors with COLORS. change 5%nat with PEGS.
  destruct (filter _ user_sequence); [|done]. by destruct (decide _).
Qed.

(** X19: each of the four scripts, once the entered sequence has passed
    its check, ends by finding it: the three solvers return a history that
    ends with the sequence after at most [6 ** 5] turns, whatever is drawn,
    and the tree search returns [True] after as many attempts as the
    position of the sequence among the codes, counted from 1. The check of
    [depthsirch.py], written against its own [colors] and the number 5,
    passes the same sequences as the check of the other three. On a
    sequence that does not pass, every script prints one line and exits
    without running anything: the three solver scripts the same line, and
    [depthsirch.py] that line too for invalid colours, but a sentence of
    its own for a wrong number of colours. *)
Theorem scripts_find_the_entered_sequence (user_sequence : list string) (g : rng) :
  (dfs_check_input user_sequence = None ↔ check_input user_sequence = None) ∧
  (check_input user_sequence = None →
   (∃ history out g',
      main_inference user_sequence g = Ran (Some (Ok history), out, g') ∧
      last history = Some user_sequence ∧
      (length history ≤ length COLORS ^ PEGS)%nat) ∧
   (∃ history out g',
      main_cnf user_sequence g = Ran (Some (Ok history), out, g') ∧
      last history = Some user_sequence ∧
      (length history ≤ length COLORS ^ PEGS)%nat) ∧
   (∃ history out,
      main_minimax user_sequence = Ran (Some (Ok history), out) ∧
      last history = Some user_sequence ∧
      (length history ≤ length COLORS ^ PEGS)%nat) ∧
   (∃ i out,
      main_dfs user_sequence = Ran (true, (i + 1)%nat, out) ∧
      product DFS.colors 5 !! i = Some user_sequence)) ∧
  (∀ e, check_input user_sequence = Some e →
     main_inference user_sequence g = Exited (report e) ∧
     main_cnf user_sequence g = Exited (report e) ∧
     main_minimax user_sequence = Exited (report e) ∧
     ∃ printed,
       main_dfs user_sequence = Exited printed ∧
       match e with
       | InvalidColors invalid_colors =>
           printed = report e ∧
           printed = ("❌ Hatalı renkler bulundu: " ++ join ", " invalid_colors)%string
       | WrongLength entered =>
           printed = ("Toplam renk sayısı 5 olmalıdır, sizin girdiniz: "
                      ++ CNF.str_of_nat entered)%string ∧
           report e = ("Toplam renk sayısı 5 olmalıdır, girilen sayı: "
                       ++ CNF.str_of_nat entered)%string ∧
           printed ≠ report e
       end).
Proof.
  split; [apply dfs_check_input_accepts|]. split.
  - intros Hcheck. pose proof (proj1 (check_input_accepts user_sequence) Hcheck) as Hin.
    unfold main_inference, main_cnf, main_minimax, main_dfs.
    rewrite Hcheck, (proj2 (dfs_check_input_accepts user_sequence) Hcheck).
    split_and!.
    + destruct (logical_inference_solver_solves user_sequence PEGS COLORS 3 g Hin)
        as (history & out & g' & -> & Hlast & Hlen & _).
      by exists history, out, g'.
    + destruct (logical_inference_solver_CNF_solves user_sequence 3 g Hin)
        as (history & out & g' & -> & Hlast & Hlen & _).
      by exists history, out, g'.
    + destruct (mastermind_minimax_solver_default user_sequence Hin)
        as (history & out & -> & Hlast & Hlen & _).
      by exists history, out.
    + change DFS.colors with COLORS.
      rewrite (dfs_is_scan COLORS user_sequence 5 0 COLORS_truthy) by lia.
      destruct (scan_found (product COLORS 5) user_sequence 0 Hin)
        as (i & Hi & _ & ->).
      by exists i, ((((λ p, DFS.PrintNoMatch p (get_feedback user_sequence p))
                      <$> take i (product COLORS 5))
                    ++ [DFS.PrintMatch user_sequence])).
  - intros e Hcheck. unfold main_inference, main_cnf, main_minimax, main_dfs.
    rewrite Hcheck. split_and!; [done..|].
    revert Hcheck. unfold dfs_check_input, check_input.
    change DFS.colors with COLORS. change 5%nat with PEGS.
    destruct (filter _ user_sequence) as [|c invalid] eqn:Hinvalid.
    + destruct (decide _); [|done]. intros [= <-]. eexists. split; [done|].
      split_and!; [done|done|]. simpl. discriminate.
    + intros [= <-]. eexists. by split_and!.
Qed.

Lemma scripts_find_the_entered_sequence_witness :
  (∃ i out,
     main_dfs ["pink"; "red"; "blue"; "blue"; "brown"] = Ran (true, (i + 1)%nat, out) ∧
     product DFS.colors 5 !! i = Some ["pink"; "red"; "blue"; "blue"; "brown"]) ∧
  main_inference ["red"; "blue"] one_then_zero
  = Exited "Toplam renk sayısı 5 olmalıdır, girilen sayı: 2" ∧
  main_dfs ["red"; "blue"]
  = Exited "Toplam renk sayısı 5 olmalıdır, sizin girdiniz: 2" ∧
  main_dfs ["red"; "mauve"; "teal"] = Exited "❌ Hatalı renkler bulundu: mauve, teal".
Proof.
  split_and!.
  - destruct (scripts_find_the_entered_sequence
                ["pink"; "red"; "blue"; "blue"; "brown"] one_then_zero)
      as (_ & Hfind & _).
    apply Hfind. vm_compute. reflexivity.
  - destruct (scripts_find_the_entered_sequence ["red"; "blue"] one_then_zero)
      as (_ & _ & Hexit).
    destruct (Hexit (WrongLength 2)) as (-> & _); [vm_compute; reflexivity|].
    vm_compute. reflexivity.
  - destruct (scripts_find_the_entered_sequence ["red"; "blue"] one_then_zero)
      as (_ & _ & Hexit).
    destruct (Hexit (WrongLength 2)) as (_ & _ & _ & printed & -> & -> & _);
      [vm_compute; reflexivity|].
    vm_compute. reflexivity.
  - destruct (scripts_find_the_entered_sequence ["red"; "mauve"; "teal"] one_then_zero)
      as (_ & _ & Hexit).
    destruct (Hexit (InvalidColors ["mauve"; "teal"]))
      as (_ & _ & _ & printed & -> & _ & ->); [vm_compute; reflexivity|].
    vm_compute. reflexivity.
Defined.


(** ** The loops always end *)

Lemma observe_halted_solved secret pegs all_premises st g' guess :
  Inference.halted (Inference.observe secret pegs all_premises st g' guess) = None →
  get_feedback secret guess ≠ (Z.of_nat pegs, 0).
Proof.
  unfold Inference.observe. by destruct (decide _).
Qed.

Lemma observe_shrinks secret pegs colors_list all_premises st g' guess :
  inference_trace_inv secret pegs colors_list st →
  guess ∈ Inference.remaining st →
  Inference.halted (Inference.observe secret pegs all_premises st g' guess) = None →
  (length (Inference.remaining (Inference.observe secret pegs all_premises st g' guess))
   < length (Inference.remaining st))%nat.
Proof.
  intros (_ & Hrem & _) Hguess Hrun.
  apply observe_halted_solved in Hrun.
  assert (Hglen : length guess = pegs).
  { rewrite Hrem in Hguess. apply list_elem_of_filter in Hguess as [_ Hg].
    by eapply product_length. }
  assert (Hself : get_feedback guess guess ≠ get_feedback secret guess).
  { rewrite get_feedback_self. unfold len. rewrite Hglen. congruence. }
  rewrite observe_remaining. destruct all_premises.
  - apply (length_filter_lt _ _ guess); [done|].
    rewrite Forall_app, Forall_singleton. cbn [fst snd]. tauto.
  - by apply (length_filter_lt _ _ guess).
Qed.

Lemma observe_exception secret pegs all_premises st g' guess e :
  Inference.halted (Inference.observe secret pegs all_premises st g' guess)
  ≠ Some (Raise e).
Proof.
  unfold Inference.observe. destruct (decide _); [done|]. by destruct (_ && _).
Qed.

Lemma random_choice_exception {A} (seq : list A) (g g' : rng) (e : exn) :
  random_choice seq g = (Raise e, g') → e = IndexError ∧ seq = [].
Proof.
  destruct seq as [|a seq]; [by intros [= <- _]|]. intros Hchoice.
  destruct (random_choice_ok (a :: seq) g) as (x & Hx & _); [done|]. congruence.
Qed.

Section inference_always_ends.
Variables (secret : Code) (pegs : nat) (colors_list : list string)
          (num_initial_guesses : nat) (g : rng).

Let run := Inference.run secret pegs colors_list num_initial_guesses g.

(** Each turn that leaves the run going uses up an exploratory turn or
    removes a candidate. *)
Lemma inference_step_measure st :
  inference_trace_inv secret pegs colors_list st →
  Inference.halted (Inference.step secret pegs num_initial_guesses st) = None →
  let st' := Inference.step secret pegs num_initial_guesses st in
  ((num_initial_guesses - Inference.turn st')
     + length (Inference.remaining st')
   < (num_initial_guesses - Inference.turn st) + length (Inference.remaining st))%nat.
Proof.
  intros Hinv. cbn zeta. unfold Inference.step.
  destruct (Inference.halted st) eqn:Hhalt; [by rewrite Hhalt|].
  destruct (decide _) as [Hphase|Hphase].
  - unfold Inference.explore_turn.
    destruct (random_choice _ _) as [[guess|e] g'] eqn:Hchoice; [|done].
    intros Hrun. rewrite observe_turn.
    pose proof (observe_shrinks secret pegs colors_list false st g' guess Hinv
                  (random_choice_in _ _ _ _ Hchoice) Hrun). lia.
  - destruct (Inference.remaining st) eqn:Hrem; [done|]. rewrite <- Hrem.
    unfold Inference.infer_turn.
    destruct (select_best_first_min (Inference.premises st) (Inference.remaining st))
      as (i & best & -> & Hi & _); [by rewrite Hrem|].
    intros Hrun. rewrite observe_turn.
    pose proof (observe_shrinks secret pegs colors_list true st (Inference.gen st) best
                  Hinv (list_elem_of_lookup_2 _ _ _ Hi) Hrun). lia.
Qed.

Lemma inference_run_measure k :
  Inference.halted (run k) = None →
  (k + (num_initial_guesses - Inference.turn (run k))
     + length (Inference.remaining (run k))
   ≤ num_initial_guesses + length (product colors_list pegs))%nat.
Proof.
  induction k as [|k IH]; [cbn; lia|].
  change (run (S k)) with (Inference.step secret pegs num_initial_guesses (run k)).
  intros Hrun.
  pose proof (inference_step_measure (run k)
                (inference_run_trace secret pegs colors_list num_initial_guesses g k)
                Hrun) as Hlt.
  apply inference_step_running in Hrun as [Hprev _].
  specialize (IH Hprev). cbn zeta in Hlt. lia.
Qed.

Lemma inference_step_exception st e :
  (∀ e', Inference.halted st = Some (Raise e') → e' = IndexError) →
  Inference.halted (Inference.step secret pegs num_initial_guesses st)
    = Some (Raise e) →
  e = IndexError.
Proof.
  intros Hprev. unfold Inference.step.
  destruct (Inference.halted st) eqn:Hhalt; [rewrite Hhalt; apply Hprev|].
  destruct (decide _).
  - unfold Inference.explore_turn.
    destruct (random_choice _ _) as [[guess|e'] g'] eqn:Hchoice.
    + intros Hexn. by apply observe_exception in Hexn.
    + intros [= <-]. by apply random_choice_exception in Hchoice as [-> _].
  - destruct (Inference.remaining st) eqn:Hrem; [done|].
    unfold Inference.infer_turn.
    destruct (select_best_first_min (Inference.premises st) (Inference.remaining st))
      as (i & best & -> & _); [by rewrite Hrem|].
    intros Hexn. by apply observe_exception in Hexn.
Qed.

Lemma inference_always_halts :
  ∃ r, Inference.halted (run (Inference.fuel pegs colors_list num_initial_guesses))
       = Some r ∧
       (∀ e, r = Raise e → e = IndexError).
Proof.
  destruct (Inference.halted (run (Inference.fuel pegs colors_list
              num_initial_guesses))) as [r|] eqn:Hhalt.
  - exists r. split; [done|]. intros e ->. revert e Hhalt.
    generalize (Inference.fuel pegs colors_list num_initial_guesses).
    induction n as [|n IH]; [done|]. intros e.
    change (run (S n)) with (Inference.step secret pegs num_initial_guesses (run n)).
    apply inference_step_exception. intros e'. apply IH.
  - apply inference_run_measure in Hhalt. unfold Inference.fuel in Hhalt. lia.
Qed.
End inference_always_ends.

(** X20: [logical_inference_solver] always ends, on any secret, any number
    of exploratory turns and whatever is drawn: it returns its history or
    raises. The only exception is [IndexError], from [random.choice] on an
    empty candidate list in the exploratory phase, and it cannot occur when
    the secret is a code of the code space. *)
Theorem logical_inference_solver_always_ends
    (secret : Code) (pegs : nat) (colors_list : list string)
    (num_initial_guesses : nat) (g : rng) :
  ∃ r out g',
    Inference.logical_inference_solver secret pegs colors_list num_initial_guesses g
      = (Some r, out, g') ∧
    ((∃ history, r = Ok history) ∨
     (r = Raise IndexError ∧ secret ∉ product colors_list pegs)).
Proof.
  destruct (inference_always_halts secret pegs colors_list num_initial_guesses g)
    as (r & Hhalt & Hexn).
  unfold Inference.logical_inference_solver. rewrite Hhalt.
  eexists r, _, _. split; [done|].
  destruct r as [history|e]; [left; by eexists|right].
  rewrite (Hexn e eq_refl). split; [done|]. intros Hvalid.
  pose proof (inference_run_inv secret pegs colors_list num_initial_guesses Hvalid g
                (Inference.fuel pegs colors_list num_initial_guesses))
    as (_ & _ & _ & _ & _ & Hrun).
  rewrite Hhalt in Hrun. by destruct Hrun as [[=] _].
Qed.


Lemma cnf_play_shrinks secret last_phase st :
  cnf_trace_inv st → CNF.remaining st ≠ [] →
  CNF.halted (CNF.play secret last_phase st) = None →
  (length (CNF.remaining (CNF.play secret last_phase st))
   < length (CNF.remaining st))%nat.
Proof.
  intros (Hrem & _) Hne. unfold CNF.play.
  destruct (random_choice_ok (CNF.remaining st) (CNF.gen st) Hne)
    as (guess & -> & Hguess).
  assert (Hglen : length guess = PEGS).
  { rewrite Hrem in Hguess. apply list_elem_of_filter in Hguess as [_ Hg].
    by eapply product_length. }
  destruct (decide _) as [Hsolved|Hnot]; [done|].
  destruct (CNF.derive_simple_cnf_constraints _ _) as [new_clauses|e]; [|done].
  set (premises' := CNF.premises st ++ _).
  set (by_premises := filter _ (CNF.remaining st)).
  assert (Hshrink : (length by_premises < length (CNF.remaining st))%nat).
  { apply (length_filter_lt _ _ guess); [done|].
    intros Hall. unfold premises' in Hall.
    rewrite Forall_app, Forall_singleton in Hall.
    destruct Hall as [_ Hall]. cbn [fst snd] in Hall.
    apply Hnot. rewrite <- Hall.
    rewrite get_feedback_self. unfold len. by rewrite Hglen. }
  destruct (CNF.filter_cnf _ _) as [kept|e] eqn:Hfilter; [|done].
  pose proof (sublist_length _ _ (filter_cnf_sublist _ _ _ Hfilter)) as Hkeptlen.
  destruct (_ && _); [done|].
  intros _. cbn [CNF.remaining]. lia.
Qed.

Section cnf_always_ends.
Variables (secret : Code) (num_initial_guesses : nat) (g : rng).

Let run := CNF.run secret num_initial_guesses g.

Lemma cnf_run_measure k :
  CNF.halted (run k) = None →
  (k + length (CNF.remaining (run k)) ≤ length (product COLORS PEGS))%nat.
Proof.
  induction k as [|k IH]; [intros _; apply Nat.le_refl|].
  change (run (S k)) with (CNF.step secret num_initial_guesses (run k)).
  intros Hrun. pose proof Hrun as [Hprev _]%cnf_step_running.
  specialize (IH Hprev).
  pose proof (cnf_run_trace secret num_initial_guesses g k) as Hinv. fold run in Hinv.
  revert Hrun IH. generalize dependent (run k). intros st Hprev Hinv.
  unfold CNF.step. rewrite Hprev.
  destruct (decide _);
    (destruct (CNF.remaining st) eqn:Hrem; [done|]); rewrite <- Hrem;
    intros Hrun IH;
    (assert (Hne : CNF.remaining st ≠ []) by (by rewrite Hrem));
    pose proof (cnf_play_shrinks secret _ st Hinv Hne Hrun); lia.
Qed.

Lemma cnf_always_halts :
  ∃ history, CNF.halted (run CNF.fuel) = Some (Ok history).
Proof.
  pose proof (cnf_run_trace secret num_initial_guesses g CNF.fuel)
    as (_ & _ & _ & Hexn).
  fold run in Hexn.
  destruct (CNF.halted (run CNF.fuel)) as [[history|e]|] eqn:Hhalt.
  - by exists history.
  - by destruct (Hexn e).
  - apply cnf_run_measure in Hhalt. unfold CNF.fuel in Hhalt. lia.
Qed.
End cnf_always_ends.

(** X21: [logical_inference_solver_CNF] always returns, on any secret (of
    the code space or not), any number of exploratory turns and whatever is
    drawn: the loops end within [len(COLORS) ** PEGS + 1] turns and no
    exception escapes. Every turn that does not end the run removes at least
    the guess just made from the candidates. *)
Theorem logical_inference_solver_CNF_always_returns
    (secret : Code) (num_initial_guesses : nat) (g : rng) :
  (∃ history out g',
     CNF.logical_inference_solver_CNF secret num_initial_guesses g
       = (Some (Ok history), out, g')) ∧
  (∀ k, CNF.halted (CNF.run secret num_initial_guesses g (S k)) = None →
        (length (CNF.remaining (CNF.run secret num_initial_guesses g (S k)))
         < length (CNF.remaining (CNF.run secret num_initial_guesses g k)))%nat).
Proof.
  split.
  - destruct (cnf_always_halts secret num_initial_guesses g) as [history Hhalt].
    unfold CNF.logical_inference_solver_CNF. rewrite Hhalt. by eexists _, _, _.
  - intros k.
    change (CNF.run secret num_initial_guesses g (S k))
      with (CNF.step secret num_initial_guesses (CNF.run secret num_initial_guesses g k)).
    pose proof (cnf_run_trace secret num_initial_guesses g k) as Hinv.
    generalize dependent (CNF.run secret num_initial_guesses g k). intros st Hinv Hrun.
    pose proof Hrun as [Hprev _]%cnf_step_running.
    revert Hrun. unfold CNF.step. rewrite Hprev.
    destruct (decide _);
      (destruct (CNF.remaining st) eqn:Hrem; [done|]); rewrite <- Hrem;
      intros Hrun; apply cnf_play_shrinks; try done; by rewrite Hrem.
Qed.


(** Whatever feedback other than all black is given to the guess
    [minimax_guess] returns, some candidate does not give it. *)
Lemma minimax_guess_splits (remaining all_codes : list Code) (pegs : nat) g
    (fb : Feedback) :
  remaining ≠ [] → remaining ⊆ all_codes →
  (∀ c, c ∈ all_codes → length c = pegs) →
  Minimax.minimax_guess remaining all_codes = Ok (Some g) →
  fb ≠ (Z.of_nat pegs, 0) →
  (length (filter (λ code, get_feedback code g = fb) remaining) < length remaining)%nat.
Proof.
  intros Hne Hsub Hlen Hg Hnot.
  destruct (minimax_guess_characterised remaining all_codes Hne Hsub)
    as (g' & Hg' & Hin & _ & Hopt & Hpref).
  rewrite Hg in Hg'. injection Hg' as <-.
  destruct remaining as [|c0 rest] eqn:Hrem; [done|]. rewrite <- Hrem in *.
  assert (Hc0 : c0 ∈ remaining) by (rewrite Hrem; left).
  assert (Hrlen : ∀ c, c ∈ remaining → length c = pegs) by (intros c Hc; auto).
  destruct (decide (Forall (λ c, c = c0) remaining)) as [Hall|Hsome].
  - rewrite Forall_forall in Hall.
    assert (Hgin : g ∈ remaining).
    { apply Hpref. exists c0. split; [done|]. intros c' _.
      by rewrite !(largest_group_all_same _ c0). }
    apply (length_filter_lt _ _ g); [done|].
    rewrite get_feedback_self. unfold len. rewrite (Hrlen g Hgin). congruence.
  - apply not_Forall_Exists in Hsome; [|apply _].
    apply Exists_exists in Hsome. destruct Hsome as (other & Hother & Hne').
    pose proof (largest_group_secret_lt _ c0 other pegs Hrlen (Hrlen c0 Hc0) Hc0
                  Hother Hne') as Hlt.
    pose proof (Hopt c0 (Hsub _ Hc0)) as Hle.
    destruct (largest_group_spec remaining g Hne) as [_ Hub].
    specialize (Hub fb).
    unfold Minimax.group_size, len in *. lia.
Qed.

Section minimax_always_ends.
Variables (secret : Code) (pegs : nat) (colors_list : list string).

Let run := Minimax.run secret pegs colors_list.

Lemma minimax_play_shrinks k :
  Minimax.remaining (run k) ≠ [] → Minimax.turn (run k) ≠ 0%nat →
  Minimax.halted (Minimax.play secret pegs colors_list (run k)) = None →
  (length (Minimax.remaining (Minimax.play secret pegs colors_list (run k)))
   < length (Minimax.remaining (run k)))%nat.
Proof.
  intros Hne Hturn.
  pose proof (sublist_subseteq _ _ (minimax_run_sublist secret pegs colors_list k))
    as Hsub.
  fold run in Hsub. generalize dependent (run k). intros st Hne Hturn Hsub.
  unfold Minimax.play, Minimax.choose.
  rewrite decide_False by lia.
  destruct (Minimax.minimax_guess _ _) as [[guess|]|e] eqn:Hguess; [|done..].
  cbn [bind_result].
  destruct (decide _) as [Hsolved|Hnot]; [done|].
  set (new_remaining := filter _ (Minimax.remaining st)).
  assert (Hlt : (length new_remaining < length (Minimax.remaining st))%nat).
  { eapply minimax_guess_splits; [done|exact Hsub| |exact Hguess|exact Hnot].
    intros c Hc. by eapply product_length. }
  rewrite (bool_decide_eq_false_2 (length new_remaining = _)) by lia.
  by destruct (bool_decide (new_remaining = [])).
Qed.

Lemma minimax_running_turn k :
  Minimax.halted (run k) = None → Minimax.turn (run k) = k.
Proof.
  induction k as [|k IH]; [done|].
  change (run (S k)) with (Minimax.step secret pegs colors_list (run k)).
  intros [Hprev ->]%minimax_step_running. by rewrite IH.
Qed.

Lemma minimax_run_measure k :
  Minimax.halted (run k) = None →
  (k + length (Minimax.remaining (run k)) ≤ length (product colors_list pegs) + 1)%nat.
Proof.
  induction k as [|k IH].
  { intros _. cbn. unfold Minimax.all_codes. lia. }
  change (run (S k)) with (Minimax.step secret pegs colors_list (run k)).
  intros Hrun. pose proof Hrun as [Hprev _]%minimax_step_running.
  specialize (IH Hprev). pose proof (minimax_running_turn k Hprev) as Hturn.
  destruct (decide (Minimax.remaining (run k) = [])) as [Hrem|Hne].
  { revert Hrun. unfold Minimax.step. by rewrite Hprev, Hrem. }
  revert Hrun. rewrite minimax_step_play by done. intros Hrun.
  destruct k as [|k].
  - pose proof (sublist_length _ _
      (minimax_play_sublist secret pegs colors_list (run 0%nat))) as Hle.
    cbn in Hle |- *. unfold Minimax.all_codes in Hle. lia.
  - pose proof (minimax_play_shrinks (S k) Hne ltac:(lia) Hrun). lia.
Qed.

Lemma minimax_always_halts :
  ∃ r, Minimax.halted (run (Minimax.fuel pegs colors_list)) = Some r.
Proof.
  destruct (Minimax.halted (run (Minimax.fuel pegs colors_list))) as [r|] eqn:Hhalt;
    [by exists r|].
  apply minimax_run_measure in Hhalt.
  unfold Minimax.fuel, Minimax.all_codes in Hhalt. lia.
Qed.
End minimax_always_ends.

(** X22: [mastermind_minimax_solver] always ends, on any secret and any pegs
    and colours: within [len(all_codes) + 2] passes of the loop it has
    returned its history, or raised when the code space is empty. The first
    turn, played with the fixed opening guess, may leave the candidates as
    they are; every later turn that does not end the run removes at least
    one candidate. *)
Theorem mastermind_minimax_solver_always_ends
    (secret : Code) (pegs : nat) (colors_list : list string) :
  (∃ r out,
     Minimax.mastermind_minimax_solver secret pegs colors_list = (Some r, out) ∧
     (product colors_list pegs ≠ [] → ∃ history, r = Ok history)) ∧
  (∀ k, Minimax.halted (Minimax.run secret pegs colors_list (S (S k))) = None →
        (length (Minimax.remaining (Minimax.run secret pegs colors_list (S (S k))))
         < length (Minimax.remaining (Minimax.run secret pegs colors_list (S k))))%nat).
Proof.
  split.
  - destruct (minimax_always_halts secret pegs colors_list) as [r Hhalt].
    unfold Minimax.mastermind_minimax_solver. rewrite Hhalt.
    eexists r, _. split; [done|]. intros Hne.
    destruct r as [history|e]; [by eexists|].
    by destruct (minimax_run_no_exception secret pegs colors_list Hne
                   (Minimax.fuel pegs colors_list) e).
  - intros k.
    change (Minimax.run secret pegs colors_list (S (S k)))
      with (Minimax.step secret pegs colors_list
              (Minimax.run secret pegs colors_list (S k))).
    intros Hrun. pose proof Hrun as [Hprev _]%minimax_step_running.
    pose proof (minimax_running_turn secret pegs colors_list (S k) Hprev) as Hturn.
    destruct (decide (Minimax.remaining (Minimax.run secret pegs colors_list (S k)) = []))
      as [Hrem|Hne].
    { revert Hrun. unfold Minimax.step. by rewrite Hprev, Hrem. }
    revert Hrun. rewrite minimax_step_play by done. intros Hrun.
    apply minimax_play_shrinks; [done|lia|done].
Qed.

(** With one peg and the single colour [a], no candidate is removed on the
    first turn. *)
Example minimax_opening_turn_can_stall :
  Minimax.remaining (Minimax.run ["z"] 1 ["a"] 1)
  = Minimax.remaining (Minimax.run ["z"] 1 ["a"] 0) ∧
  Minimax.halted (Minimax.run ["z"] 1 ["a"] 1) = None.
Proof. vm_compute. done. Qed.


(** ** How often a call asks the generator *)

Section inference_draws.
Variables (secret : Code) (pegs : nat) (colors_list : list string)
          (num_initial_guesses : nat) (g : rng).

Let run := Inference.run secret pegs colors_list num_initial_guesses g.

Lemma inference_run_draws k :
  tape (Inference.gen (run k)) = tape g ∧
  cursor (Inference.gen (run k))
  = (cursor g + length (Inference.guess_history (run k)) `min` num_initial_guesses)%nat.
Proof.
  induction k as [|k IH]; [cbn; split; [done|lia]|].
  change (run (S k))
    with (Inference.step secret pegs num_initial_guesses (run k)).
  pose proof (inference_run_history_ok secret pegs colors_list num_initial_guesses g k)
    as Hok.
  cbn zeta in Hok. fold run in Hok.
  revert IH Hok. generalize (run k). intros st [Htape Hcursor] Hok.
  unfold Inference.step.
  destruct (Inference.halted st) eqn:Hhalt; [done|]. cbn [history_ok] in Hok.
  destruct (decide _) as [Hphase|Hphase].
  - unfold Inference.explore_turn.
    destruct (decide (Inference.remaining st = [])) as [Hrem|Hne].
    { rewrite Hrem. cbn. done. }
    destruct (random_choice_ok (Inference.remaining st) (Inference.gen st) Hne)
      as (guess & -> & _).
    rewrite observe_gen, observe_history, length_app. cbn. split; [done|]. lia.
  - destruct (Inference.remaining st) eqn:Hrem; [done|].
    unfold Inference.infer_turn.
    destruct (select_best_first_min (Inference.premises st) (Inference.remaining st))
      as (i & best & -> & _); [by rewrite Hrem|].
    rewrite observe_gen, observe_history, length_app. cbn. split; [done|]. lia.
Qed.
End inference_draws.

(** X23: a call of [logical_inference_solver] that returns a history of [t]
    guesses has called [random.choice] exactly [min(t, num_initial_guesses)]
    times, once in each exploratory turn and never in the scored phase,
    whose fallback [random.choice] is never reached; a call that raises
    has been served fewer than that. The module-level generator is left
    as that many calls leave it. *)
Theorem logical_inference_solver_choice_calls
    (secret : Code) (pegs : nat) (colors_list : list string)
    (num_initial_guesses : nat) (g : rng) :
  ∃ r out calls,
    Inference.logical_inference_solver secret pegs colors_list num_initial_guesses g
      = (Some r, out, after_calls calls g) ∧
    (calls ≤ num_initial_guesses)%nat ∧
    (∀ history, r = Ok history →
       calls = (length history `min` num_initial_guesses)%nat).
Proof.
  destruct (inference_always_halts secret pegs colors_list num_initial_guesses g)
    as (r & Hhalt & _).
  pose proof (inference_run_draws secret pegs colors_list num_initial_guesses g
                (Inference.fuel pegs colors_list num_initial_guesses)) as [Htape Hcursor].
  pose proof (inference_run_history_ok secret pegs colors_list num_initial_guesses g
                (Inference.fuel pegs colors_list num_initial_guesses)) as Hok.
  cbn zeta in Hok. unfold Inference.logical_inference_solver.
  revert Hhalt Htape Hcursor Hok.
  generalize (Inference.run secret pegs colors_list num_initial_guesses g
                (Inference.fuel pegs colors_list num_initial_guesses)).
  intros st Hhalt Htape Hcursor Hok. rewrite Hhalt in *.
  exists r, (Inference.output st),
    (length (Inference.guess_history st) `min` num_initial_guesses)%nat.
  split_and!.
  - do 2 f_equal. unfold after_calls. rewrite <- Htape, <- Hcursor.
    by destruct (Inference.gen st).
  - lia.
  - intros history ->. cbn [history_ok] in Hok. by destruct Hok as [-> _].
Qed.

Section cnf_draws.
Variables (secret : Code) (num_initial_guesses : nat) (g : rng).

Let run := CNF.run secret num_initial_guesses g.

Lemma cnf_play_draws last_phase st :
  CNF.remaining st ≠ [] →
  tape (CNF.gen (CNF.play secret last_phase st)) = tape (CNF.gen st) ∧
  cursor (CNF.gen (CNF.play secret last_phase st)) = S (cursor (CNF.gen st)) ∧
  length (CNF.guess_history (CNF.play secret last_phase st))
  = S (length (CNF.guess_history st)) ∧
  (∀ history, CNF.halted (CNF.play secret last_phase st) = Some (Ok history) →
              history = CNF.guess_history (CNF.play secret last_phase st)).
Proof.
  intros Hne. unfold CNF.play.
  destruct (random_choice_ok (CNF.remaining st) (CNF.gen st) Hne)
    as (guess & -> & _).
  assert (Hlen : length (CNF.guess_history st ++ [guess])
                 = S (length (CNF.guess_history st))).
  { rewrite length_app. cbn. lia. }
  destruct (decide _).
  { cbn [CNF.gen CNF.guess_history CNF.halted tape cursor].
    split_and!; [done..|]. by intros history [= <-]. }
  destruct (CNF.derive_simple_cnf_constraints _ _); [|by split_and!].
  destruct (CNF.filter_cnf _ _); [|by split_and!].
  destruct (_ && _); cbn [CNF.gen CNF.guess_history CNF.halted tape cursor];
    (split_and!; [done..|]); [by intros history [= <-]|done].
Qed.

Lemma cnf_run_draws k :
  tape (CNF.gen (run k)) = tape g ∧
  cursor (CNF.gen (run k)) = (cursor g + length (CNF.guess_history (run k)))%nat ∧
  (∀ history, CNF.halted (run k) = Some (Ok history) →
              history = CNF.guess_history (run k)).
Proof.
  induction k as [|k IH]; [cbn; split_and!; [done|lia|done]|].
  change (run (S k)) with (CNF.step secret num_initial_guesses (run k)).
  revert IH. generalize (run k). intros st (Htape & Hcursor & Hret).
  unfold CNF.step.
  destruct (CNF.halted st) eqn:Hhalt; [rewrite Hhalt; by split_and!|].
  assert (Hplay : ∀ last_phase, CNF.remaining st ≠ [] →
    tape (CNF.gen (CNF.play secret last_phase st)) = tape g ∧
    cursor (CNF.gen (CNF.play secret last_phase st))
    = (cursor g + length (CNF.guess_history (CNF.play secret last_phase st)))%nat ∧
    (∀ history, CNF.halted (CNF.play secret last_phase st) = Some (Ok history) →
                history = CNF.guess_history (CNF.play secret last_phase st))).
  { intros last_phase Hne.
    destruct (cnf_play_draws last_phase st Hne) as (-> & -> & -> & Hret').
    split_and!; [done|lia|done]. }
  destruct (decide _);
    (destruct (CNF.remaining st) eqn:Hrem;
     [unfold CNF.finish;
      cbn [CNF.gen CNF.guess_history CNF.halted]; split_and!; [done..|];
      by intros history [= <-]|]);
    by apply Hplay.
Qed.
End cnf_draws.

(** X24: a call of [logical_inference_solver_CNF] has called
    [random.choice] exactly once for each guess of the history it returns:
    both of its phases pick the guess with [random.choice]. The
    module-level generator is left as that many calls leave it. *)
Theorem logical_inference_solver_CNF_choice_calls
    (secret : Code) (num_initial_guesses : nat) (g : rng) :
  ∃ history out,
    CNF.logical_inference_solver_CNF secret num_initial_guesses g
    = (Some (Ok history), out, after_calls (length history) g).
Proof.
  destruct (cnf_always_halts secret num_initial_guesses g) as [history Hhalt].
  pose proof (cnf_run_draws secret num_initial_guesses g CNF.fuel)
    as (Htape & Hcursor & Hret).
  unfold CNF.logical_inference_solver_CNF.
  revert Hhalt Htape Hcursor Hret.
  generalize (CNF.run secret num_initial_guesses g CNF.fuel).
  intros st Hhalt Htape Hcursor Hret.
  rewrite Hhalt. exists history, (CNF.output st). do 2 f_equal.
  unfold after_calls. rewrite (Hret history Hhalt), <- Htape, <- Hcursor.
  by destruct (CNF.gen st).
Qed.


(** ** The round trip of a written literal *)

(** X25: what [derive_simple_cnf_constraints] writes, [code_satisfies_cnf]
    reads back, for every position and every colour name that contains no
    comma and neither begins nor ends with a quote: the literal written for
    position [i] and colour [c] is evaluated as [code[i] != c]. A colour
    name with a comma in it breaks the round trip: the literal no longer
    parses, it is skipped, and its one-literal clause rejects every code. *)
Theorem written_literal_reads_back (i : nat) (c : string) (code : Code) :
  let literal := CNF.negative_literal i c in
  (","%char ∉ list_ascii_of_string c →
   head (list_ascii_of_string c) ≠ Some "'"%char →
   last (list_ascii_of_string c) ≠ Some "'"%char →
   CNF.parses literal ∧
   ∀ x, code !! i = Some x →
        CNF.eval_literal code literal = Ok (Some (bool_decide (x ≠ c))) ∧
        CNF.clause_satisfied code [literal] = Ok (bool_decide (x ≠ c))) ∧
  (","%char ∈ list_ascii_of_string c →
   ¬ CNF.parses literal ∧
   CNF.eval_literal code literal = Ok None ∧
   CNF.clause_satisfied code [literal] = Ok false).
Proof.
  cbn zeta. split.
  - intros Hcomma Hhead Hlast.
    pose proof (parse_atom_written (i + 1) c Hcomma Hhead Hlast) as Hparse.
    split.
    { unfold CNF.parses. rewrite negative_literal_after_tilde, Hparse. by eexists. }
    intros x Hx.
    assert (Heval : CNF.eval_literal code (CNF.negative_literal i c)
                    = Ok (Some (bool_decide (x ≠ c)))).
    { unfold CNF.eval_literal. rewrite negative_literal_after_tilde, Hparse.
      replace (Z.of_nat (i + 1) - 1) with (Z.of_nat i + 1 - 1) by lia.
      by rewrite py_index_nat, Hx. }
    split; [done|]. cbn [CNF.clause_satisfied]. rewrite Heval. cbn [bind_result].
    by destruct (bool_decide (x ≠ c)).
  - intros Hcomma. pose proof (parse_atom_comma (i + 1) c Hcomma) as Hparse.
    assert (Heval : CNF.eval_literal code (CNF.negative_literal i c) = Ok None).
    { unfold CNF.eval_literal. by rewrite negative_literal_after_tilde, Hparse. }
    split_and!; [|done|].
    + unfold CNF.parses. rewrite negative_literal_after_tilde, Hparse.
      by intros [? [=]].
    + cbn [CNF.clause_satisfied]. by rewrite Heval.
Qed.

Lemma written_literal_reads_back_witness :
  (CNF.parses (CNF.negative_literal 1 "light blue") ∧
   ∀ x, ["a"; "b"] !! 1%nat = Some x →
        CNF.eval_literal ["a"; "b"] (CNF.negative_literal 1 "light blue")
        = Ok (Some (bool_decide (x ≠ "light blue"))) ∧
        CNF.clause_satisfied ["a"; "b"] [CNF.negative_literal 1 "light blue"]
        = Ok (bool_decide (x ≠ "light blue"))) ∧
  (¬ CNF.parses (CNF.negative_literal 0 "red,dark") ∧
   CNF.eval_literal ["red,dark"] (CNF.negative_literal 0 "red,dark") = Ok None ∧
   CNF.clause_satisfied ["red,dark"] [CNF.negative_literal 0 "red,dark"] = Ok false).
Proof.
  split.
  - apply (written_literal_reads_back 1 "light blue" ["a"; "b"]).
    + apply (bool_decide_unpack _). vm_compute. exact I.
    + vm_compute. discriminate.
    + vm_compute. discriminate.
  - apply (written_literal_reads_back 0 "red,dark" ["red,dark"]).
    apply (bool_decide_unpack _). vm_compute. exact I.
Defined.


(** ** Feedback between codes of different lengths *)

Lemma black_pegs_common_positions secret guess :
  black_pegs secret guess
  = matching_positions (length secret `min` length guess) secret guess.
Proof.
  unfold matching_positions, len.
  revert guess. induction secret as [|x secret IH]; intros [|y guess];
    [done|done|by rewrite black_pegs_nil_r, Nat.min_0_r|].
  rewrite black_pegs_cons, IH.
  cbn [length Nat.min seq]. rewrite filter_cons. cbn [lookup list_lookup].
  assert (Hshift : ∀ (n m : nat), m = n → 1 + Z.of_nat n = Z.of_nat (S m)) by lia.
  assert (Hsame : ∀ (n m : nat), m = n → 0 + Z.of_nat n = Z.of_nat m) by lia.
  destruct (decide (x = y)) as [->|Hne].
  - rewrite decide_True by done. cbn [length]. apply Hshift.
    by apply filter_seq_shift.
  - rewrite decide_False by congruence. apply Hsame.
    by apply filter_seq_shift.
Qed.

(** X26: [get_feedback] accepts two tuples of any lengths, and the solvers
    do call it so (the fixed opening guess of [mastermind_minimax_solver]
    has five pegs whatever [pegs] is). [zip] stops at the shorter tuple:
    black counts the agreeing positions among the first [min(len(secret),
    len(guess))], white is never negative, and black and white together
    never exceed the length of the shorter tuple. *)
Theorem get_feedback_any_lengths (secret guess : Code) :
  let m := (length secret `min` length guess)%nat in
  let fb := get_feedback secret guess in
  fb.1 = matching_positions m secret guess ∧
  0 ≤ fb.1 ∧ 0 ≤ fb.2 ∧ fb.1 + fb.2 ≤ Z.of_nat m.
Proof.
  cbn zeta. pose proof (white_nonneg secret guess) as Hwhite.
  pose proof (black_pegs_bounds secret guess) as Hblack.
  pose proof (colour_overlap_le_len secret guess) as Hguess.
  pose proof (colour_overlap_le_len guess secret) as Hsecret.
  rewrite (colour_overlap_comm guess secret) in Hsecret.
  unfold get_feedback in *. cbn [fst snd] in *. unfold len in *.
  split; [apply black_pegs_common_positions|]. lia.
Qed.


(** ** Runs that [random.choice] serves alike *)

(** A step draws only when the run is going and a candidate is left; from
    states that differ in the generator only, it needs the two generators
    to serve the same value to that one call. *)
Lemma cnf_step_same_view secret n st1 st2 :
  cnf_view st1 = cnf_view st2 →
  (CNF.halted st1 = None → CNF.remaining st1 ≠ [] →
   same_picks 1 (CNF.gen st1) (CNF.gen st2)) →
  cnf_view (CNF.step secret n st1) = cnf_view (CNF.step secret n st2).
Proof.
  intros Hview Hsame.
  destruct (CNF.halted st1) as [r|] eqn:Hhalt.
  { assert (Hhalt2 : CNF.halted st2 = Some r).
    { unfold cnf_view in Hview. injection Hview as _ _ _ _ _ _ <-. done. }
    by rewrite (cnf_step_halted secret n st1 r), (cnf_step_halted secret n st2 r). }
  destruct (decide (CNF.remaining st1 = [])) as [Hrem|Hne].
  - destruct st1 as [rem prem cnf hist trn g1 out halt],
             st2 as [rem2 prem2 cnf2 hist2 trn2 g2 out2 halt2].
    unfold cnf_view in Hview. cbn in Hview, Hhalt, Hrem.
    injection Hview as <- <- <- <- <- <- <-. subst rem halt.
    unfold CNF.step. cbn [CNF.halted CNF.turn CNF.remaining].
    by destruct (decide _).
  - by apply (cnf_step_same_picks secret n 0 st1 st2 Hview), Hsame.
Qed.

Lemma cnf_step_history_length secret n st :
  (length (CNF.guess_history st) ≤ length (CNF.guess_history (CNF.step secret n st)))%nat ∧
  (CNF.halted st = None → CNF.remaining st ≠ [] →
   length (CNF.guess_history (CNF.step secret n st))
   = S (length (CNF.guess_history st))).
Proof.
  unfold CNF.step. destruct (CNF.halted st) eqn:Hhalt; [by split|].
  assert (Hplay : ∀ last_phase, CNF.remaining st ≠ [] →
    length (CNF.guess_history (CNF.play secret last_phase st))
    = S (length (CNF.guess_history st))).
  { intros last_phase Hne. by destruct (cnf_play_draws secret last_phase st Hne)
      as (_ & _ & -> & _). }
  destruct (decide _);
    (destruct (CNF.remaining st) eqn:Hrem; [by split|]);
    (rewrite Hplay by done; split; [lia|done]).
Qed.

Lemma cnf_run_history_mono secret n g k k' :
  (k ≤ k')%nat →
  (length (CNF.guess_history (CNF.run secret n g k))
   ≤ length (CNF.guess_history (CNF.run secret n g k')))%nat.
Proof.
  induction 1 as [|k' _ IH]; [done|]. etrans; [exact IH|].
  change (CNF.run secret n g (S k')) with (CNF.step secret n (CNF.run secret n g k')).
  apply cnf_step_history_length.
Qed.

Lemma cnf_run_same_view secret n g1 g2 k :
  same_picks (length (CNF.guess_history (CNF.run secret n g1 CNF.fuel))) g1 g2 →
  (k ≤ CNF.fuel)%nat →
  cnf_view (CNF.run secret n g1 k) = cnf_view (CNF.run secret n g2 k).
Proof.
  intros Hsame. induction k as [|k IH]; intros Hk; [done|].
  specialize (IH ltac:(lia)).
  change (CNF.run secret n ?g (S k)) with (CNF.step secret n (CNF.run secret n g k)).
  apply cnf_step_same_view; [done|]. intros Hhalt Hne.
  pose proof (cnf_run_history_mono secret n g1 (S k) CNF.fuel Hk) as Hmono.
  change (CNF.run secret n g1 (S k))
    with (CNF.step secret n (CNF.run secret n g1 k)) in Hmono.
  rewrite (proj2 (cnf_step_history_length secret n _) Hhalt Hne) in Hmono.
  destruct (cnf_run_draws secret n g1 k) as (Htape1 & Hcursor1 & _).
  destruct (cnf_run_draws secret n g2 k) as (Htape2 & Hcursor2 & _).
  assert (Hhist : CNF.guess_history (CNF.run secret n g2 k)
                  = CNF.guess_history (CNF.run secret n g1 k)).
  { unfold cnf_view in IH. by injection IH as _ _ _ -> _ _ _. }
  rewrite Hhist in Hcursor2.
  intros i Hi. rewrite Htape1, Htape2, Hcursor1, Hcursor2.
  replace i with 0%nat by lia. rewrite !Nat.add_0_r.
  apply Hsame. lia.
Qed.

(** C9 as the code has it: the guesses of a run are determined by the
    secret, the configuration and what the calls of [random.choice] return
    while the run lasts. [logical_inference_solver] calls it in its
    exploratory turns only: two runs that are served alike in the next
    [num_initial_guesses] calls return the same history and print the same
    lines. [logical_inference_solver_CNF] calls it once in every turn: two
    runs that are served alike in as many calls as the first run has turns
    return the same history and print the same lines. *)
Theorem guess_sequence_determined_by_picks
    (secret : Code) (pegs : nat) (colors_list : list string)
    (num_initial_guesses : nat) (g1 g2 : rng) :
  (same_picks num_initial_guesses g1 g2 →
   (Inference.logical_inference_solver secret pegs colors_list num_initial_guesses g1).1
   = (Inference.logical_inference_solver secret pegs colors_list num_initial_guesses g2).1) ∧
  (∀ history out g1',
     CNF.logical_inference_solver_CNF secret num_initial_guesses g1
       = (Some (Ok history), out, g1') →
     same_picks (length history) g1 g2 →
     (CNF.logical_inference_solver_CNF secret num_initial_guesses g2).1
     = (Some (Ok history), out)).
Proof.
  split.
  - intros Hsame.
    destruct (inference_run_same_picks secret pegs colors_list num_initial_guesses g1 g2
                (Inference.fuel pegs colors_list num_initial_guesses) Hsame)
      as [Hview _].
    unfold Inference.logical_inference_solver. revert Hview.
    generalize (Inference.run secret pegs colors_list num_initial_guesses g1
                  (Inference.fuel pegs colors_list num_initial_guesses))
               (Inference.run secret pegs colors_list num_initial_guesses g2
                  (Inference.fuel pegs colors_list num_initial_guesses)).
    intros st1 st2 Hview. unfold inference_view in Hview.
    injection Hview as _ _ _ _ -> ->. reflexivity.
  - intros history out g1'. unfold CNF.logical_inference_solver_CNF.
    pose proof (cnf_run_same_view secret num_initial_guesses g1 g2 CNF.fuel) as Hview.
    destruct (cnf_run_draws secret num_initial_guesses g1 CNF.fuel) as (_ & _ & Hret).
    revert Hview Hret.
    generalize (CNF.run secret num_initial_guesses g1 CNF.fuel)
               (CNF.run secret num_initial_guesses g2 CNF.fuel).
    intros st1 st2 Hview Hret [= Hhalt Hout _] Hsame.
    rewrite (Hret history Hhalt) in Hsame.
    specialize (Hview Hsame (Nat.le_refl _)). unfold cnf_view in Hview.
    injection Hview as _ _ _ _ _ Hout2 Hhalt2.
    cbn [fst]. by rewrite <- Hout2, <- Hhalt2, Hhalt, Hout.
Qed.

Lemma guess_sequence_determined_by_picks_witness :
  (Inference.logical_inference_solver ["b"; "a"] 2 ["a"; "b"] 1 one_then_zero).1
  = (Inference.logical_inference_solver ["b"; "a"] 2 ["a"; "b"] 1 shifted_one_then_zero).1 ∧
  ∃ history out,
    (CNF.logical_inference_solver_CNF ["pink"; "red"; "blue"; "blue"; "brown"] 1
       one_then_zero).1 = (Some (Ok history), out) ∧
    (CNF.logical_inference_solver_CNF ["pink"; "red"; "blue"; "blue"; "brown"] 1
       shifted_one_then_zero).1 = (Some (Ok history), out).
Proof.
  assert (Hsame : ∀ m, same_picks m one_then_zero shifted_one_then_zero).
  { intros m i _. unfold shifted_one_then_zero. cbn [tape cursor].
    replace (3 + i - 3)%nat with (0 + i)%nat by lia. reflexivity. }
  split.
  - destruct (guess_sequence_determined_by_picks ["b"; "a"] 2 ["a"; "b"] 1
                one_then_zero shifted_one_then_zero) as [Hinference _].
    apply Hinference, Hsame.
  - destruct (guess_sequence_determined_by_picks ["pink"; "red"; "blue"; "blue"; "brown"]
                0 [] 1 one_then_zero shifted_one_then_zero) as [_ Hcnf].
    destruct (cnf_always_halts ["pink"; "red"; "blue"; "blue"; "brown"] 1 one_then_zero)
      as [history Hhalt].
    assert (Hrun : CNF.logical_inference_solver_CNF
                     ["pink"; "red"; "blue"; "blue"; "brown"] 1 one_then_zero
                   = (Some (Ok history),
                      CNF.output (CNF.run ["pink"; "red"; "blue"; "blue"; "brown"] 1
                                    one_then_zero CNF.fuel),
                      CNF.gen (CNF.run ["pink"; "red"; "blue"; "blue"; "brown"] 1
                                 one_then_zero CNF.fuel))).
    { unfold CNF.logical_inference_solver_CNF. rewrite Hhalt. reflexivity. }
    eexists history, _. split; [exact (f_equal fst Hrun)|].
    apply (Hcnf _ _ _ Hrun). apply Hsame.
Defined.
